(** * Wall Chess: the path search engine and the game core of [lol.py]

    A shallow embedding of the search ([a_star] over the [heapq] priority
    queue), of the automated turn ([handle_ai_turn]) and of one pass of the
    game loop of [main], followed by the properties of the design document
    stated and settled on that embedding. *)

From Stdlib Require Import ZArith Lia String.
From stdpp Require Import base decidable option numbers list sets gmap.

#[local] Open Scope Z_scope.
#[local] Set Warnings "-clear-no-such-hyp".

(** ** Game configuration (lines 8-15 of [lol.py]) *)

Definition BOARD_COLS : Z := 9.
Definition BOARD_ROWS : Z := 9.
Definition GOAL_ROWS : Z := 2.
Definition TOTAL_ROWS : Z := BOARD_ROWS + GOAL_ROWS.
Definition TILE_SIZE : Z := 500 / BOARD_COLS.
Definition SCREEN_WIDTH : Z := BOARD_COLS * TILE_SIZE.
Definition SCREEN_HEIGHT : Z := TOTAL_ROWS * TILE_SIZE.
Definition MAX_WALLS_PER_PLAYER : Z := 10.

(** A board cell is a [(row, col)] tuple of Python integers. *)
Abbreviation Pos := (Z * Z)%type.

(** ** The [heapq] module of the Python library

    [heapq] keeps a binary min-heap in a Python list.  The list is a Rocq
    list read with [!!!] and written with [<[_:=_]>]; every index the
    algorithms touch is in range, so neither the default of [!!!] nor the
    silent no-op of an out-of-range insert is ever met on a heap.  The two
    [while] loops move an index along one branch of the tree, so they are
    given the length of that branch as recursion bound. *)

Module heapq.
Section heapq.
Context {A : Type} `{!Inhabited A}.
(** [lt a b] is Python's [a < b] on heap items. *)
Variable lt : A -> A -> bool.

#[local] Open Scope nat_scope.

(** The loop of [_siftdown]: follow the path to the root, moving parents
    down until a place is found where [newitem] fits. *)
Fixpoint siftdown_loop (n : nat) (heap : list A) (startpos pos : nat)
    (newitem : A) : list A :=
  match n with
  | O => <[pos := newitem]> heap
  | S n' =>
      if decide (startpos < pos) then
        let parentpos := (pos - 1) / 2 in
        let parent := heap !!! parentpos in
        if lt newitem parent
        then siftdown_loop n' (<[pos := parent]> heap) startpos parentpos newitem
        else <[pos := newitem]> heap
      else <[pos := newitem]> heap
  end.

Definition siftdown (heap : list A) (startpos pos : nat) : list A :=
  let newitem := heap !!! pos in
  siftdown_loop pos heap startpos pos newitem.

(** The loop of [_siftup]: bubble the smaller child up until a leaf is
    hit; returns the list and the position of the leaf. *)
Fixpoint siftup_loop (n : nat) (heap : list A) (endpos pos : nat)
    : list A * nat :=
  match n with
  | O => (heap, pos)
  | S n' =>
      let childpos := 2 * pos + 1 in
      if decide (childpos < endpos) then
        let rightpos := childpos + 1 in
        let childpos :=
          if bool_decide (rightpos < endpos)
             && negb (lt (heap !!! childpos) (heap !!! rightpos))
          then rightpos else childpos in
        siftup_loop n' (<[pos := heap !!! childpos]> heap) endpos childpos
      else (heap, pos)
  end.

Definition siftup (heap : list A) (pos : nat) : list A :=
  let endpos := length heap in
  let startpos := pos in
  let newitem := heap !!! pos in
  let '(heap, pos) := siftup_loop endpos heap endpos pos in
  let heap := <[pos := newitem]> heap in
  siftdown heap startpos pos.

(** [heappush(heap, item)]: append, then restore the invariant. *)
Definition heappush (heap : list A) (item : A) : list A :=
  let heap := heap ++ [item] in
  siftdown heap 0 (length heap - 1).

(** [heappop(heap)]: the smallest item and the list that is left; [None]
    stands for the [IndexError] of an empty list. *)
Definition heappop (heap : list A) : option (A * list A) :=
  match last heap with
  | None => None
  | Some lastelt =>
      let heap := take (length heap - 1) heap in
      match heap with
      | [] => Some (lastelt, heap)
      | returnitem :: _ =>
          let heap := <[0 := lastelt]> heap in
          Some (returnitem, siftup heap 0)
      end
  end.

End heapq.
End heapq.

(** ** Search nodes (lines 43-61) *)

#[local] Unset Elimination Schemes.
Inductive Node : Type := mkNode {
  row : Z;                (* row position on board *)
  col : Z;                (* column position on board *)
  parent : option Node;   (* previous node in path *)
  g : Z;                  (* cost from start to current node *)
  h : Z;                  (* heuristic cost to goal *)
  f : Z                   (* total cost f = g + h *)
}.
#[local] Set Elimination Schemes.

#[export] Instance Node_inhabited : Inhabited Node :=
  populate (mkNode 0 0 None 0 0 0).

(** [Node(row, col, parent)]: the three costs start at zero. *)
Definition Node_init (row col : Z) (parent : option Node) : Node :=
  mkNode row col parent 0 0 0.

(** [Node.__lt__]: the comparison A* uses chooses the least [f]. *)
Definition Node_lt (self other : Node) : bool := bool_decide (f self < f other).

(** Python's [<] on the tuples [(f, node)] the open set holds.  Tuples are
    compared item by item: when the integers differ they decide; when they are
    equal the nodes are compared, the same object twice making the tuples
    equal and [<] false, two objects going through [Node.__lt__], which is
    false as well on equal [f].  Object identity therefore never changes the
    answer and is not modelled. *)
Definition tuple_lt (a b : Z * Node) : bool :=
  if decide (a.1 = b.1) then Node_lt a.2 b.2 else bool_decide (a.1 < b.1).

Definition heuristic (node : Node) (goal_pos : Pos) : Z :=
  Z.abs (row node - goal_pos.1) + Z.abs (col node - goal_pos.2).

(** ** The [while] loops of the search

    [while_loop n body s] runs [body] from [s] until it returns a result
    ([inr]), at most [2 ^ n] times: a loop of [n + 1] levels runs the loop of
    [n] levels twice.  [a_star_terminates] below shows that the search always
    returns within the bound it is given. *)
Fixpoint while_loop {S R : Type} (n : nat) (body : S -> S + R) (s : S) : S + R :=
  match n with
  | O => body s
  | Datatypes.S n' =>
      match while_loop n' body s with
      | inl s' => while_loop n' body s'
      | inr r => inr r
      end
  end.

(** ** [a_star] (lines 70-116) *)

(** The four movement directions, in the order the source tries them. *)
Definition directions : list (Z * Z) := [(1, 0); (-1, 0); (0, 1); (0, -1)].

(** The interior of the board: [1 <= nr < TOTAL_ROWS - 1 and 0 <= nc < BOARD_COLS]. *)
Definition in_bounds (p : Pos) : bool :=
  bool_decide (1 <= p.1 < TOTAL_ROWS - 1) && bool_decide (0 <= p.2 < BOARD_COLS).

(** Path costs of a neighbor reached from [current] (lines 108-110). *)
Definition with_costs (neighbor current : Node) (goal_pos : Pos) : Node :=
  let g' := g current + 1 in
  let h' := heuristic neighbor goal_pos in
  mkNode (row neighbor) (col neighbor) (parent neighbor) g' h' (g' + h').

(** One pass of the [for drow, dcol in ...] loop (lines 92-114); a skipped
    direction ([continue]) leaves the open set as it is. *)
Definition a_star_neighbor (current : Node) (goal_pos : Pos) (walls visited : gset Pos)
    (open_set : list (Z * Node)) (d : Z * Z) : list (Z * Node) :=
  let nr := row current + d.1 in
  let nc := col current + d.2 in
  let push (neighbor : Node) :=
    let neighbor := with_costs neighbor current goal_pos in
    if decide ((nr, nc) ∉ visited)
    then heapq.heappush tuple_lt open_set (f neighbor, neighbor)
    else open_set in
  if decide ((nr, nc) = goal_pos) then push (Node_init nr nc (Some current))
  else if negb (in_bounds (nr, nc)) then open_set
  else if decide ((nr, nc) ∈ walls) then open_set
  else push (Node_init nr nc (Some current)).

(** The path of a goal node, by following parent pointers (lines 82-85):
    the cells are collected from the goal backwards and the root, which has
    no parent, is left out. *)
Fixpoint path_back (current : Node) : list Pos :=
  match current with
  | mkNode r c (Some p) _ _ _ => (r, c) :: path_back p
  | mkNode _ _ None _ _ _ => []
  end.

(** One pass of [while open_set:] (lines 75-114) on the open set and the
    visited set: either the next pair of them, or the returned path. *)
Definition a_star_step (goal_pos : Pos) (walls : gset Pos)
    (st : list (Z * Node) * gset Pos) : list (Z * Node) * gset Pos + list Pos :=
  let '(open_set, visited) := st in
  match heapq.heappop tuple_lt open_set with
  | None => inr []
  | Some ((_, current), open_set) =>
      if decide ((row current, col current) = goal_pos)
      then inr (reverse (path_back current))
      else
        let visited := visited ∪ {[ (row current, col current) ]} in
        inl (fold_left (a_star_neighbor current goal_pos walls visited)
                       directions open_set, visited)
  end.

(** The bound given to the main loop: [2 ^ 200] passes. *)
Definition a_star_bound : nat := 200.

Definition a_star (start_node : Node) (goal_pos : Pos) (walls : gset Pos) : list Pos :=
  match while_loop a_star_bound (a_star_step goal_pos walls) ([(0, start_node)], ∅) with
  | inr path => path
  | inl _ => []
  end.

(** ** The game state (lines 152-165)

    The dictionary [reset_game] builds, as a record; the two positions are
    the two-element lists of the source, read as pairs. *)

Record GameState : Type := mkGameState {
  player_pos : Pos;
  ai_pos : Pos;
  player_goal : Pos;
  ai_goal : Pos;
  walls : gset Pos;
  player_walls_used : Z;
  ai_walls_used : Z;
  turn_counter : Z;
  game_over : bool;
  result_message : string;
  player_moved : bool
}.

Definition reset_game : GameState := {|
  player_pos := (1, BOARD_COLS / 2);
  ai_pos := (TOTAL_ROWS - 2, BOARD_COLS / 2);
  player_goal := (TOTAL_ROWS - 1, BOARD_COLS / 2);
  ai_goal := (0, BOARD_COLS / 2);
  walls := ∅;
  player_walls_used := 0;
  ai_walls_used := 0;
  turn_counter := 0;
  game_over := false;
  result_message := EmptyString;
  player_moved := false
|}.

(** Assignments to one key of the dictionary. *)
Definition set_player_pos (v : Pos) (s : GameState) : GameState :=
  mkGameState v (ai_pos s) (player_goal s) (ai_goal s) (walls s)
    (player_walls_used s) (ai_walls_used s) (turn_counter s) (game_over s)
    (result_message s) (player_moved s).
Definition set_ai_pos (v : Pos) (s : GameState) : GameState :=
  mkGameState (player_pos s) v (player_goal s) (ai_goal s) (walls s)
    (player_walls_used s) (ai_walls_used s) (turn_counter s) (game_over s)
    (result_message s) (player_moved s).
Definition set_walls (v : gset Pos) (s : GameState) : GameState :=
  mkGameState (player_pos s) (ai_pos s) (player_goal s) (ai_goal s) v
    (player_walls_used s) (ai_walls_used s) (turn_counter s) (game_over s)
    (result_message s) (player_moved s).
Definition set_player_walls_used (v : Z) (s : GameState) : GameState :=
  mkGameState (player_pos s) (ai_pos s) (player_goal s) (ai_goal s) (walls s)
    v (ai_walls_used s) (turn_counter s) (game_over s)
    (result_message s) (player_moved s).
Definition set_ai_walls_used (v : Z) (s : GameState) : GameState :=
  mkGameState (player_pos s) (ai_pos s) (player_goal s) (ai_goal s) (walls s)
    (player_walls_used s) v (turn_counter s) (game_over s)
    (result_message s) (player_moved s).
Definition set_turn_counter (v : Z) (s : GameState) : GameState :=
  mkGameState (player_pos s) (ai_pos s) (player_goal s) (ai_goal s) (walls s)
    (player_walls_used s) (ai_walls_used s) v (game_over s)
    (result_message s) (player_moved s).
Definition set_game_over (v : bool) (s : GameState) : GameState :=
  mkGameState (player_pos s) (ai_pos s) (player_goal s) (ai_goal s) (walls s)
    (player_walls_used s) (ai_walls_used s) (turn_counter s) v
    (result_message s) (player_moved s).
Definition set_result_message (v : string) (s : GameState) : GameState :=
  mkGameState (player_pos s) (ai_pos s) (player_goal s) (ai_goal s) (walls s)
    (player_walls_used s) (ai_walls_used s) (turn_counter s) (game_over s)
    v (player_moved s).
Definition set_player_moved (v : bool) (s : GameState) : GameState :=
  mkGameState (player_pos s) (ai_pos s) (player_goal s) (ai_goal s) (walls s)
    (player_walls_used s) (ai_walls_used s) (turn_counter s) (game_over s)
    (result_message s) v.

(** The search as every caller invokes it: from a fresh root node built
    on a position, [a_star(Node(row, col), goal, walls)]. *)
Definition find_path (pos goal : Pos) (walls : gset Pos) : list Pos :=
  a_star (Node_init pos.1 pos.2 None) goal walls.

(** Truth value of a Python list. *)
Definition nonempty {A : Type} (l : list A) : bool :=
  match l with [] => false | _ :: _ => true end.

(** The no-trap test both wall placements run on the candidate set
    (lines 206-207 and 434-435). *)
Definition both_can_reach (game_state : GameState) (walls_candidate : gset Pos) : bool :=
  nonempty (find_path (player_pos game_state) (player_goal game_state) walls_candidate)
  && nonempty (find_path (ai_pos game_state) (ai_goal game_state) walls_candidate).

(** ** [handle_ai_turn] (lines 177-233) *)

(** Lines 190-213: the wall placement of the automated side.  [walls_used]
    is the counter the source reads at lines 184/188, before this step, which
    is the only one to change it. *)
Definition ai_place_wall (game_state : GameState) (is_player_ai : bool) : GameState :=
  let walls_used :=
    if is_player_ai then player_walls_used game_state else ai_walls_used game_state in
  if bool_decide (walls_used < MAX_WALLS_PER_PLAYER) then
    let opponent_pos := if is_player_ai then ai_pos game_state else player_pos game_state in
    let opponent_goal := if is_player_ai then ai_goal game_state else player_goal game_state in
    let opponent_path := find_path opponent_pos opponent_goal (walls game_state) in
    match opponent_path with
    | [] => game_state
    | block_pos :: _ =>
        let walls_candidate := walls game_state ∪ {[ block_pos ]} in
        if both_can_reach game_state walls_candidate then
          let game_state := set_walls walls_candidate game_state in
          if is_player_ai
          then set_player_walls_used (player_walls_used game_state + 1) game_state
          else set_ai_walls_used (ai_walls_used game_state + 1) game_state
        else game_state
    end
  else game_state.

(** Lines 215-222: the move of the automated side.  [current_ai_pos] is the
    position list itself, which nothing has written to since line 182/186. *)
Definition ai_move (game_state : GameState) (is_player_ai : bool) : GameState :=
  let current_ai_pos := if is_player_ai then player_pos game_state else ai_pos game_state in
  let current_ai_goal := if is_player_ai then player_goal game_state else ai_goal game_state in
  let ai_path := find_path current_ai_pos current_ai_goal (walls game_state) in
  match ai_path with
  | [] => game_state
  | step :: _ =>
      if is_player_ai then set_player_pos step game_state else set_ai_pos step game_state
  end.

(** Lines 224-231: the win conditions, the player's goal first. *)
Definition check_win (game_state : GameState) (is_player_ai : bool) : GameState :=
  if decide (player_pos game_state = player_goal game_state) then
    set_game_over true
      (set_result_message
         (if is_player_ai then "Player AI reached the goal! Player AI wins!"
          else "You reached the AI's goal! You win!") game_state)
  else if decide (ai_pos game_state = ai_goal game_state) then
    set_game_over true (set_result_message "AI reached the goal! AI wins!" game_state)
  else game_state.

Definition handle_ai_turn (game_state : GameState) (is_player_ai : bool) : GameState :=
  let game_state := set_turn_counter (turn_counter game_state + 1) game_state in
  let game_state := ai_place_wall game_state is_player_ai in
  let game_state := ai_move game_state is_player_ai in
  check_win game_state is_player_ai.

(** ** One pass of the game loop of [main] (lines 334-508)

    What the window hands to a pass of the loop: the events of
    [pygame.event.get()], the mouse position, and the mode the start screen
    returns should the pass go through [show_start_screen] (0, Player vs AI,
    or 1, AI vs AI).  Drawing, the clock and [time.sleep] do not touch the
    game state and are left out. *)

Inductive Key : Type := K_w | K_s | K_a | K_d | K_other.

Inductive Event : Type :=
  | QUIT
  | MOUSEBUTTONDOWN (button : Z)
  | KEYDOWN (key : Key)
  | OTHER_EVENT.

Record Frame : Type := mkFrame {
  events : list Event;
  mouse_pos : Z * Z;        (* (x, y) in pixels *)
  start_screen_ai_vs_ai : bool
}.

Definition show_start_screen (fr : Frame) : Z :=
  if start_screen_ai_vs_ai fr then 1 else 0.

Record Scores : Type := mkScores {
  player_wins : Z;
  ai_wins : Z;
  games_played : Z
}.

(** The variables of [main] that live across passes of the loop. *)
Record World : Type := mkWorld {
  game_mode : Z;
  game_state : GameState;
  scores : Scores;
  game_running : bool
}.

(** Lines 352-372: one WASD key on the player's position. *)
Definition player_key (game_state : GameState) (key : Key) : GameState :=
  let '(row, col) := player_pos game_state in
  let moved (p : Pos) := set_player_moved true (set_player_pos p game_state) in
  match key with
  | K_w =>
      if bool_decide ((row - 1, col) = player_goal game_state)
         || (bool_decide (row > 1) && bool_decide ((row - 1, col) ∉ walls game_state))
      then moved (row - 1, col) else game_state
  | K_s =>
      if bool_decide ((row + 1, col) = player_goal game_state)
         || (bool_decide (row < TOTAL_ROWS - 2)
             && bool_decide ((row + 1, col) ∉ walls game_state))
      then moved (row + 1, col) else game_state
  | K_a =>
      if bool_decide (col > 0) && bool_decide ((row, col - 1) ∉ walls game_state)
      then moved (row, col - 1) else game_state
  | K_d =>
      if bool_decide (col < BOARD_COLS - 1)
         && bool_decide ((row, col + 1) ∉ walls game_state)
      then moved (row, col + 1) else game_state
  | K_other => game_state
  end.

(** Lines 342-375: the body of [for event in pygame.event.get()], on the
    game state, [mouse_clicked] and [game_running]. *)
Definition handle_event (game_mode : Z) (st : GameState * bool * bool) (event : Event)
    : GameState * bool * bool :=
  let '(game_state, mouse_clicked, game_running) := st in
  let game_running := match event with QUIT => false | _ => game_running end in
  let mouse_clicked :=
    match event with
    | MOUSEBUTTONDOWN button => if bool_decide (button = 1) then true else mouse_clicked
    | _ => mouse_clicked
    end in
  let game_state :=
    match event with
    | KEYDOWN key =>
        if negb (game_over game_state) && bool_decide (game_mode = 0)
           && negb (player_moved game_state)
        then player_key game_state key else game_state
    | _ => game_state
    end in
  (game_state, mouse_clicked, game_running).

(** Lines 413-440: the player's wall placement on a click at [mouse_pos]. *)
Definition player_place_wall (game_state : GameState) (mouse_pos : Z * Z) : GameState :=
  let clicked_row := mouse_pos.2 / TILE_SIZE in
  let clicked_col := mouse_pos.1 / TILE_SIZE in
  let clicked_cell := (clicked_row, clicked_col) in
  if bool_decide (clicked_cell ∉ [player_pos game_state; ai_pos game_state;
                                   player_goal game_state; ai_goal game_state]) then
    if bool_decide (clicked_cell ∈ walls game_state) then game_state
    else if bool_decide (player_walls_used game_state >= MAX_WALLS_PER_PLAYER) then game_state
    else
      let walls_candidate := walls game_state ∪ {[ clicked_cell ]} in
      if both_can_reach game_state walls_candidate then
        let game_state := set_walls walls_candidate game_state in
        set_player_walls_used (player_walls_used game_state + 1) game_state
      else game_state
  else game_state.

(** [pygame.Rect(left, top, width, height).collidepoint(pos)]. *)
Definition collidepoint (left top width height : Z) (pos : Z * Z) : bool :=
  bool_decide (left <= pos.1 < left + width) && bool_decide (top <= pos.2 < top + height).

(** The three buttons of the game-over screen (lines 313-328). *)
Definition button_y : Z := (SCREEN_HEIGHT - 50) / 2.
Definition replay_hover (pos : Z * Z) : bool :=
  collidepoint ((SCREEN_WIDTH - 200) / 2) (button_y - 70) 200 50 pos.
Definition mode_hover (pos : Z * Z) : bool :=
  collidepoint ((SCREEN_WIDTH - 250) / 2) button_y 250 40 pos.
Definition home_hover (pos : Z * Z) : bool :=
  collidepoint ((SCREEN_WIDTH - 200) / 2) (button_y + 70) 200 50 pos.

(** Lines 460-469: the win counters. *)
Definition count_win (game_state : GameState) (scores : Scores) : Scores :=
  if game_over game_state then
    if decide (player_pos game_state = player_goal game_state) then
      mkScores (player_wins scores + 1) (ai_wins scores) (games_played scores + 1)
    else if decide (ai_pos game_state = ai_goal game_state) then
      mkScores (player_wins scores) (ai_wins scores + 1) (games_played scores + 1)
    else scores
  else scores.

(** Lines 444-457: whose automated turn it is. *)
Definition play_turn (game_mode : Z) (game_state : GameState) : GameState :=
  if bool_decide (game_mode = 0) then
    if player_moved game_state
    then set_player_moved false (handle_ai_turn game_state false)
    else game_state
  else
    if bool_decide (turn_counter game_state mod 2 = 0)
    then handle_ai_turn game_state true
    else handle_ai_turn game_state false.

(** The body of [while game_running:]. *)
Definition main_frame (w : World) (fr : Frame) : World :=
  let '(game_state, mouse_clicked, game_running) :=
    fold_left (handle_event (game_mode w)) (events fr)
              (game_state w, false, game_running w) in
  if negb (game_over game_state) then
    let game_state :=
      if bool_decide (game_mode w = 0) && mouse_clicked && negb (player_moved game_state)
      then player_place_wall game_state (mouse_pos fr) else game_state in
    let game_state := play_turn (game_mode w) game_state in
    mkWorld (game_mode w) game_state (count_win game_state (scores w)) game_running
  else if mouse_clicked then
    if replay_hover (mouse_pos fr) then
      mkWorld (game_mode w) reset_game (scores w) game_running
    else if mode_hover (mouse_pos fr) then
      mkWorld (1 - game_mode w) reset_game (scores w) game_running
    else if home_hover (mouse_pos fr) then
      mkWorld (show_start_screen fr) reset_game (mkScores 0 0 0) game_running
    else mkWorld (game_mode w) game_state (scores w) game_running
  else mkWorld (game_mode w) game_state (scores w) game_running.

(** [main] up to its loop (lines 302-310 and 330). *)
Definition main_init (fr : Frame) : World :=
  mkWorld (show_start_screen fr) reset_game (mkScores 0 0 0) true.

(** The worlds a run of [main] goes through: the loop body runs as long as
    [game_running] holds. *)
Inductive reachable : World -> Prop :=
  | reachable_init fr : reachable (main_init fr)
  | reachable_frame w fr :
      reachable w -> game_running w = true -> reachable (main_frame w fr).

(** * Specification vocabulary

    The predicates the properties below are stated with.  They describe the
    code above; none of them is used by it. *)

(** ** The heap invariant of [heapq] *)

Module heap_order.
Section heap_order.
Context {A : Type} `{!Inhabited A}.
Variable lt : A -> A -> bool.

#[local] Open Scope nat_scope.

(** [le a b] is Python's [not b < a]. *)
Definition le (a b : A) : Prop := lt b a = false.

(** The heap invariant: no item is smaller than its parent, the parent of
    index [i] being index [(i - 1) / 2]. *)
Definition heap_ok (heap : list A) : Prop :=
  forall i x p, 0 < i -> heap !! i = Some x -> heap !! ((i - 1) / 2) = Some p -> le p x.

(** The invariant away from position [pos], whose content is stale. *)
Definition holed (heap : list A) (pos : nat) : Prop :=
  forall i x p, 0 < i -> i <> pos -> (i - 1) / 2 <> pos ->
    heap !! i = Some x -> heap !! ((i - 1) / 2) = Some p -> le p x.

(** The parent of [pos] is below the children of [pos]. *)
Definition grands (heap : list A) (pos : nat) : Prop :=
  forall c x p, 0 < pos -> 0 < c -> (c - 1) / 2 = pos ->
    heap !! c = Some x -> heap !! ((pos - 1) / 2) = Some p -> le p x.

(** [v] is below the children of [pos]. *)
Definition below_children (heap : list A) (pos : nat) (v : A) : Prop :=
  forall c x, 0 < c -> (c - 1) / 2 = pos -> heap !! c = Some x -> le v x.

(** The child [_siftup] moves up: the smaller one, the left one on a tie
    the comparison does not see. *)
Definition chosen_child (heap : list A) (endpos pos : nat) : nat :=
  if bool_decide (2 * pos + 1 + 1 < endpos)
     && negb (lt (heap !!! (2 * pos + 1)) (heap !!! (2 * pos + 1 + 1)))
  then 2 * pos + 1 + 1 else 2 * pos + 1.

End heap_order.
End heap_order.

(** ** The search *)

(** The cell of a node. *)
Definition cell (n : Node) : Pos := (row n, col n).

(** The interior cells of the board. *)
Definition board : gset Pos :=
  list_to_set (cprod (seqZ 1 (TOTAL_ROWS - 2)) (seqZ 0 BOARD_COLS)).

(** The cells the search can ever put in the open set. *)
Definition universe (goal_pos : Pos) : gset Pos := board ∪ {[ goal_pos ]}.

(** The measure that shows the main loop terminates: an entry of the open
    set weighs [5 ^ k], [k] being the number of cells outside the visited
    set once the entry's cell has joined it.  A pass trades one entry for at
    most four, each lighter by a factor of five. *)
Definition weight (goal_pos : Pos) (visited : gset Pos) (e : Z * Node) : Z :=
  5 ^ Z.of_nat (size (universe goal_pos ∖ (visited ∪ {[ cell e.2 ]}))).

Definition potential (goal_pos : Pos) (st : list (Z * Node) * gset Pos) : Z :=
  foldr (fun e acc => weight goal_pos st.2 e + acc) 0 st.1.

(** The entry a direction adds to the open set, if any. *)
Definition successor (current : Node) (goal_pos : Pos) (walls visited : gset Pos)
    (d : Z * Z) : option (Z * Node) :=
  let q := (row current + d.1, col current + d.2) in
  if decide ((q ∉ visited) ∧ (q = goal_pos ∨ (in_bounds q = true ∧ (q ∉ walls)))) then
    let n := with_costs (Node_init q.1 q.2 (Some current)) current goal_pos in
    Some (f n, n)
  else None.

Abbreviation tuple_le := (heap_order.le tuple_lt).

Abbreviation heap_ok := (heap_order.heap_ok tuple_lt).

(** The open set after the [for] loop over the directions. *)
Definition expand (current : Node) (goal_pos : Pos) (walls visited : gset Pos)
    (open_set : list (Z * Node)) : list (Z * Node) :=
  fold_left (a_star_neighbor current goal_pos walls visited) directions open_set.

(** One unit step along a row or a column. *)
Definition unit_step (p q : Pos) : Prop :=
  Z.abs (q.1 - p.1) + Z.abs (q.2 - p.2) = 1.

(** The interior rows [1, TOTAL_ROWS - 2] and columns [0, BOARD_COLS - 1]. *)
Definition interior (p : Pos) : Prop :=
  1 <= p.1 <= TOTAL_ROWS - 2 /\ 0 <= p.2 <= BOARD_COLS - 1.

(** [route walls goal p l]: the cells [l] are a route from [p] to [goal],
    made of unit steps; every cell but the last is in the interior and is not
    a wall, the last cell is the goal. *)
Fixpoint route (walls : gset Pos) (goal_pos : Pos) (p : Pos) (l : list Pos) : Prop :=
  match l with
  | [] => False
  | q :: l' =>
      unit_step p q /\
      match l' with
      | [] => q = goal_pos
      | _ :: _ => interior q /\ (q ∉ walls) /\ route walls goal_pos q l'
      end
  end.

(** A cell the search may enter: the goal, or an interior cell off the walls. *)
Definition enterable (walls : gset Pos) (goal_pos : Pos) (q : Pos) : Prop :=
  q = goal_pos \/ (in_bounds q = true /\ (q ∉ walls)).

(** A walk of unit steps through enterable cells. *)
Fixpoint walk (walls : gset Pos) (goal_pos : Pos) (p : Pos) (l : list Pos) : Prop :=
  match l with
  | [] => True
  | q :: l' => unit_step p q /\ enterable walls goal_pos q /\ walk walls goal_pos q l'
  end.

(** The cell a walk from [p] along [l] ends on. *)
Definition last_cell (p : Pos) (l : list Pos) : Pos := default p (last l).

(** The distance the heuristic measures. *)
Definition manhattan (p q : Pos) : Z := Z.abs (p.1 - q.1) + Z.abs (p.2 - q.2).

(** The path a node stands for, from the first step to the node's cell. *)
Definition rev_path (n : Node) : list Pos := reverse (path_back n).

(** The root node of a search from [start]. *)
Definition root (start : Pos) : Node := Node_init start.1 start.2 None.

(** The nodes the search builds: the root sits on [start] at cost 0; any
    other node was reached by one step from its parent, which is not on the
    goal, and carries the costs of lines 108-110. *)
Fixpoint wf_node (walls : gset Pos) (start goal_pos : Pos) (n : Node) : Prop :=
  match n with
  | mkNode r c None g0 _ f0 => (r, c) = start /\ g0 = 0 /\ f0 = 0
  | mkNode r c (Some p) g0 _ f0 =>
      wf_node walls start goal_pos p
      /\ cell p <> goal_pos /\ (r, c) <> start
      /\ unit_step (cell p) (r, c) /\ enterable walls goal_pos (r, c)
      /\ g0 = g p + 1 /\ f0 = g0 + manhattan (r, c) goal_pos
  end.

(** The invariant of the main loop. *)
Definition search_inv (walls : gset Pos) (start goal_pos : Pos)
    (st : list (Z * Node) * gset Pos) : Prop :=
  heap_ok st.1
  /\ (forall e, e ∈ st.1 -> wf_node walls start goal_pos e.2 /\ e.1 = f e.2)
  /\ ((st.1 = [(0, root start)] /\ st.2 = ∅) \/ start ∈ st.2)
  /\ (goal_pos ∉ st.2)
  /\ (forall l t, walk walls goal_pos start (l ++ [t]) ->
        (t ∉ st.2) -> (last_cell start l ∈ st.2) ->
        exists e, e ∈ st.1 /\ cell e.2 = t /\ g e.2 <= Z.of_nat (length (l ++ [t]))).

(** What the pass that returns hands back. *)
Definition search_result (walls : gset Pos) (start goal_pos : Pos) (path : list Pos) : Prop :=
  (path = [] /\ forall l, ~ route walls goal_pos start l)
  \/ (route walls goal_pos start path /\ (start ∉ path)
      /\ forall l, route walls goal_pos start l -> (length path <= length l)%nat).

(** The state at the start of pass [n] of a loop (passes are counted from
    0), if the loop gets that far. *)
Fixpoint loop_state {S R : Type} (n : nat) (body : S -> S + R) (s : S) : option S :=
  match n with
  | O => Some s
  | Datatypes.S n' =>
      match body s with
      | inl s' => loop_state n' body s'
      | inr _ => None
      end
  end.

(** The open set and the visited set at the start of pass [n] of the search. *)
Definition a_star_pass (start goal_pos : Pos) (walls : gset Pos) (n : nat)
    : option (list (Z * Node) * gset Pos) :=
  loop_state n (a_star_step goal_pos walls) ([(0, root start)], ∅).

(** The pass that starts in [st] expands cell [c]: it pops an entry for [c],
    which is not the goal, and goes on to generate the neighbors of [c]. *)
Definition expands (goal_pos : Pos) (st : list (Z * Node) * gset Pos) (c : Pos) : Prop :=
  exists prio current open_set',
    heapq.heappop tuple_lt st.1 = Some ((prio, current), open_set')
    /\ cell current = c /\ c <> goal_pos.

(** ** The game *)

(** The side that [handle_ai_turn] plays. *)
Definition mover_pos (game_state : GameState) (is_player_ai : bool) : Pos :=
  if is_player_ai then player_pos game_state else ai_pos game_state.
Definition mover_goal (game_state : GameState) (is_player_ai : bool) : Pos :=
  if is_player_ai then player_goal game_state else ai_goal game_state.
Definition mover_walls_used (game_state : GameState) (is_player_ai : bool) : Z :=
  if is_player_ai then player_walls_used game_state else ai_walls_used game_state.

(** Line 178. *)
Definition tick (game_state : GameState) : GameState :=
  set_turn_counter (turn_counter game_state + 1) game_state.

(** The cell a click at [mouse_pos] designates (lines 413-415). *)
Definition clicked_cell (mouse_pos : Z * Z) : Pos :=
  (mouse_pos.2 / TILE_SIZE, mouse_pos.1 / TILE_SIZE).

(** The cell a key asks the player to move to. *)
Definition key_target (p : Pos) (key : Key) : option Pos :=
  match key with
  | K_w => Some (p.1 - 1, p.2)
  | K_s => Some (p.1 + 1, p.2)
  | K_a => Some (p.1, p.2 - 1)
  | K_d => Some (p.1, p.2 + 1)
  | K_other => None
  end.

(** The state in the middle of the event loop of a pass, after the events
    [evs] have been handled. *)
Definition after_events (w : World) (evs : list Event) : GameState * bool * bool :=
  fold_left (handle_event (game_mode w)) evs (game_state w, false, game_running w).

(** What the event loop can do to the game state: nothing, or one move of
    the player, after which [player_moved] shuts the keys out. *)
Definition one_move (mode : Z) (s0 s1 : GameState) : Prop :=
  s1 = s0
  \/ exists key t,
       game_over s0 = false /\ mode = 0 /\ player_moved s0 = false
       /\ key_target (player_pos s0) key = Some t
       /\ s1 = set_player_moved true (set_player_pos t s0)
       /\ (t = player_goal s0
           \/ ((t ∉ walls s0) /\ (interior (player_pos s0) -> interior t))).

(** The message the win check leaves. *)
Definition win_message (game_state : GameState) (is_player_ai : bool) : string :=
  if decide (player_pos game_state = player_goal game_state) then
    if is_player_ai then "Player AI reached the goal! Player AI wins!"%string
    else "You reached the AI's goal! You win!"%string
  else "AI reached the goal! AI wins!"%string.

(** Between two passes of the loop of a Player-vs-AI game that is not
    over, the player stands on an interior cell. *)
Definition player_inside (w : World) : Prop :=
  game_mode w <> 0 \/ game_over (game_state w) = true
  \/ interior (player_pos (game_state w)).

(** Both wall counters are within the budget. *)
Definition counters_bounded (game_state : GameState) : Prop :=
  0 <= player_walls_used game_state <= MAX_WALLS_PER_PLAYER
  /\ 0 <= ai_walls_used game_state <= MAX_WALLS_PER_PLAYER.

(** The pass of the loop, once the events have been handled. *)
Definition after_loop (w : World) (fr : Frame) (s1 : GameState) (mouse_clicked : bool)
    : GameState :=
  if negb (game_over s1) then
    play_turn (game_mode w)
      (if bool_decide (game_mode w = 0) && mouse_clicked && negb (player_moved s1)
       then player_place_wall s1 (mouse_pos fr) else s1)
  else if mouse_clicked
            && (replay_hover (mouse_pos fr) || mode_hover (mouse_pos fr)
                || home_hover (mouse_pos fr))
  then reset_game else s1.

(** ** Runs of the game

    A pass of the loop with a left click in the middle of cell [c], a pass
    with one key, and the state of [main] after a list of passes of a
    Player-vs-AI game. *)
Definition click_frame (c : Pos) : Frame :=
  mkFrame [MOUSEBUTTONDOWN 1] (TILE_SIZE * c.2 + 27, TILE_SIZE * c.1 + 27) false.
Definition key_frame (key : Key) : Frame := mkFrame [KEYDOWN key] (0, 0) false.
Definition play (frames : list Frame) : World :=
  fold_left main_frame frames (main_init (mkFrame [] (0, 0) false)).

(** The window is not closed during the pass. *)
Definition no_quit (fr : Frame) : bool :=
  forallb (fun ev => match ev with QUIT => false | _ => true end) (events fr).

(** A game in which the player fences column 4 in front of the goal (walls
    on columns 3 and 5 of rows 6 to 9, and on (4, 5)), moves about until the
    program has placed nine walls, and then walks down column 4 to (9, 4),
    the cell in front of the goal. *)
Definition goal_wall_frames : list Frame :=
  (click_frame <$> [(9,3); (9,5); (8,3); (8,5); (7,3); (7,5); (6,3); (6,5); (4,5)])
  ++ (key_frame <$> [K_s; K_a; K_a; K_w; K_d; K_s; K_w; K_s; K_w; K_d; K_a; K_a; K_a;
                     K_a; K_s; K_s; K_d; K_s; K_s; K_d; K_d; K_d; K_s; K_s; K_s; K_s]).

(** A game in which the player walls row 6 off but for column 0 and walks
    round the wall while the program uses up its budget; it ends with the
    player on (9, 4) and the program's piece on (1, 4), each in front of its
    goal. *)
Definition win_frames : list Frame :=
  (click_frame <$> [(6,1); (6,2); (6,3); (6,4); (6,5); (6,6); (6,7); (6,8)])
  ++ (key_frame <$> [K_s; K_s; K_a; K_a; K_s; K_a; K_s; K_a; K_s; K_s; K_d; K_d; K_d;
                     K_d; K_s; K_s]).

(** A game in which the player walks along row 1 to column 0 and back to
    column 3, while the program's piece comes up column 4 to (2, 4). *)
Definition own_cell_frames : list Frame :=
  key_frame <$> [K_a; K_a; K_a; K_a; K_d; K_d; K_d].

(** Walls that close the corner (1, 0), (1, 1), (2, 0), (2, 1) of the board
    off: there are two ways of the same length from (1, 0) to (2, 1). *)
Definition pocket_walls : gset Pos := {[ (1, 2); (2, 2); (3, 0); (3, 1) ]}.

(** ** The state between two passes of the game loop *)

(** Side [b] (the player's side for [true], the program's for [false])
    stands on its goal. *)
Definition on_goal (s : GameState) (b : bool) : Prop := mover_pos s b = mover_goal s b.

#[export] Instance on_goal_dec (s : GameState) (b : bool) : Decision (on_goal s b) :=
  decide (mover_pos s b = mover_goal s b).

(** A side is on its goal, or on an interior cell that is not a wall, from
    which, as long as the game is on, [a_star] finds a path to its goal. *)
Definition side_ok (s : GameState) (b : bool) : Prop :=
  on_goal s b
  \/ (interior (mover_pos s b) /\ (mover_pos s b ∉ walls s)
      /\ (game_over s = false ->
          find_path (mover_pos s b) (mover_goal s b) (walls s) <> [])).

(** The game is over exactly when a side is on its goal, and both sides are
    well placed. *)
Definition sides_ok (s : GameState) : Prop :=
  (game_over s = true <-> on_goal s true \/ on_goal s false)
  /\ side_ok s true /\ side_ok s false.

Definition state_ok (s : GameState) : Prop :=
  player_moved s = false /\ sides_ok s.

(** There are no more walls than the two counters say. *)
Definition walls_counted (s : GameState) : Prop :=
  Z.of_nat (size (walls s)) <= player_walls_used s + ai_walls_used s.

(** The score counters add up. *)
Definition scores_ok (sc : Scores) : Prop :=
  0 <= player_wins sc /\ 0 <= ai_wins sc
  /\ games_played sc = player_wins sc + ai_wins sc.

(** ** Rendering and the window *)

(** The rectangle [draw_tile] fills for a cell (lines 127-129), as the
    tuple [(left, top, width, height)] it hands to [pygame.draw.rect]. *)
Definition draw_tile_rect (row col : Z) : Z * Z * Z * Z :=
  (col * TILE_SIZE, row * TILE_SIZE, TILE_SIZE, TILE_SIZE).

(** A point is inside a rectangle given as such a tuple. *)
Definition rect_collidepoint (r : Z * Z * Z * Z) (pos : Z * Z) : bool :=
  collidepoint r.1.1.1 r.1.1.2 r.1.2 r.2 pos.

Definition is_quit (ev : Event) : bool :=
  match ev with QUIT => true | _ => false end.

(** [event.type == pygame.MOUSEBUTTONDOWN and event.button == 1]. *)
Definition is_left_click (ev : Event) : bool :=
  match ev with MOUSEBUTTONDOWN button => bool_decide (button = 1) | _ => false end.

(** ** The start screen (lines 237-289) *)

(** The two buttons (lines 253-263). *)
Definition pvp_hover (pos : Z * Z) : bool :=
  collidepoint ((SCREEN_WIDTH - 200) / 2) (SCREEN_HEIGHT / 2) 200 50 pos.
Definition aiva_hover (pos : Z * Z) : bool :=
  collidepoint ((SCREEN_WIDTH - 200) / 2) (SCREEN_HEIGHT / 2 + 50 + 20) 200 50 pos.

(** How a pass of [while True:] ends: with [return], with [sys.exit()], or
    at the bottom of the loop body. *)
Inductive Started : Type :=
  | Returned (game_mode : Z)
  | Exited
  | Waiting.

(** One pass of the loop on what the window hands it.  A [QUIT] event
    leaves the program from inside the event loop, whatever comes after it;
    the click is looked at once the event loop is through. *)
Definition start_screen_pass (fr : Frame) : Started :=
  if existsb is_quit (events fr) then Exited
  else if existsb is_left_click (events fr) then
    if pvp_hover (mouse_pos fr) then Returned 0
    else if aiva_hover (mouse_pos fr) then Returned 1
    else Waiting
  else Waiting.

(** The loop of [show_start_screen] on the passes the window gives it;
    [Waiting] when they run out before the loop is left. *)
Fixpoint show_start_screen_loop (frames : list Frame) : Started :=
  match frames with
  | [] => Waiting
  | fr :: frames =>
      match start_screen_pass fr with
      | Waiting => show_start_screen_loop frames
      | ended => ended
      end
  end.

(** ** The message of the game-over screen *)

(** The message that names the side on its goal, in the wording of the
    mode, the player's side first. *)
Definition expected_message (game_mode : Z) (s : GameState) : string :=
  if decide (player_pos s = player_goal s) then
    if decide (game_mode = 0) then "You reached the AI's goal! You win!"%string
    else "Player AI reached the goal! Player AI wins!"%string
  else "AI reached the goal! AI wins!"%string.

Definition message_ok (w : World) : Prop :=
  game_over (game_state w) = true ->
  result_message (game_state w) = expected_message (game_mode w) (game_state w).

(** * Facts

    ** The heap invariant of [heapq] *)

Module heap_facts.
Section heap_facts.
Context {A : Type} `{!Inhabited A}.
Variable lt : A -> A -> bool.

#[local] Abbreviation le := (heap_order.le lt).
#[local] Abbreviation heap_ok := (heap_order.heap_ok lt).
#[local] Abbreviation holed := (heap_order.holed lt).
#[local] Abbreviation grands := (heap_order.grands lt).
#[local] Abbreviation below_children := (heap_order.below_children lt).
#[local] Abbreviation chosen_child := (heap_order.chosen_child lt).

Hypothesis lt_asym : forall a b, lt a b = true -> le a b.
Hypothesis le_trans : forall a b c, le a b -> le b c -> le a c.

#[local] Open Scope nat_scope.

Lemma le_refl a : le a a.
Proof.
  unfold heap_order.le. destruct (lt a a) eqn:E; [|done]. apply lt_asym in E as E'.
  unfold heap_order.le in E'. congruence.
Qed.

(** Index arithmetic of the implicit tree: the parent of [i] is
    [(i - 1) / 2], the children of [p] are [2 * p + 1] and [2 * p + 2]. *)
Lemma parent_spec i :
  0 < i -> i = 2 * ((i - 1) / 2) + 1 \/ i = 2 * ((i - 1) / 2) + 2.
Proof.
  intros Hi. pose proof (Nat.div_mod_eq (i - 1) 2) as E.
  pose proof (Nat.mod_upper_bound (i - 1) 2 ltac:(lia)). lia.
Qed.

Lemma parent_of_children p c :
  c = 2 * p + 1 \/ c = 2 * p + 2 -> (c - 1) / 2 = p.
Proof.
  intros [-> | ->].
  - replace (2 * p + 1 - 1) with (p * 2) by lia. apply Nat.div_mul. lia.
  - replace (2 * p + 2 - 1) with (1 + p * 2) by lia.
    rewrite Nat.div_add by lia. done.
Qed.

Ltac parent i :=
  let H := fresh "Hpar" in
  pose proof (parent_spec i) as H.

Lemma heap_ok_holed heap pos : heap_ok heap -> holed heap pos.
Proof. intros H i x p ? _ _. by apply H. Qed.

Lemma fill_ok heap pos v :
  pos < length heap ->
  holed heap pos -> below_children heap pos v ->
  (forall p, 0 < pos -> heap !! ((pos - 1) / 2) = Some p -> le p v) ->
  heap_ok (<[pos := v]> heap).
Proof.
  intros Hlen Hh Hb Hp i x p Hi Hx Hpx.
  parent i.
  destruct (decide (i = pos)) as [-> | Hne].
  - rewrite list_lookup_insert_eq in Hx by done. simplify_eq.
    rewrite list_lookup_insert_ne in Hpx by lia. by apply Hp.
  - rewrite list_lookup_insert_ne in Hx by done.
    destruct (decide ((i - 1) / 2 = pos)) as [E | Hne'].
    + rewrite E, list_lookup_insert_eq in Hpx by done. simplify_eq.
      by apply (Hb i).
    + rewrite list_lookup_insert_ne in Hpx by done. by apply (Hh i).
Qed.

Lemma siftdown_loop_ok n heap pos v :
  pos <= n -> pos < length heap ->
  holed heap pos -> grands heap pos -> below_children heap pos v ->
  heap_ok (heapq.siftdown_loop lt n heap 0 pos v).
Proof.
  revert heap pos. induction n as [|n IH]; intros heap pos Hn Hlen Hh Hg Hb.
  { cbn [heapq.siftdown_loop]. apply fill_ok; try done; intros; lia. }
  cbn [heapq.siftdown_loop]. destruct (decide (0 < pos)) as [Hpos|]; last first.
  { apply fill_ok; try done; intros; lia. }
  parent pos.
  destruct (lookup_lt_is_Some_2 heap ((pos - 1) / 2)) as [p Hp]; [lia|].
  rewrite (list_lookup_total_correct _ _ _ Hp).
  destruct (lt v p) eqn:Hlt; last first.
  { apply fill_ok; try done. intros p' _ Hp'. simplify_eq. done. }
  apply IH.
  - lia.
  - rewrite length_insert. lia.
  - intros i x q Hi Hne1 Hne2 Hx Hq.
    parent i.
    destruct (decide (i = pos)) as [-> | Hne]; [done|].
    rewrite list_lookup_insert_ne in Hx by done.
    destruct (decide ((i - 1) / 2 = pos)) as [E | Hne'].
    + rewrite E, list_lookup_insert_eq in Hq by done. simplify_eq.
      by apply (Hg i x q).
    + rewrite list_lookup_insert_ne in Hq by done. by apply (Hh i).
  - intros c x q Hpp Hc Hcp Hx Hq.
    parent ((pos - 1) / 2).
    rewrite list_lookup_insert_ne in Hq by lia.
    assert (le q p) as Hqp by (apply (Hh ((pos - 1) / 2)); (done || lia)).
    destruct (decide (c = pos)) as [-> | Hne].
    + rewrite list_lookup_insert_eq in Hx by done. by simplify_eq.
    + rewrite list_lookup_insert_ne in Hx by done.
      apply (le_trans _ p); [done|].
      apply (Hh c x p); [lia|done|lia|done|by rewrite Hcp].
  - intros c x Hc Hcp Hx.
    destruct (decide (c = pos)) as [-> | Hne].
    + rewrite list_lookup_insert_eq in Hx by done. simplify_eq. by apply lt_asym.
    + rewrite list_lookup_insert_ne in Hx by done.
      apply (le_trans _ p); [by apply lt_asym|].
      apply (Hh c x p); [lia|done|lia|done|by rewrite Hcp].
Qed.

Lemma siftdown_loop_perm n heap pos v :
  pos < length heap ->
  heapq.siftdown_loop lt n heap 0 pos v ≡ₚ <[pos := v]> heap.
Proof.
  revert heap pos. induction n as [|n IH]; intros heap pos Hlen; [done|].
  cbn [heapq.siftdown_loop]. destruct (decide (0 < pos)) as [Hpos|]; [|done].
  parent pos.
  destruct (lookup_lt_is_Some_2 heap ((pos - 1) / 2)) as [p Hp]; [lia|].
  rewrite (list_lookup_total_correct _ _ _ Hp).
  destruct (lt v p) eqn:Hlt; [|done].
  rewrite IH by (rewrite length_insert; lia).
  assert (<[pos := p]> heap = <[pos := p]> (<[pos := v]> heap)) as ->.
  { by rewrite list_insert_insert_eq. }
  apply Permutation_insert_swap.
  - by apply list_lookup_insert_eq.
  - rewrite list_lookup_insert_ne by lia. done.
Qed.

Lemma chosen_child_spec heap pos :
  2 * pos + 1 < length heap ->
  let c := chosen_child heap (length heap) pos in
  (c = 2 * pos + 1 \/ c = 2 * pos + 2) /\ c < length heap /\
  exists a, heap !! c = Some a /\
    forall i b, (i = 2 * pos + 1 \/ i = 2 * pos + 2) -> heap !! i = Some b -> le a b.
Proof.
  intros Hl. unfold heap_order.chosen_child.
  destruct (lookup_lt_is_Some_2 heap (2 * pos + 1)) as [a Ha]; [lia|].
  rewrite (list_lookup_total_correct _ _ _ Ha).
  case_bool_decide as Hr; cbn [andb].
  - destruct (lookup_lt_is_Some_2 heap (2 * pos + 1 + 1)) as [b Hb]; [lia|].
    rewrite (list_lookup_total_correct _ _ _ Hb).
    destruct (lt a b) eqn:Hab; cbn [negb].
    + split; [lia|]. split; [lia|]. exists a. split; [done|].
      intros i b' [-> | ->] Hi.
      * simplify_eq. apply le_refl.
      * replace (2 * pos + 2) with (2 * pos + 1 + 1) in Hi by lia.
        simplify_eq. by apply lt_asym.
    + split; [lia|]. split; [lia|]. exists b. split; [done|].
      intros i b' [-> | ->] Hi.
      * simplify_eq. done.
      * replace (2 * pos + 2) with (2 * pos + 1 + 1) in Hi by lia.
        simplify_eq. apply le_refl.
  - split; [lia|]. split; [lia|]. exists a. split; [done|].
    intros i b' [-> | ->] Hi.
    + simplify_eq. apply le_refl.
    + apply lookup_lt_Some in Hi. lia.
Qed.

Lemma siftup_loop_unfold n heap endpos pos :
  heapq.siftup_loop lt (S n) heap endpos pos =
  if decide (2 * pos + 1 < endpos) then
    let c := chosen_child heap endpos pos in
    heapq.siftup_loop lt n (<[pos := heap !!! c]> heap) endpos c
  else (heap, pos).
Proof. done. Qed.

Lemma siftup_loop_perm n heap endpos pos heap' pos' :
  endpos = length heap -> pos < endpos ->
  heapq.siftup_loop lt n heap endpos pos = (heap', pos') ->
  length heap' = endpos /\ pos' < endpos /\
  forall v, <[pos' := v]> heap' ≡ₚ <[pos := v]> heap.
Proof.
  revert heap pos. induction n as [|n IH]; intros heap pos -> Hpos Hrun.
  { cbn in Hrun. by simplify_eq. }
  rewrite siftup_loop_unfold in Hrun.
  destruct (decide (2 * pos + 1 < length heap)) as [Hl|]; [|by simplify_eq].
  destruct (chosen_child_spec heap pos Hl) as (Hc & Hclen & a & Ha & _).
  cbn zeta in Hrun. rewrite (list_lookup_total_correct _ _ _ Ha) in Hrun.
  apply IH in Hrun as (Hlen' & Hpos' & Hperm);
    [|by rewrite length_insert|done].
  split; [done|]. split; [done|]. intros v. rewrite Hperm.
  assert (<[pos := a]> heap = <[pos := a]> (<[pos := v]> heap)) as ->.
  { by rewrite list_insert_insert_eq. }
  apply Permutation_insert_swap.
  - by apply list_lookup_insert_eq.
  - rewrite list_lookup_insert_ne by lia. done.
Qed.

Lemma siftup_loop_ok n heap endpos pos heap' pos' :
  endpos = length heap -> endpos <= n + pos -> pos < endpos ->
  holed heap pos -> grands heap pos ->
  heapq.siftup_loop lt n heap endpos pos = (heap', pos') ->
  endpos <= 2 * pos' + 1 /\ holed heap' pos'.
Proof.
  revert heap pos. induction n as [|n IH]; intros heap pos -> Hn Hpos Hh Hg Hrun.
  { lia. }
  rewrite siftup_loop_unfold in Hrun.
  destruct (decide (2 * pos + 1 < length heap)) as [Hl|];
    [|simplify_eq; split; [lia|done]].
  destruct (chosen_child_spec heap pos Hl) as (Hc & Hclen & a & Ha & Hmin).
  cbn zeta in Hrun. rewrite (list_lookup_total_correct _ _ _ Ha) in Hrun.
  set (c := chosen_child heap (length heap) pos) in *.
  apply IH in Hrun; [done|by rewrite length_insert|lia|lia| |].
  - intros i x p Hi Hne1 Hne2 Hx Hp. parent i.
    destruct (decide (i = pos)) as [-> | Hne].
    + rewrite list_lookup_insert_eq in Hx by done. simplify_eq.
      rewrite list_lookup_insert_ne in Hp by lia.
      apply (Hg c x p); [lia|lia|by apply parent_of_children|done|done].
    + rewrite list_lookup_insert_ne in Hx by done.
      destruct (decide ((i - 1) / 2 = pos)) as [E | Hne'].
      * rewrite E, list_lookup_insert_eq in Hp by done. simplify_eq.
        apply (Hmin i); [lia|done].
      * rewrite list_lookup_insert_ne in Hp by done. by apply (Hh i).
  - intros d x p Hcpos Hd Hdc Hx Hp. parent d.
    rewrite (parent_of_children pos c Hc), list_lookup_insert_eq in Hp by done.
    rewrite list_lookup_insert_ne in Hx by lia. simplify_eq.
    apply (Hh d x p); [lia|lia|lia|done|by rewrite Hdc].
Qed.

Lemma siftup_ok heap :
  0 < length heap -> holed heap 0 -> heap_ok (heapq.siftup lt heap 0).
Proof.
  intros Hlen Hh. unfold heapq.siftup.
  destruct (heapq.siftup_loop lt (length heap) heap (length heap) 0)
    as [heap' pos'] eqn:Hrun.
  destruct (siftup_loop_perm _ _ _ _ _ _ eq_refl Hlen Hrun) as (Hlen' & Hpos' & _).
  destruct (siftup_loop_ok (length heap) heap (length heap) 0 heap' pos')
    as (Hleaf & Hh'); [done|lia|done|done|intros c x p ?; lia|done|].
  unfold heapq.siftdown.
  rewrite list_lookup_total_insert_eq by lia.
  assert (forall c (x : A), 0 < c -> (c - 1) / 2 = pos' ->
            <[pos' := heap !!! 0]> heap' !! c = Some x -> False) as Hnochild.
  { intros c x Hc Hcp Hx. apply lookup_lt_Some in Hx.
    rewrite length_insert in Hx. parent c. lia. }
  apply siftdown_loop_ok.
  - done.
  - rewrite length_insert. lia.
  - intros i x p Hi Hne1 Hne2 Hx Hp.
    rewrite list_lookup_insert_ne in Hx, Hp by done. by apply (Hh' i).
  - intros c x p _ Hc Hcp Hx _. by destruct (Hnochild c x).
  - intros c x Hc Hcp Hx. by destruct (Hnochild c x).
Qed.

Lemma siftup_perm heap :
  0 < length heap -> heapq.siftup lt heap 0 ≡ₚ heap.
Proof.
  intros Hlen. unfold heapq.siftup.
  destruct (heapq.siftup_loop lt (length heap) heap (length heap) 0)
    as [heap' pos'] eqn:Hrun.
  destruct (siftup_loop_perm _ _ _ _ _ _ eq_refl Hlen Hrun) as (Hlen' & Hpos' & Hperm).
  unfold heapq.siftdown.
  rewrite list_lookup_total_insert_eq by lia.
  rewrite siftdown_loop_perm by (rewrite length_insert; lia).
  rewrite list_insert_insert_eq, Hperm.
  rewrite list_insert_id; [done|]. by apply list_lookup_lookup_total_lt.
Qed.

(** *** [heappush] *)

Lemma heappush_perm heap item : heapq.heappush lt heap item ≡ₚ item :: heap.
Proof.
  unfold heapq.heappush, heapq.siftdown.
  rewrite length_app. cbn [length].
  replace (length heap + 1 - 1) with (length heap) by lia.
  rewrite siftdown_loop_perm by (rewrite length_app; cbn; lia).
  rewrite list_insert_id.
  - by rewrite Permutation_app_comm.
  - apply list_lookup_lookup_total_lt. rewrite length_app. cbn. lia.
Qed.

Lemma heappush_ok heap item : heap_ok heap -> heap_ok (heapq.heappush lt heap item).
Proof.
  intros Hok. unfold heapq.heappush, heapq.siftdown.
  rewrite length_app. cbn [length].
  replace (length heap + 1 - 1) with (length heap) by lia.
  assert (forall c (x : A), 0 < c -> (c - 1) / 2 = length heap ->
            (heap ++ [item]) !! c = Some x -> False) as Hnochild.
  { intros c x Hc Hcp Hx. apply lookup_lt_Some in Hx.
    rewrite length_app in Hx. cbn in Hx. parent c. lia. }
  apply siftdown_loop_ok.
  - done.
  - rewrite length_app. cbn. lia.
  - intros i x p Hi Hne1 Hne2 Hx Hp. parent i.
    assert (i < length heap).
    { apply lookup_lt_Some in Hx. rewrite length_app in Hx. cbn in Hx. lia. }
    rewrite lookup_app_l in Hx, Hp by lia. by apply (Hok i).
  - intros c x p _ Hc Hcp Hx _. by destruct (Hnochild c x).
  - intros c x Hc Hcp Hx. by destruct (Hnochild c x).
Qed.

(** *** [heappop] *)

Lemma heappop_None heap : heapq.heappop lt heap = None <-> heap = [].
Proof.
  unfold heapq.heappop. split.
  - destruct (last heap) eqn:E.
    + by destruct (take (length heap - 1) heap).
    + intros _. by apply last_None.
  - by intros ->.
Qed.

Lemma heappop_perm heap x heap' :
  heapq.heappop lt heap = Some (x, heap') -> heap ≡ₚ x :: heap'.
Proof.
  unfold heapq.heappop. destruct (last heap) as [lastelt|] eqn:E; [|done].
  apply last_Some in E as [body ->].
  rewrite length_app. cbn [length].
  replace (length body + 1 - 1) with (length body) by lia.
  rewrite take_app_length.
  destruct body as [|r body]; cbn; intros ?; simplify_eq; [done|].
  rewrite siftup_perm by (cbn; lia). cbn.
  by rewrite <- Permutation_cons_append.
Qed.

Lemma root_minimal heap r :
  heap_ok heap -> heap !! 0 = Some r -> forall i y, heap !! i = Some y -> le r y.
Proof.
  intros Hok Hr i. induction (lt_wf i) as [i _ IH]. intros y Hy.
  destruct (decide (i = 0)) as [-> | Hi].
  - simplify_eq. apply le_refl.
  - parent i.
    destruct (lookup_lt_is_Some_2 heap ((i - 1) / 2)) as [p Hp].
    { apply lookup_lt_Some in Hy. lia. }
    apply (le_trans _ p).
    + apply (IH ((i - 1) / 2)); [lia|done].
    + apply (Hok i); [lia|done|done].
Qed.

Lemma heappop_ok heap x heap' :
  heap_ok heap -> heapq.heappop lt heap = Some (x, heap') -> heap_ok heap'.
Proof.
  intros Hok. unfold heapq.heappop.
  destruct (last heap) as [lastelt|] eqn:E; [|done].
  apply last_Some in E as [body ->].
  rewrite length_app. cbn [length].
  replace (length body + 1 - 1) with (length body) by lia.
  rewrite take_app_length.
  destruct body as [|r body]; cbv beta iota zeta; intros ?; simplify_eq.
  { intros i ? ? ? Hi. by destruct i. }
  apply siftup_ok; [cbn; lia|].
  intros i y p Hi Hne1 Hne2 Hy Hp.
  assert (i < S (length body)).
  { apply lookup_lt_Some in Hy. by rewrite length_insert in Hy. }
  cbn [length] in *.
  rewrite list_lookup_insert_ne in Hy, Hp by done. parent i.
  apply (Hok i); [done| |].
  - rewrite lookup_app_l; [done|cbn [length]; lia].
  - rewrite lookup_app_l; [done|cbn [length]; lia].
Qed.

Lemma heappop_min heap x heap' :
  heap_ok heap -> heapq.heappop lt heap = Some (x, heap') ->
  forall y, y ∈ heap -> le x y.
Proof.
  intros Hok. unfold heapq.heappop.
  destruct (last heap) as [lastelt|] eqn:E; [|done].
  apply last_Some in E as [body ->].
  rewrite length_app. cbn [length].
  replace (length body + 1 - 1) with (length body) by lia.
  rewrite take_app_length.
  destruct body as [|r body]; cbn; intros ? y Hy; simplify_eq.
  { apply list_elem_of_singleton in Hy as ->. apply le_refl. }
  apply list_elem_of_lookup in Hy as [i Hi].
  apply (root_minimal _ x Hok eq_refl i). done.
Qed.

End heap_facts.
End heap_facts.

(** ** The board and the open set *)

Lemma in_bounds_board p : in_bounds p = true -> p ∈ board.
Proof.
  destruct p as [r c]. unfold in_bounds, board. cbn [fst snd].
  rewrite andb_true_iff, !bool_decide_eq_true. intros [Hr Hc].
  apply elem_of_list_to_set, list_elem_of_cprod. cbn [fst snd].
  rewrite !elem_of_seqZ. unfold TOTAL_ROWS, BOARD_ROWS, GOAL_ROWS, BOARD_COLS in *. lia.
Qed.

Lemma size_board : size board = 81%nat.
Proof. vm_compute. reflexivity. Qed.

Lemma size_universe goal_pos : (size (universe goal_pos) <= 82)%nat.
Proof.
  unfold universe. rewrite size_union_alt, size_board.
  pose proof (subseteq_size ({[goal_pos]} ∖ board) {[goal_pos]} ltac:(set_solver)) as H.
  rewrite size_singleton in H. lia.
Qed.

Lemma a_star_neighbor_successor current goal_pos walls visited open_set d :
  a_star_neighbor current goal_pos walls visited open_set d =
  match successor current goal_pos walls visited d with
  | Some e => heapq.heappush tuple_lt open_set e
  | None => open_set
  end.
Proof.
  unfold a_star_neighbor, successor. cbn [fst snd Node_init row col].
  set (q := (row current + d.1, col current + d.2)).
  destruct (decide (q = goal_pos)) as [Hq|Hq].
  - destruct (decide (q ∉ visited)); case_decide; naive_solver.
  - destruct (in_bounds q) eqn:Hb; cbn [negb].
    + destruct (decide (q ∈ walls)).
      * case_decide; naive_solver.
      * destruct (decide (q ∉ visited)); case_decide; naive_solver.
    + case_decide; naive_solver.
Qed.

(** ** The loop combinator *)

Section while_loop.
Context {S R : Type} (body : S -> S + R).

(** An invariant of the body holds of whatever the loop returns. *)
Lemma while_loop_invariant (P : S -> Prop) (Q : R -> Prop) :
  (forall s s', P s -> body s = inl s' -> P s') ->
  (forall s r, P s -> body s = inr r -> Q r) ->
  forall n s, P s ->
    match while_loop n body s with inl s' => P s' | inr r => Q r end.
Proof.
  intros Hstep Hret. induction n as [|n IH]; intros s Hs; cbn [while_loop].
  - destruct (body s) eqn:E; eauto.
  - pose proof (IH s Hs) as IH1. destruct (while_loop n body s) as [s1|r]; [|done].
    by apply IH.
Qed.

(** A loop whose body decreases a non-negative measure returns before
    the measure is used up. *)
Lemma while_loop_measure (P : S -> Prop) (mu : S -> Z) :
  (forall s s', P s -> body s = inl s' -> P s' /\ mu s' < mu s) ->
  forall n s, P s ->
    match while_loop n body s with
    | inl s' => P s' /\ mu s' + 2 ^ Z.of_nat n <= mu s
    | inr _ => True
    end.
Proof.
  intros Hstep. induction n as [|n IH]; intros s Hs; cbn [while_loop].
  - destruct (body s) as [s'|] eqn:E; [|done].
    destruct (Hstep s s' Hs E). split; [done|]. change (2 ^ Z.of_nat 0) with 1. lia.
  - pose proof (IH s Hs) as IH1. destruct (while_loop n body s) as [s1|r]; [|done].
    destruct IH1 as [Hs1 Hmu1]. pose proof (IH s1 Hs1) as IH2.
    destruct (while_loop n body s1) as [s2|r]; [|done].
    destruct IH2 as [Hs2 Hmu2]. split; [done|].
    rewrite Nat2Z.inj_succ, Z.pow_succ_r by lia. lia.
Qed.

Lemma while_loop_returns (P : S -> Prop) (mu : S -> Z) n s :
  (forall s s', P s -> body s = inl s' -> P s' /\ mu s' < mu s) ->
  (forall s, P s -> 0 <= mu s) ->
  P s -> mu s < 2 ^ Z.of_nat n ->
  exists r, while_loop n body s = inr r.
Proof.
  intros Hstep Hpos Hs Hlt.
  pose proof (while_loop_measure P mu Hstep n s Hs) as H.
  destruct (while_loop n body s) as [s'|r]; [|by eexists].
  destruct H as [Hs' Hmu]. specialize (Hpos s' Hs'). lia.
Qed.
End while_loop.

(** ** The order of the open set *)

Lemma tuple_lt_spec a b :
  tuple_lt a b = true <-> a.1 < b.1 \/ (a.1 = b.1 /\ f a.2 < f b.2).
Proof.
  unfold tuple_lt, Node_lt. case_decide; rewrite bool_decide_eq_true; lia.
Qed.

Lemma tuple_le_spec a b :
  tuple_le a b <-> a.1 < b.1 \/ (a.1 = b.1 /\ f a.2 <= f b.2).
Proof.
  unfold heap_order.le. rewrite <- not_true_iff_false, tuple_lt_spec. lia.
Qed.

Lemma tuple_lt_asym a b : tuple_lt a b = true -> tuple_le a b.
Proof. rewrite tuple_lt_spec, tuple_le_spec. lia. Qed.

Lemma tuple_le_trans a b c : tuple_le a b -> tuple_le b c -> tuple_le a c.
Proof. rewrite !tuple_le_spec. lia. Qed.

Lemma tuple_le_priority a b : tuple_le a b -> a.1 <= b.1.
Proof. rewrite tuple_le_spec. lia. Qed.

Lemma open_pop_perm open_set e open_set' :
  heapq.heappop tuple_lt open_set = Some (e, open_set') -> open_set ≡ₚ e :: open_set'.
Proof. apply heap_facts.heappop_perm, tuple_lt_asym. Qed.

Lemma open_pop_ok open_set e open_set' :
  heap_ok open_set -> heapq.heappop tuple_lt open_set = Some (e, open_set') ->
  heap_ok open_set' /\ forall e', e' ∈ open_set -> e.1 <= e'.1.
Proof.
  intros Hok Hpop. split.
  - eapply heap_facts.heappop_ok; eauto using tuple_lt_asym, tuple_le_trans.
  - intros e' He'. apply tuple_le_priority.
    eapply heap_facts.heappop_min; eauto using tuple_lt_asym, tuple_le_trans.
Qed.

Lemma open_push_perm open_set e : heapq.heappush tuple_lt open_set e ≡ₚ e :: open_set.
Proof. apply heap_facts.heappush_perm. Qed.

Lemma open_push_ok open_set e : heap_ok open_set -> heap_ok (heapq.heappush tuple_lt open_set e).
Proof. apply heap_facts.heappush_ok; eauto using tuple_lt_asym, tuple_le_trans. Qed.

(** ** One pass of the main loop *)

Lemma expand_perm current goal_pos walls visited open_set :
  expand current goal_pos walls visited open_set
  ≡ₚ omap (successor current goal_pos walls visited) directions ++ open_set.
Proof.
  unfold expand. generalize directions as ds. intros ds. revert open_set.
  induction ds as [|d ds IH]; intros open_set; [by cbn|].
  cbn [fold_left]. rewrite IH, a_star_neighbor_successor.
  change (omap ?s (d :: ds)) with (from_option (.:: omap s ds) (omap s ds) (s d)).
  destruct (successor current goal_pos walls visited d) as [e|]; cbn [from_option]; [|done].
  by rewrite open_push_perm, <- Permutation_middle.
Qed.

Lemma expand_ok current goal_pos walls visited open_set :
  heap_ok open_set -> heap_ok (expand current goal_pos walls visited open_set).
Proof.
  unfold expand. generalize directions as ds. intros ds. revert open_set.
  induction ds as [|d ds IH]; intros open_set Hok; [done|].
  cbn [fold_left]. apply IH. rewrite a_star_neighbor_successor.
  destruct (successor current goal_pos walls visited d); [|done].
  by apply open_push_ok.
Qed.

Lemma a_star_step_inl goal_pos walls open_set visited st' :
  a_star_step goal_pos walls (open_set, visited) = inl st' ->
  exists prio current open_set',
    heapq.heappop tuple_lt open_set = Some ((prio, current), open_set')
    /\ cell current <> goal_pos
    /\ st' = (expand current goal_pos walls (visited ∪ {[ cell current ]}) open_set',
              visited ∪ {[ cell current ]}).
Proof.
  unfold a_star_step.
  destruct (heapq.heappop tuple_lt open_set) as [[[prio current] open_set']|]; [|done].
  case_decide; [done|]. intros [= <-]. by exists prio, current, open_set'.
Qed.

Lemma a_star_step_inr goal_pos walls open_set visited path :
  a_star_step goal_pos walls (open_set, visited) = inr path ->
  (open_set = [] /\ path = [])
  \/ exists prio current open_set',
       heapq.heappop tuple_lt open_set = Some ((prio, current), open_set')
       /\ cell current = goal_pos /\ path = reverse (path_back current).
Proof.
  unfold a_star_step.
  destruct (heapq.heappop tuple_lt open_set) as [[[prio current] open_set']|] eqn:E.
  - case_decide; [|done]. intros [= <-]. right. by exists prio, current, open_set'.
  - intros [= <-]. left. split; [|done]. by apply (heap_facts.heappop_None tuple_lt).
Qed.

(** ** Termination of the search *)

Lemma weight_pos goal_pos visited e : 0 < weight goal_pos visited e.
Proof. unfold weight. apply Z.pow_pos_nonneg; lia. Qed.

Lemma weight_mono goal_pos visited visited' e :
  visited ⊆ visited' -> weight goal_pos visited' e <= weight goal_pos visited e.
Proof.
  intros Hsub. unfold weight. apply Z.pow_le_mono_r; [lia|].
  apply inj_le, subseteq_size. set_solver.
Qed.

Lemma potential_nonneg goal_pos st : 0 <= potential goal_pos st.
Proof.
  destruct st as [open_set visited]. unfold potential. cbn [fst snd].
  induction open_set as [|e l IH]; cbn [foldr]; [lia|].
  pose proof (weight_pos goal_pos visited e). lia.
Qed.

Lemma potential_perm goal_pos l l' visited :
  l ≡ₚ l' -> potential goal_pos (l, visited) = potential goal_pos (l', visited).
Proof.
  unfold potential. cbn [fst snd].
  induction 1; cbn [foldr]; lia.
Qed.

Lemma potential_app goal_pos l l' visited :
  potential goal_pos (l ++ l', visited)
  = potential goal_pos (l, visited) + potential goal_pos (l', visited).
Proof.
  unfold potential. cbn [fst snd]. induction l as [|e l IH]; cbn [foldr app]; lia.
Qed.

Lemma potential_mono goal_pos l visited visited' :
  visited ⊆ visited' ->
  potential goal_pos (l, visited') <= potential goal_pos (l, visited).
Proof.
  intros Hsub. unfold potential. cbn [fst snd].
  induction l as [|e l IH]; cbn [foldr]; [lia|].
  pose proof (weight_mono goal_pos visited visited' e Hsub). lia.
Qed.

Lemma successor_cell current goal_pos walls visited d e :
  successor current goal_pos walls visited d = Some e ->
  cell e.2 = (row current + d.1, col current + d.2)
  /\ (cell e.2 ∉ visited)
  /\ (cell e.2 = goal_pos \/ (in_bounds (cell e.2) = true /\ (cell e.2 ∉ walls)))
  /\ e.2 = with_costs (Node_init (row current + d.1) (col current + d.2) (Some current))
                      current goal_pos
  /\ e.1 = f e.2.
Proof.
  unfold successor. case_decide as H; [|done]. intros [= <-].
  destruct H as [H1 H2]. by repeat split.
Qed.

Lemma successor_weight current goal_pos walls visited d e :
  successor current goal_pos walls visited d = Some e ->
  5 * weight goal_pos visited e
  = 5 ^ Z.of_nat (size (universe goal_pos ∖ visited)).
Proof.
  intros (_ & Hv & Hfree & _)%successor_cell. unfold weight.
  assert (cell e.2 ∈ universe goal_pos) as Hu.
  { unfold universe. destruct Hfree as [->|[Hb _]]; [set_solver|].
    apply in_bounds_board in Hb. set_solver. }
  set (X := universe goal_pos ∖ (visited ∪ {[ cell e.2 ]})).
  assert (size (universe goal_pos ∖ visited) = Datatypes.S (size X)) as ->.
  { assert (universe goal_pos ∖ visited = {[ cell e.2 ]} ∪ X) as ->.
    { apply set_eq. intros x. destruct (decide (x = cell e.2)); set_solver. }
    rewrite size_union by set_solver. by rewrite size_singleton. }
  rewrite Nat2Z.inj_succ, Z.pow_succ_r by lia. done.
Qed.

Lemma potential_successors current goal_pos walls visited ds :
  5 * potential goal_pos (omap (successor current goal_pos walls visited) ds, visited)
  <= Z.of_nat (length ds) * 5 ^ Z.of_nat (size (universe goal_pos ∖ visited)).
Proof.
  induction ds as [|d ds IH]; [unfold potential; cbn; lia|].
  cbn [length]. rewrite Nat2Z.inj_succ, Z.mul_succ_l.
  change (omap ?s (d :: ds)) with (from_option (.:: omap s ds) (omap s ds) (s d)).
  assert (0 <= 5 ^ Z.of_nat (size (universe goal_pos ∖ visited))) by (apply Z.pow_nonneg; lia).
  destruct (successor current goal_pos walls visited d) as [e|] eqn:E; cbn [from_option].
  - apply successor_weight in E.
    change (potential goal_pos (e :: ?l, visited))
      with (weight goal_pos visited e + potential goal_pos (l, visited)).
    lia.
  - lia.
Qed.

Lemma a_star_step_decreases goal_pos walls st st' :
  a_star_step goal_pos walls st = inl st' ->
  potential goal_pos st' < potential goal_pos st.
Proof.
  destruct st as [open_set visited].
  intros (prio & current & open_set' & Hpop & _ & ->)%a_star_step_inl.
  rewrite (potential_perm _ _ _ _ (open_pop_perm _ _ _ Hpop)).
  rewrite (potential_perm _ _ _ _ (expand_perm _ _ _ _ _)), potential_app.
  set (visited' := visited ∪ {[cell current]}).
  pose proof (potential_successors current goal_pos walls visited' directions) as H1.
  pose proof (potential_mono goal_pos open_set' visited visited' ltac:(set_solver)) as H2.
  change (potential goal_pos ((prio, current) :: open_set', visited))
    with (weight goal_pos visited (prio, current) + potential goal_pos (open_set', visited)).
  assert (weight goal_pos visited (prio, current)
          = 5 ^ Z.of_nat (size (universe goal_pos ∖ visited'))) as -> by done.
  assert (0 < 5 ^ Z.of_nat (size (universe goal_pos ∖ visited')))
    by (apply Z.pow_pos_nonneg; lia).
  change (Z.of_nat (length directions)) with 4 in H1. lia.
Qed.

Lemma a_star_initial_potential start_node goal_pos :
  potential goal_pos ([(0, start_node)], ∅) < 2 ^ Z.of_nat a_star_bound.
Proof.
  unfold potential, weight. cbn [foldr fst snd].
  set (k := size _).
  assert (k <= 82)%nat as Hk.
  { etrans; [|apply (size_universe goal_pos)]. apply subseteq_size. set_solver. }
  assert (5 ^ Z.of_nat k <= 5 ^ 82) by (apply Z.pow_le_mono_r; lia).
  assert (5 ^ 82 < 2 ^ Z.of_nat a_star_bound) by (vm_compute; reflexivity).
  lia.
Qed.

(** The main loop of [a_star] always returns within its bound. *)
Lemma a_star_terminates start_node goal_pos walls :
  exists path,
    while_loop a_star_bound (a_star_step goal_pos walls) ([(0, start_node)], ∅)
    = inr path.
Proof.
  apply (while_loop_returns _ (fun _ => True) (potential goal_pos)).
  - intros s s' _ Hstep. split; [done|]. by eapply a_star_step_decreases.
  - intros s _. apply potential_nonneg.
  - done.
  - apply a_star_initial_potential.
Qed.

(** ** Routes on the board *)

Lemma Node_ind (P : Node -> Prop) :
  (forall r c g0 h0 f0, P (mkNode r c None g0 h0 f0)) ->
  (forall r c p g0 h0 f0, P p -> P (mkNode r c (Some p) g0 h0 f0)) ->
  forall n, P n.
Proof.
  intros Hroot Hchild. fix IH 1. intros [r c [p|] g0 h0 f0].
  - apply Hchild, IH.
  - apply Hroot.
Qed.

(** *** Steps and directions *)

Lemma unit_step_directions p q :
  unit_step p q <-> exists d, d ∈ directions /\ q = (p.1 + d.1, p.2 + d.2).
Proof.
  destruct p as [pr pc], q as [qr qc]. unfold unit_step, directions. cbn [fst snd].
  split.
  - intros H.
    assert ((qr - pr = 1 /\ qc - pc = 0) \/ (qr - pr = -1 /\ qc - pc = 0)
            \/ (qr - pr = 0 /\ qc - pc = 1) \/ (qr - pr = 0 /\ qc - pc = -1))
      as [[]|[[]|[[]|[]]]] by lia.
    + exists (1, 0). split; [set_solver|]. cbn. f_equal; lia.
    + exists (-1, 0). split; [set_solver|]. cbn. f_equal; lia.
    + exists (0, 1). split; [set_solver|]. cbn. f_equal; lia.
    + exists (0, -1). split; [set_solver|]. cbn. f_equal; lia.
  - intros (d & Hd & [= -> ->]).
    repeat (apply elem_of_cons in Hd as [-> | Hd]); cbn [fst snd]; try lia.
    by apply elem_of_nil in Hd.
Qed.

Lemma manhattan_step p q goal_pos :
  unit_step p q -> manhattan p goal_pos <= 1 + manhattan q goal_pos.
Proof. unfold unit_step, manhattan. lia. Qed.

Lemma manhattan_nonneg p q : 0 <= manhattan p q.
Proof. unfold manhattan. lia. Qed.

Lemma heuristic_manhattan n goal_pos : heuristic n goal_pos = manhattan (cell n) goal_pos.
Proof. done. Qed.

Lemma in_bounds_interior p : in_bounds p = true <-> interior p.
Proof.
  unfold in_bounds, interior, TOTAL_ROWS, BOARD_ROWS, GOAL_ROWS, BOARD_COLS.
  rewrite andb_true_iff, !bool_decide_eq_true. lia.
Qed.

(** *** Walks *)

Lemma last_cell_nil p : last_cell p [] = p.
Proof. done. Qed.

Lemma last_cell_cons p q l : last_cell p (q :: l) = last_cell q l.
Proof. unfold last_cell. rewrite last_cons. by destruct (last l). Qed.

Lemma last_cell_snoc p l t : last_cell p (l ++ [t]) = t.
Proof. unfold last_cell. by rewrite last_snoc. Qed.

Lemma walk_app walls goal_pos p l1 l2 :
  walk walls goal_pos p (l1 ++ l2)
  <-> walk walls goal_pos p l1 /\ walk walls goal_pos (last_cell p l1) l2.
Proof.
  revert p. induction l1 as [|q l1 IH]; intros p; cbn [app walk].
  - rewrite last_cell_nil. naive_solver.
  - rewrite last_cell_cons, IH. naive_solver.
Qed.

Lemma walk_manhattan walls goal_pos p l :
  walk walls goal_pos p l ->
  manhattan p goal_pos <= Z.of_nat (length l) + manhattan (last_cell p l) goal_pos.
Proof.
  revert p. induction l as [|q l IH]; intros p; cbn [walk length].
  - rewrite last_cell_nil. lia.
  - intros (Hs & _ & Hw). rewrite last_cell_cons.
    pose proof (manhattan_step p q goal_pos Hs). specialize (IH q Hw). lia.
Qed.

(** The first cell of a walk that is not in [visited]. *)
Lemma first_unvisited (visited : gset Pos) p l :
  p ∈ visited -> (last_cell p l ∉ visited) ->
  exists l1 t l2, l = l1 ++ t :: l2 /\ (t ∉ visited) /\ (last_cell p l1 ∈ visited).
Proof.
  revert p. induction l as [|q l IH]; intros p Hp Hl.
  - by rewrite last_cell_nil in Hl.
  - rewrite last_cell_cons in Hl. destruct (decide (q ∈ visited)) as [Hq|Hq].
    + destruct (IH q Hq Hl) as (l1 & t & l2 & -> & Ht & Hl1).
      exists (q :: l1), t, l2. by rewrite last_cell_cons.
    + by exists [], q, l.
Qed.

Lemma route_walk walls goal_pos p l :
  route walls goal_pos p l ->
  walk walls goal_pos p l /\ last_cell p l = goal_pos /\ l <> [].
Proof.
  revert p. induction l as [|q l IH]; intros p; cbn [route walk]; [done|].
  intros [Hs H]. rewrite last_cell_cons. destruct l as [|q' l].
  - subst q. repeat split; try done. by left.
  - destruct H as (Hi & Hw & Hr). destruct (IH q Hr) as (Hwk & Hl & _).
    split; [|done]. split; [done|]. split; [|done].
    right. by rewrite in_bounds_interior.
Qed.

Lemma walk_route walls goal_pos p l :
  walk walls goal_pos p (l ++ [goal_pos]) -> Forall (.≠ goal_pos) l ->
  route walls goal_pos p (l ++ [goal_pos]).
Proof.
  revert p. induction l as [|q l IH]; intros p; cbn [app walk route].
  - naive_solver.
  - intros (Hs & He & Hw) [Hq Hl]%Forall_cons. split; [done|].
    destruct (l ++ [goal_pos]) as [|q' l'] eqn:E; [by destruct l|].
    destruct He as [|[Hb Hwall]]; [done|].
    split; [by apply in_bounds_interior|]. split; [done|]. by apply IH.
Qed.

Lemma last_cell_app p l1 q l2 : last_cell p (l1 ++ q :: l2) = last_cell q l2.
Proof.
  revert p. induction l1 as [|x l1 IH]; intros p; cbn [app].
  - apply last_cell_cons.
  - by rewrite last_cell_cons.
Qed.

(** *** Nodes *)

Lemma wf_node_costs walls start goal_pos n :
  wf_node walls start goal_pos n ->
  f n <= g n + manhattan (cell n) goal_pos
  /\ (g n = 0 \/ g n + manhattan (cell n) goal_pos <= f n).
Proof.
  destruct n as [r c [p|] g0 h0 f0]; unfold cell at 1 2; cbn [wf_node f g row col].
  - intros (_ & _ & _ & _ & _ & -> & ->). lia.
  - intros (_ & -> & ->). pose proof (manhattan_nonneg (r, c) goal_pos). lia.
Qed.

Lemma wf_node_root walls start goal_pos n :
  wf_node walls start goal_pos n ->
  (parent n = None /\ cell n = start /\ g n = 0 /\ rev_path n = [])
  \/ (parent n <> None /\ cell n <> start /\ rev_path n <> []).
Proof.
  destruct n as [r c [p|] g0 h0 f0]; unfold cell at 1 2; cbn [wf_node parent g row col].
  - intros (_ & _ & Hs & _). right. repeat split; [done|done|].
    unfold rev_path. cbn [path_back]. rewrite reverse_cons. by destruct (reverse _).
  - intros (Hs & -> & _). by left.
Qed.

Lemma wf_node_path walls start goal_pos n :
  wf_node walls start goal_pos n ->
  walk walls goal_pos start (rev_path n)
  /\ last_cell start (rev_path n) = cell n
  /\ Z.of_nat (length (rev_path n)) = g n
  /\ (start ∉ rev_path n)
  /\ (cell n <> goal_pos -> Forall (.≠ goal_pos) (rev_path n)).
Proof.
  induction n as [r c g0 h0 f0|r c p g0 h0 f0 IH] using Node_ind;
    cbn [wf_node]; unfold rev_path; cbn [path_back cell row col g].
  - intros (<- & -> & _). rewrite reverse_nil. repeat split; try done.
    apply not_elem_of_nil.
  - intros (Hp & Hpg & Hs & Hstep & Hent & -> & _).
    destruct (IH Hp) as (Hw & Hl & Hlen & Hns & Hng). fold (rev_path p) in *.
    rewrite reverse_cons. fold (rev_path p). repeat split.
    + apply walk_app. split; [done|]. rewrite Hl. by cbn.
    + apply last_cell_snoc.
    + rewrite length_app. cbn [length]. lia.
    + rewrite elem_of_app, list_elem_of_singleton. naive_solver.
    + intros Hc. apply Forall_app. split; [by apply Hng|]. by apply Forall_singleton.
Qed.

(** *** The invariant *)

Lemma heap_ok_singleton e : heap_ok [e].
Proof.
  intros i x p Hi Hx. apply lookup_lt_Some in Hx. cbn in Hx. lia.
Qed.

Lemma search_inv_init walls start goal_pos :
  search_inv walls start goal_pos ([(0, root start)], ∅).
Proof.
  unfold search_inv. cbn [fst snd]. split; [apply heap_ok_singleton|].
  split.
  { intros e ->%list_elem_of_singleton. cbn. by destruct start. }
  split; [by left|]. split; [set_solver|]. set_solver.
Qed.

Lemma pop_initial start e open_set' :
  heapq.heappop tuple_lt [(0, root start)] = Some (e, open_set') ->
  e = (0, root start) /\ open_set' = [].
Proof. cbn. by intros [= <- <-]. Qed.

(** The first entry popped for a cell carries the cost of a shortest walk. *)
Lemma pop_optimal walls start goal_pos open_set visited prio current open_set' :
  search_inv walls start goal_pos (open_set, visited) ->
  heapq.heappop tuple_lt open_set = Some ((prio, current), open_set') ->
  cell current ∉ visited ->
  forall l, walk walls goal_pos start l -> last_cell start l = cell current ->
    g current <= Z.of_nat (length l).
Proof.
  intros (Hok & Hwf & Hinit & Hgoal & Hfront) Hpop Hc l Hw Hl. cbn [fst snd] in *.
  destruct Hinit as [[-> ->] | Hs].
  { apply pop_initial in Hpop as [[= -> ->] _]. cbn. lia. }
  pose proof (open_pop_perm _ _ _ Hpop) as Hperm.
  destruct (open_pop_ok _ _ _ Hok Hpop) as [_ Hmin].
  assert ((prio, current) ∈ open_set) as Hin by (rewrite Hperm; left).
  destruct (Hwf _ Hin) as [Hwfc Hprio]. cbn [fst snd] in *.
  destruct (wf_node_costs _ _ _ _ Hwfc) as [_ Hfc].
  destruct (first_unvisited visited start l Hs) as (l1 & t & l2 & -> & Ht & Hl1).
  { by rewrite Hl. }
  rewrite last_cell_app in Hl.
  rewrite cons_middle, app_assoc in Hw. apply walk_app in Hw as [Hw1 Hw2].
  rewrite last_cell_snoc in Hw2.
  destruct (Hfront l1 t Hw1 Ht Hl1) as (e & He & Hce & Hge).
  specialize (Hmin e He). destruct (Hwf e He) as [Hwfe Hpe].
  destruct (wf_node_costs _ _ _ _ Hwfe) as [Hfe _].
  pose proof (walk_manhattan _ _ _ _ Hw2) as Hm. rewrite Hl in Hm.
  rewrite Hce in Hfe. cbn [fst] in Hmin.
  rewrite cons_middle, app_assoc, length_app.
  pose proof (manhattan_nonneg (cell current) goal_pos). lia.
Qed.

Lemma search_inv_step walls start goal_pos st st' :
  search_inv walls start goal_pos st ->
  a_star_step goal_pos walls st = inl st' ->
  search_inv walls start goal_pos st'.
Proof.
  destruct st as [open_set visited]. intros Hinv Hstep.
  apply a_star_step_inl in Hstep as (prio & current & open_set' & Hpop & Hcg & ->).
  pose proof (pop_optimal _ _ _ _ _ _ _ _ Hinv Hpop) as Hopt.
  destruct Hinv as (Hok & Hwf & Hinit & Hgoal & Hfront). cbn [fst snd] in *.
  pose proof (open_pop_perm _ _ _ Hpop) as Hperm.
  destruct (open_pop_ok _ _ _ Hok Hpop) as [Hok' _].
  assert ((prio, current) ∈ open_set) as Hin by (rewrite Hperm; left).
  destruct (Hwf _ Hin) as [Hwfc _]. cbn [fst snd] in Hwfc.
  set (visited' := visited ∪ {[cell current]}).
  assert (start ∈ visited') as Hstart.
  { destruct Hinit as [[-> ->] | Hs]; [|set_solver].
    apply pop_initial in Hpop as [[= -> ->] _]. destruct start. set_solver. }
  unfold search_inv. cbn [fst snd].
  split; [by apply expand_ok|]. split; [|split; [by right|split; [set_solver|]]].
  - intros e. rewrite expand_perm, elem_of_app. intros [He|He].
    + apply list_elem_of_omap in He as (d & Hd & Hsucc).
      apply successor_cell in Hsucc as (Hcell & Hv & Hfree & Hnode & Hprio).
      split; [|done]. rewrite Hnode. cbn [wf_node with_costs Node_init row col parent].
      split; [done|]. split; [done|]. split.
      { intros E. apply Hv. by rewrite Hcell, E. }
      split. { apply unit_step_directions. by exists d. }
      split. { by rewrite <- Hcell. }
      split; [done|]. by rewrite heuristic_manhattan.
    + apply Hwf. rewrite Hperm. by right.
  - intros l t Hw Ht Hl.
    destruct (decide (last_cell start l ∈ visited)) as [Hlv|Hlv].
    + destruct (Hfront l t Hw ltac:(set_solver) Hlv) as (e & He & Hce & Hge).
      exists e. split; [|done]. rewrite expand_perm, elem_of_app. right.
      rewrite Hperm in He. apply elem_of_cons in He as [-> | He]; [|done].
      cbn [snd] in Hce. set_solver.
    + assert (last_cell start l = cell current) as Hlc by set_solver.
      apply walk_app in Hw as [Hw1 Hw2]. rewrite Hlc in Hw2.
      destruct Hw2 as (Hstep & Hent & _).
      apply unit_step_directions in Hstep as (d & Hd & Ht').
      assert (g current <= Z.of_nat (length l)) as Hg.
      { apply Hopt; [by rewrite <- Hlc|done|done]. }
      destruct (successor current goal_pos walls visited' d) as [e|] eqn:Hsucc.
      * exists e. split.
        { rewrite expand_perm, elem_of_app. left.
          apply list_elem_of_omap. by exists d. }
        apply successor_cell in Hsucc as (Hcell & _ & _ & Hnode & _).
        split; [by rewrite Hcell, Ht'|].
        rewrite Hnode, length_app. cbn [with_costs g length]. lia.
      * exfalso. unfold successor in Hsucc. case_decide as Hn; [done|].
        apply Hn. cbn [cell fst snd] in Ht'. rewrite <- Ht'. done.
Qed.

Lemma wf_node_route walls start goal_pos n :
  wf_node walls start goal_pos n -> cell n = goal_pos -> start <> goal_pos ->
  route walls goal_pos start (rev_path n).
Proof.
  intros Hwf Hc Hne.
  destruct n as [r c [p|] g0 h0 f0]; cbn [wf_node] in Hwf; unfold cell in Hc;
    cbn [row col] in Hc.
  - subst goal_pos. destruct Hwf as (Hp & Hpg & _ & Hstep & Hent & _).
    unfold rev_path. cbn [path_back]. rewrite reverse_cons. fold (rev_path p).
    destruct (wf_node_path _ _ _ _ Hp) as (Hw & Hl & _ & _ & Hng).
    apply walk_route; [|by apply Hng].
    apply walk_app. split; [done|]. rewrite Hl. by cbn.
  - destruct Hwf as (Hs & _). congruence.
Qed.

Lemma search_inv_result walls start goal_pos st path :
  start <> goal_pos ->
  search_inv walls start goal_pos st ->
  a_star_step goal_pos walls st = inr path ->
  search_result walls start goal_pos path.
Proof.
  destruct st as [open_set visited]. intros Hne Hinv Hstep.
  apply a_star_step_inr in Hstep
    as [[-> ->] | (prio & current & open_set' & Hpop & Hcg & ->)].
  - left. split; [done|]. intros l (Hw & Hl & _)%route_walk.
    destruct Hinv as (_ & _ & Hinit & Hgoal & Hfront). cbn [fst snd] in *.
    destruct Hinit as [[? _] | Hs]; [done|].
    destruct (first_unvisited visited start l Hs) as (l1 & t & l2 & -> & Ht & Hl1).
    { by rewrite Hl. }
    rewrite cons_middle, app_assoc in Hw. apply walk_app in Hw as [Hw1 _].
    destruct (Hfront l1 t Hw1 Ht Hl1) as (e & He & _). by apply elem_of_nil in He.
  - right.
    pose proof (pop_optimal _ _ _ _ _ _ _ _ Hinv Hpop) as Hopt.
    destruct Hinv as (_ & Hwf & _ & Hgoal & _). cbn [fst snd] in *.
    assert ((prio, current) ∈ open_set) as Hin.
    { rewrite (open_pop_perm _ _ _ Hpop). left. }
    destruct (Hwf _ Hin) as [Hwfc _]. cbn [snd] in Hwfc.
    destruct (wf_node_path _ _ _ _ Hwfc) as (_ & _ & Hlen & Hns & _).
    fold (rev_path current). split; [by apply wf_node_route|]. split; [done|].
    intros l (Hw & Hl & _)%route_walk.
    specialize (Hopt ltac:(by rewrite Hcg) l Hw ltac:(by rewrite Hcg)). lia.
Qed.

Lemma a_star_search_result walls start goal_pos :
  start <> goal_pos ->
  search_result walls start goal_pos (find_path start goal_pos walls).
Proof.
  intros Hne. unfold find_path, a_star. fold (root start).
  destruct (a_star_terminates (root start) goal_pos walls) as [path Hrun].
  pose proof (while_loop_invariant (a_star_step goal_pos walls)
                (search_inv walls start goal_pos)
                (search_result walls start goal_pos)
                (search_inv_step walls start goal_pos)
                (fun s r => search_inv_result walls start goal_pos s r Hne)
                a_star_bound _ (search_inv_init walls start goal_pos)) as H.
  by rewrite Hrun in H |- *.
Qed.

Lemma route_nonempty walls goal_pos p l : route walls goal_pos p l -> l <> [].
Proof. by destruct l. Qed.

(** ** The passes of the main loop *)

Section loop_state.
Context {S R : Type} (body : S -> S + R).

Lemma loop_state_add n m s :
  loop_state (n + m) body s = loop_state n body s ≫= loop_state m body.
Proof.
  revert s. induction n as [|n IH]; intros s; cbn [loop_state Nat.add]; [done|].
  destruct (body s); [apply IH|done].
Qed.

Lemma while_loop_inl n s s' :
  while_loop n body s = inl s' -> loop_state (2 ^ n) body s = Some s'.
Proof.
  revert s s'. induction n as [|n IH]; intros s s'; cbn [while_loop].
  - intros H. cbn. by rewrite H.
  - destruct (while_loop n body s) as [s1|] eqn:E1; [|done]. intros E2.
    replace (2 ^ Datatypes.S n)%nat with (2 ^ n + 2 ^ n)%nat by (cbn; lia).
    rewrite loop_state_add, (IH _ _ E1). cbn. by apply IH.
Qed.

(** A loop that returns went through the passes [0 .. k], the last of
    which returned. *)
Lemma while_loop_passes n s r :
  while_loop n body s = inr r ->
  exists k s', loop_state k body s = Some s' /\ body s' = inr r.
Proof.
  revert s. induction n as [|n IH]; intros s; cbn [while_loop].
  - intros H. by exists 0%nat, s.
  - destruct (while_loop n body s) as [s1|r1] eqn:E1.
    + intros (k & s' & Hk & Hr)%IH. exists (2 ^ n + k)%nat, s'.
      rewrite loop_state_add, (while_loop_inl _ _ _ E1). by cbn.
    + intros [= ->]. by apply IH.
Qed.

Lemma while_loop_returns_now n s r : body s = inr r -> while_loop n body s = inr r.
Proof.
  intros H. induction n as [|n IH]; cbn [while_loop]; [done|]. by rewrite IH.
Qed.

Lemma while_loop_ext (body' : S -> S + R) n s :
  (forall s, body s = body' s) -> while_loop n body s = while_loop n body' s.
Proof.
  intros H. revert s. induction n as [|n IH]; intros s; cbn [while_loop]; [done|].
  rewrite IH. destruct (while_loop n body' s); [apply IH|done].
Qed.
End loop_state.

(** [a_star] returns what the pass that ends its loop returns. *)
Lemma a_star_passes start goal_pos walls :
  exists k st,
    a_star_pass start goal_pos walls k = Some st
    /\ a_star_step goal_pos walls st = inr (find_path start goal_pos walls).
Proof.
  unfold find_path, a_star, a_star_pass. fold (root start).
  destruct (a_star_terminates (root start) goal_pos walls) as [path Hrun].
  rewrite Hrun. by apply while_loop_passes in Hrun.
Qed.

(** A pass pushes no entry for a visited cell. *)
Lemma a_star_step_pushes goal_pos walls st st' :
  a_star_step goal_pos walls st = inl st' ->
  exists e rest pushed,
    st.1 ≡ₚ e :: rest
    /\ st'.2 = st.2 ∪ {[ cell e.2 ]}
    /\ st'.1 ≡ₚ pushed ++ rest
    /\ forall e', e' ∈ pushed -> cell e'.2 ∉ st'.2.
Proof.
  destruct st as [open_set visited].
  intros (prio & current & open_set' & Hpop & _ & ->)%a_star_step_inl.
  exists (prio, current), open_set',
    (omap (successor current goal_pos walls (visited ∪ {[cell current]})) directions).
  cbn [fst snd]. split; [by apply open_pop_perm|]. split; [done|].
  split; [apply expand_perm|].
  intros e' (d & _ & Hsucc)%list_elem_of_omap.
  by apply successor_cell in Hsucc as (_ & Hv & _).
Qed.

(** With [start == goal] the first pass pops the root on the goal. *)
Lemma find_path_start_is_goal p walls : find_path p p walls = [].
Proof.
  unfold find_path, a_star. rewrite (while_loop_returns_now _ _ _ []); [done|].
  cbn. destruct p as [r c]. cbn. by rewrite decide_True.
Qed.

(** Whether the goal cell is a wall makes no difference to the search. *)
Lemma a_star_neighbor_goal_wall current goal_pos walls visited open_set d :
  a_star_neighbor current goal_pos (walls ∪ {[ goal_pos ]}) visited open_set d
  = a_star_neighbor current goal_pos walls visited open_set d.
Proof.
  unfold a_star_neighbor. case_decide as Hg; [done|].
  destruct (negb _); [done|].
  destruct (decide (_ ∈ walls ∪ _)) as [H|H], (decide (_ ∈ walls)) as [H'|H'];
    try done; set_solver.
Qed.

Lemma a_star_step_goal_wall goal_pos walls st :
  a_star_step goal_pos (walls ∪ {[ goal_pos ]}) st = a_star_step goal_pos walls st.
Proof.
  unfold a_star_step. destruct st as [open_set visited].
  destruct (heapq.heappop _ _) as [[[prio current] open_set']|]; [|done].
  case_decide; [done|]. do 2 f_equal.
  generalize directions as ds. intros ds. revert open_set'.
  induction ds as [|d ds IH]; intros open_set'; [done|].
  cbn [fold_left]. by rewrite a_star_neighbor_goal_wall, IH.
Qed.

Lemma find_path_goal_wall start goal_pos walls :
  find_path start goal_pos (walls ∪ {[ goal_pos ]}) = find_path start goal_pos walls.
Proof.
  unfold find_path, a_star.
  by rewrite (while_loop_ext _ _ _ _ (a_star_step_goal_wall goal_pos walls)).
Qed.

(** What [a_star] returns is what its main loop returns. *)
Lemma a_star_run start_node goal_pos walls path :
  while_loop a_star_bound (a_star_step goal_pos walls) ([(0, start_node)], ∅) = inr path ->
  a_star start_node goal_pos walls = path.
Proof. unfold a_star. by intros ->. Qed.

(** Two wall sets that make every pass behave alike give the same path. *)
Lemma find_path_ext start goal_pos walls walls' :
  (forall st, a_star_step goal_pos walls st = a_star_step goal_pos walls' st) ->
  find_path start goal_pos walls = find_path start goal_pos walls'.
Proof.
  intros H. unfold find_path, a_star. by rewrite (while_loop_ext _ _ _ _ H).
Qed.

(** ** The game

    The game uses the search through its results only: from here on
    [a_star] is kept folded. *)

#[local] Opaque a_star.

Lemma nonempty_spec {A} (l : list A) : nonempty l = true <-> l <> [].
Proof. by destruct l. Qed.

Lemma both_can_reach_spec game_state walls_candidate :
  both_can_reach game_state walls_candidate = true <->
  find_path (player_pos game_state) (player_goal game_state) walls_candidate <> []
  /\ find_path (ai_pos game_state) (ai_goal game_state) walls_candidate <> [].
Proof. unfold both_can_reach. by rewrite andb_true_iff, !nonempty_spec. Qed.

Lemma handle_ai_turn_unfold game_state is_player_ai :
  handle_ai_turn game_state is_player_ai
  = check_win (ai_move (ai_place_wall (tick game_state) is_player_ai) is_player_ai)
              is_player_ai.
Proof. done. Qed.

(** *** What each step leaves alone *)

Lemma ai_place_wall_cases game_state is_player_ai :
  ai_place_wall game_state is_player_ai = game_state
  \/ exists block_pos rest,
       mover_walls_used game_state is_player_ai < MAX_WALLS_PER_PLAYER
       /\ find_path (mover_pos game_state (negb is_player_ai))
                    (mover_goal game_state (negb is_player_ai)) (walls game_state)
          = block_pos :: rest
       /\ both_can_reach game_state (walls game_state ∪ {[ block_pos ]}) = true
       /\ ai_place_wall game_state is_player_ai
          = (if is_player_ai
             then set_player_walls_used (player_walls_used game_state + 1)
             else set_ai_walls_used (ai_walls_used game_state + 1))
              (set_walls (walls game_state ∪ {[ block_pos ]}) game_state).
Proof.
  unfold ai_place_wall, mover_walls_used, mover_pos, mover_goal.
  case_bool_decide as Hb; [|by left].
  destruct is_player_ai; cbn [negb].
  - destruct (find_path (ai_pos game_state) _ _) as [|block_pos rest] eqn:E; [by left|].
    destruct (both_can_reach _ _) eqn:Hc; [|by left].
    right. by exists block_pos, rest.
  - destruct (find_path (player_pos game_state) _ _) as [|block_pos rest] eqn:E; [by left|].
    destruct (both_can_reach _ _) eqn:Hc; [|by left].
    right. by exists block_pos, rest.
Qed.

Lemma player_place_wall_cases game_state mouse_pos :
  player_place_wall game_state mouse_pos = game_state
  \/ ((clicked_cell mouse_pos ∉ [player_pos game_state; ai_pos game_state;
                                 player_goal game_state; ai_goal game_state])
      /\ (clicked_cell mouse_pos ∉ walls game_state)
      /\ player_walls_used game_state < MAX_WALLS_PER_PLAYER
      /\ both_can_reach game_state (walls game_state ∪ {[ clicked_cell mouse_pos ]}) = true
      /\ player_place_wall game_state mouse_pos
         = set_player_walls_used (player_walls_used game_state + 1)
             (set_walls (walls game_state ∪ {[ clicked_cell mouse_pos ]}) game_state)).
Proof.
  unfold player_place_wall. fold (clicked_cell mouse_pos).
  case_bool_decide as H1; [|by left].
  case_bool_decide as H2; [by left|].
  case_bool_decide as H3; [by left|].
  destruct (both_can_reach _ _) eqn:Hc; [|by left].
  right. split; [done|]. split; [done|]. split; [lia|]. by split.
Qed.

Lemma ai_move_cases game_state is_player_ai :
  match find_path (mover_pos game_state is_player_ai)
                  (mover_goal game_state is_player_ai) (walls game_state) with
  | [] => ai_move game_state is_player_ai = game_state
  | step :: _ =>
      ai_move game_state is_player_ai
      = (if is_player_ai then set_player_pos step else set_ai_pos step) game_state
  end.
Proof.
  unfold ai_move, mover_pos, mover_goal.
  destruct is_player_ai; by destruct (find_path _ _ _).
Qed.

Lemma check_win_cases game_state is_player_ai :
  (player_pos game_state <> player_goal game_state
   /\ ai_pos game_state <> ai_goal game_state
   /\ check_win game_state is_player_ai = game_state)
  \/ exists msg,
       (player_pos game_state = player_goal game_state
        \/ ai_pos game_state = ai_goal game_state)
       /\ check_win game_state is_player_ai
          = set_game_over true (set_result_message msg game_state).
Proof.
  unfold check_win. repeat case_decide; eauto 6.
Qed.

(** The fields a wall placement, a move and the win check leave alone. *)
Lemma ai_place_wall_frame game_state is_player_ai :
  let s' := ai_place_wall game_state is_player_ai in
  player_pos s' = player_pos game_state /\ ai_pos s' = ai_pos game_state
  /\ player_goal s' = player_goal game_state /\ ai_goal s' = ai_goal game_state
  /\ game_over s' = game_over game_state /\ player_moved s' = player_moved game_state
  /\ turn_counter s' = turn_counter game_state
  /\ mover_walls_used s' (negb is_player_ai)
     = mover_walls_used game_state (negb is_player_ai).
Proof.
  destruct (ai_place_wall_cases game_state is_player_ai)
    as [-> | (b & rest & _ & _ & _ & ->)]; [done|].
  by destruct is_player_ai.
Qed.

Lemma ai_move_frame game_state is_player_ai :
  let s' := ai_move game_state is_player_ai in
  walls s' = walls game_state
  /\ player_walls_used s' = player_walls_used game_state
  /\ ai_walls_used s' = ai_walls_used game_state
  /\ player_goal s' = player_goal game_state /\ ai_goal s' = ai_goal game_state
  /\ game_over s' = game_over game_state /\ player_moved s' = player_moved game_state
  /\ mover_pos s' (negb is_player_ai) = mover_pos game_state (negb is_player_ai).
Proof.
  pose proof (ai_move_cases game_state is_player_ai) as H.
  destruct (find_path _ _ _); rewrite H; [done|]. by destruct is_player_ai.
Qed.

Lemma check_win_frame game_state is_player_ai :
  let s' := check_win game_state is_player_ai in
  player_pos s' = player_pos game_state /\ ai_pos s' = ai_pos game_state
  /\ walls s' = walls game_state
  /\ player_walls_used s' = player_walls_used game_state
  /\ ai_walls_used s' = ai_walls_used game_state
  /\ player_goal s' = player_goal game_state /\ ai_goal s' = ai_goal game_state
  /\ player_moved s' = player_moved game_state.
Proof.
  destruct (check_win_cases game_state is_player_ai) as [(_ & _ & ->) | (msg & _ & ->)]; done.
Qed.

Lemma handle_ai_turn_frame game_state is_player_ai :
  let s1 := ai_place_wall (tick game_state) is_player_ai in
  let s' := handle_ai_turn game_state is_player_ai in
  walls s' = walls s1
  /\ player_walls_used s' = player_walls_used s1 /\ ai_walls_used s' = ai_walls_used s1
  /\ player_goal s' = player_goal game_state /\ ai_goal s' = ai_goal game_state
  /\ mover_pos s' (negb is_player_ai) = mover_pos game_state (negb is_player_ai)
  /\ mover_pos s' is_player_ai
     = mover_pos (ai_move s1 is_player_ai) is_player_ai.
Proof.
  cbn zeta. rewrite handle_ai_turn_unfold.
  set (s1 := ai_place_wall (tick game_state) is_player_ai).
  set (s2 := ai_move s1 is_player_ai).
  destruct (check_win_frame s2 is_player_ai) as (H1 & H2 & H3 & H4 & H5 & H6 & H7 & _).
  destruct (ai_move_frame s1 is_player_ai) as (M1 & M2 & M3 & M4 & M5 & _ & _ & M8).
  destruct (ai_place_wall_frame (tick game_state) is_player_ai)
    as (P1 & P2 & P3 & P4 & _).
  cbn zeta in *. fold s1 in P1, P2, P3, P4. fold s2 in M1, M2, M3, M4, M5, M8.
  unfold mover_pos in *.
  cbn [tick set_turn_counter player_goal ai_goal player_pos ai_pos] in P1, P2, P3, P4.
  destruct is_player_ai; cbn [negb] in *;
    repeat match goal with |- _ /\ _ => split end; congruence.
Qed.

(** *** The player's keys *)

Lemma player_key_cases game_state key :
  player_key game_state key = game_state
  \/ exists t,
       key_target (player_pos game_state) key = Some t
       /\ player_key game_state key
          = set_player_moved true (set_player_pos t game_state)
       /\ (t = player_goal game_state
           \/ ((t ∉ walls game_state)
               /\ (interior (player_pos game_state) -> interior t))).
Proof.
  unfold player_key, key_target, interior, TOTAL_ROWS, BOARD_ROWS, GOAL_ROWS, BOARD_COLS.
  destruct (player_pos game_state) as [r c]. cbn [fst snd].
  destruct key; [| | | |by left].
  - destruct (_ || _) eqn:E; [|by left]. right. eexists. split; [done|]. split; [done|].
    apply orb_true_iff in E as [E|E]; [left; by apply bool_decide_eq_true in E|].
    apply andb_true_iff in E as [E1 E2]. apply bool_decide_eq_true in E1, E2.
    right. split; [done|]. cbn [fst snd]. lia.
  - destruct (_ || _) eqn:E; [|by left]. right. eexists. split; [done|]. split; [done|].
    apply orb_true_iff in E as [E|E]; [left; by apply bool_decide_eq_true in E|].
    apply andb_true_iff in E as [E1 E2]. apply bool_decide_eq_true in E1, E2.
    right. split; [done|]. cbn [fst snd]. lia.
  - destruct (_ && _) eqn:E; [|by left]. right. eexists. split; [done|]. split; [done|].
    apply andb_true_iff in E as [E1 E2]. apply bool_decide_eq_true in E1, E2.
    right. split; [done|]. cbn [fst snd]. lia.
  - destruct (_ && _) eqn:E; [|by left]. right. eexists. split; [done|]. split; [done|].
    apply andb_true_iff in E as [E1 E2]. apply bool_decide_eq_true in E1, E2.
    right. split; [done|]. cbn [fst snd]. lia.
Qed.

Lemma player_key_rejects game_state key t :
  interior (player_pos game_state) ->
  key_target (player_pos game_state) key = Some t ->
  ~ interior t \/ t ∈ walls game_state ->
  t <> player_goal game_state ->
  player_key game_state key = game_state.
Proof.
  unfold player_key, key_target, interior, TOTAL_ROWS, BOARD_ROWS, GOAL_ROWS, BOARD_COLS.
  destruct (player_pos game_state) as [r c]. cbn [fst snd].
  intros Hint Ht Hbad Hgoal.
  destruct key; simplify_eq; cbn [fst snd] in Hbad;
    rewrite ?(bool_decide_eq_false_2 _ Hgoal); cbn [orb];
    (destruct (_ && _) eqn:E; [|done]);
    apply andb_true_iff in E as [E1 E2]; apply bool_decide_eq_true in E1, E2;
    exfalso; destruct Hbad as [Hbad|Hbad]; [lia|done|lia|done|lia|done|lia|done].
Qed.

(** *** The event loop *)

Lemma handle_event_cases mode game_state mouse_clicked running event :
  exists mouse_clicked' running',
    (handle_event mode (game_state, mouse_clicked, running) event
     = (game_state, mouse_clicked', running')
     /\ (forall key, event = KEYDOWN key -> mouse_clicked' = mouse_clicked
                                          /\ running' = running))
    \/ exists key,
         event = KEYDOWN key /\ game_over game_state = false /\ mode = 0
         /\ player_moved game_state = false
         /\ handle_event mode (game_state, mouse_clicked, running) event
            = (player_key game_state key, mouse_clicked', running').
Proof.
  unfold handle_event. destruct event as [|button|key|]; try by (do 2 eexists; left).
  destruct (game_over game_state) eqn:Ho; cbn [negb andb];
    [by (do 2 eexists; left)|].
  case_bool_decide as Hm; cbn [andb]; [|by (do 2 eexists; left)].
  destruct (player_moved game_state) eqn:Hp; cbn [negb];
    [by (do 2 eexists; left)|].
  do 2 eexists. right. by exists key.
Qed.

Lemma handle_event_keydown mode game_state mouse_clicked running key :
  handle_event mode (game_state, mouse_clicked, running) (KEYDOWN key)
  = (if negb (game_over game_state) && bool_decide (mode = 0)
        && negb (player_moved game_state)
     then player_key game_state key else game_state, mouse_clicked, running).
Proof. done. Qed.

Lemma events_after_move mode evs game_state mouse_clicked running :
  player_moved game_state = true ->
  (fold_left (handle_event mode) evs (game_state, mouse_clicked, running)).1.1
  = game_state.
Proof.
  intros Hm. revert mouse_clicked running.
  induction evs as [|ev evs IH]; intros mouse_clicked running; [done|].
  cbn [fold_left].
  destruct (handle_event_cases mode game_state mouse_clicked running ev)
    as (mc' & r' & [[-> _] | (key & _ & _ & _ & ? & _)]); [apply IH|congruence].
Qed.

Lemma events_one_move mode evs game_state mouse_clicked running :
  one_move mode game_state
    (fold_left (handle_event mode) evs (game_state, mouse_clicked, running)).1.1.
Proof.
  revert mouse_clicked running.
  induction evs as [|ev evs IH]; intros mouse_clicked running; [by left|].
  cbn [fold_left].
  destruct (handle_event_cases mode game_state mouse_clicked running ev)
    as (mc' & r' & [[-> _] | (key & _ & Ho & Hmode & Hp & ->)]); [apply IH|].
  destruct (player_key_cases game_state key) as [-> | (t & Ht & -> & Hfree)];
    [apply IH|].
  rewrite events_after_move by done. right. by exists key, t.
Qed.

Lemma after_events_one_move w evs :
  one_move (game_mode w) (game_state w) (after_events w evs).1.1.
Proof. apply events_one_move. Qed.

Lemma handle_ai_turn_player_pos game_state :
  player_pos (handle_ai_turn game_state false) = player_pos game_state.
Proof.
  rewrite handle_ai_turn_unfold.
  destruct (check_win_frame (ai_move (ai_place_wall (tick game_state) false) false) false)
    as (-> & _).
  destruct (ai_move_frame (ai_place_wall (tick game_state) false) false)
    as (_ & _ & _ & _ & _ & _ & _ & H).
  destruct (ai_place_wall_frame (tick game_state) false) as (H' & _).
  exact (eq_trans H H').
Qed.

Lemma handle_ai_turn_goals game_state is_player_ai :
  player_goal (handle_ai_turn game_state is_player_ai) = player_goal game_state
  /\ ai_goal (handle_ai_turn game_state is_player_ai) = ai_goal game_state.
Proof.
  destruct (handle_ai_turn_frame game_state is_player_ai) as (_ & _ & _ & H1 & H2 & _).
  exact (conj H1 H2).
Qed.

Lemma check_win_spec game_state is_player_ai :
  check_win game_state is_player_ai
  = if decide (player_pos game_state = player_goal game_state
               \/ ai_pos game_state = ai_goal game_state)
    then set_game_over true
           (set_result_message (win_message game_state is_player_ai) game_state)
    else game_state.
Proof.
  unfold check_win, win_message. repeat case_decide; try reflexivity; naive_solver.
Qed.

Lemma handle_ai_turn_win game_state is_player_ai :
  let s' := handle_ai_turn game_state is_player_ai in
  player_pos s' = player_goal s' \/ ai_pos s' = ai_goal s' ->
  game_over s' = true /\ result_message s' = win_message s' is_player_ai.
Proof.
  cbn zeta. rewrite handle_ai_turn_unfold.
  generalize (ai_move (ai_place_wall (tick game_state) is_player_ai) is_player_ai).
  intros s2. rewrite check_win_spec. case_decide as Hw.
  - intros _. split; reflexivity.
  - intros Hw'. by destruct Hw.
Qed.

Lemma player_place_wall_frame game_state mouse_pos :
  let s' := player_place_wall game_state mouse_pos in
  player_pos s' = player_pos game_state /\ ai_pos s' = ai_pos game_state
  /\ player_goal s' = player_goal game_state /\ ai_goal s' = ai_goal game_state
  /\ game_over s' = game_over game_state /\ player_moved s' = player_moved game_state
  /\ ai_walls_used s' = ai_walls_used game_state.
Proof.
  destruct (player_place_wall_cases game_state mouse_pos)
    as [-> | (_ & _ & _ & _ & ->)]; done.
Qed.

Lemma main_frame_mode w fr :
  game_mode (main_frame w fr) = game_mode w
  \/ game_state (main_frame w fr) = reset_game.
Proof.
  unfold main_frame.
  destruct (fold_left _ _ _) as [[s1 mouse_clicked] running].
  destruct (negb (game_over s1)); [by left|].
  destruct mouse_clicked; [|by left].
  destruct (replay_hover _); [by left|].
  destruct (mode_hover _); [by right|].
  destruct (home_hover _); [by right|by left].
Qed.

(** *** Invariants of the game loop *)

(** A key whose target is free moves the player there; the goal counts as
    free for the keys [w] and [s] only. *)
Lemma player_key_accepts game_state key t :
  interior (player_pos game_state) ->
  key_target (player_pos game_state) key = Some t ->
  (interior t /\ (t ∉ walls game_state))
  \/ (t = player_goal game_state /\ (key = K_w \/ key = K_s)) ->
  player_key game_state key = set_player_moved true (set_player_pos t game_state).
Proof.
  unfold player_key, key_target, interior, TOTAL_ROWS, BOARD_ROWS, GOAL_ROWS, BOARD_COLS.
  destruct (player_pos game_state) as [r c]. cbn [fst snd].
  intros Hint Ht Hfree.
  destruct key; simplify_eq; cbn [fst snd] in Hfree.
  - destruct Hfree as [[Hi Hw] | [Hg _]].
    + rewrite (bool_decide_eq_true_2 (r > 1)) by lia.
      rewrite (bool_decide_eq_true_2 _ Hw). by rewrite orb_true_r.
    + by rewrite (bool_decide_eq_true_2 _ Hg).
  - destruct Hfree as [[Hi Hw] | [Hg _]].
    + rewrite (bool_decide_eq_true_2 (r < 9 + 2 - 2)) by lia.
      rewrite (bool_decide_eq_true_2 _ Hw). by rewrite orb_true_r.
    + by rewrite (bool_decide_eq_true_2 _ Hg).
  - destruct Hfree as [[Hi Hw] | [_ [?|?]]]; [|done|done].
    rewrite (bool_decide_eq_true_2 (c > 0)) by lia.
    by rewrite (bool_decide_eq_true_2 _ Hw).
  - destruct Hfree as [[Hi Hw] | [_ [?|?]]]; [|done|done].
    rewrite (bool_decide_eq_true_2 (c < 9 - 1)) by lia.
    by rewrite (bool_decide_eq_true_2 _ Hw).
Qed.

(** From here on the steps of a pass are used through the facts above, and
    are kept folded as well. *)
#[local] Opaque handle_ai_turn ai_place_wall ai_move check_win player_place_wall
  player_key find_path.

Lemma ai_place_wall_bounded game_state is_player_ai :
  counters_bounded game_state ->
  counters_bounded (ai_place_wall game_state is_player_ai).
Proof.
  unfold counters_bounded.
  destruct (ai_place_wall_cases game_state is_player_ai)
    as [-> | (b & rest & Hlt & _ & _ & ->)]; [done|].
  unfold mover_walls_used in Hlt. destruct is_player_ai; cbn; lia.
Qed.

Lemma handle_ai_turn_bounded game_state is_player_ai :
  counters_bounded game_state ->
  counters_bounded (handle_ai_turn game_state is_player_ai).
Proof.
  intros H. destruct (handle_ai_turn_frame game_state is_player_ai)
    as (_ & Hp & Ha & _).
  pose proof (ai_place_wall_bounded (tick game_state) is_player_ai H) as Hb.
  unfold counters_bounded in *. by rewrite Hp, Ha.
Qed.

Lemma player_place_wall_bounded game_state mouse_pos :
  counters_bounded game_state ->
  counters_bounded (player_place_wall game_state mouse_pos).
Proof.
  unfold counters_bounded.
  destruct (player_place_wall_cases game_state mouse_pos)
    as [-> | (_ & _ & Hlt & _ & ->)]; [done|]. cbn. lia.
Qed.

Lemma one_move_bounded mode s0 s1 :
  one_move mode s0 s1 -> counters_bounded s0 -> counters_bounded s1.
Proof. by intros [-> | (key & t & _ & _ & _ & _ & -> & _)]. Qed.

Lemma counters_bounded_moved b s :
  counters_bounded (set_player_moved b s) <-> counters_bounded s.
Proof. done. Qed.

Lemma play_turn_bounded mode game_state :
  counters_bounded game_state -> counters_bounded (play_turn mode game_state).
Proof.
  intros H. unfold play_turn. case_bool_decide.
  - destruct (player_moved game_state); [|exact H].
    apply counters_bounded_moved. exact (handle_ai_turn_bounded game_state false H).
  - case_bool_decide.
    + exact (handle_ai_turn_bounded game_state true H).
    + exact (handle_ai_turn_bounded game_state false H).
Qed.

Lemma reset_game_bounded : counters_bounded reset_game.
Proof. unfold counters_bounded, MAX_WALLS_PER_PLAYER. cbn. lia. Qed.

Lemma main_frame_state w fr :
  game_state (main_frame w fr)
  = after_loop w fr (after_events w (events fr)).1.1 (after_events w (events fr)).1.2.
Proof.
  unfold main_frame, after_events, after_loop.
  destruct (fold_left _ _ _) as [[s1 mouse_clicked] running]. cbn [fst snd].
  destruct (game_over s1); cbn [negb]; [|reflexivity].
  destruct mouse_clicked; cbn [andb]; [|reflexivity].
  destruct (replay_hover _); cbn [orb]; [reflexivity|].
  destruct (mode_hover _); cbn [orb]; [reflexivity|].
  destruct (home_hover _); reflexivity.
Qed.

Lemma main_frame_bounded w fr :
  counters_bounded (game_state w) -> counters_bounded (game_state (main_frame w fr)).
Proof.
  intros H. rewrite main_frame_state.
  pose proof (after_events_one_move w (events fr)) as Hev.
  apply one_move_bounded in Hev; [|exact H].
  generalize dependent ((after_events w (events fr)).1.1).
  generalize ((after_events w (events fr)).1.2). intros mouse_clicked s1 Hs1.
  unfold after_loop. destruct (negb (game_over s1)).
  - apply play_turn_bounded.
    destruct (_ && _); [by apply player_place_wall_bounded|exact Hs1].
  - destruct (_ && _); [exact reset_game_bounded|exact Hs1].
Qed.

Lemma reachable_bounded w : reachable w -> counters_bounded (game_state w).
Proof.
  induction 1 as [fr|w fr _ IH _]; [exact reset_game_bounded|].
  by apply main_frame_bounded.
Qed.

Lemma set_player_moved_fields b s :
  game_over (set_player_moved b s) = game_over s
  /\ player_pos (set_player_moved b s) = player_pos s.
Proof. done. Qed.

Lemma reset_game_inside : interior (player_pos reset_game).
Proof. repeat split; cbv; discriminate. Qed.

Lemma main_frame_player_inside w fr :
  player_inside w -> player_inside (main_frame w fr).
Proof.
  intros Hw. unfold player_inside.
  destruct (main_frame_mode w fr) as [Hmode | Hreset].
  2:{ rewrite Hreset. right. right. exact reset_game_inside. }
  rewrite Hmode. destruct (decide (game_mode w = 0)) as [H0|]; [|by left].
  right. rewrite main_frame_state.
  pose proof (after_events_one_move w (events fr)) as Hev. rewrite H0 in Hev.
  assert (game_over (game_state w) = true \/ interior (player_pos (game_state w)))
    as Hin by (destruct Hw as [?|?]; [done|done]).
  generalize dependent ((after_events w (events fr)).1.1).
  generalize ((after_events w (events fr)).1.2). intros mouse_clicked s1 Hev.
  unfold after_loop. rewrite H0.
  destruct (game_over s1) eqn:Hover; cbn [negb].
  { destruct (_ && _); [right; exact reset_game_inside|by left]. }
  set (s2 := if _ && _ && _ then _ else s1).
  assert (player_pos s2 = player_pos s1 /\ player_goal s2 = player_goal s1
          /\ game_over s2 = game_over s1 /\ player_moved s2 = player_moved s1)
    as (Hp2 & Hg2 & Ho2 & Hm2).
  { subst s2. destruct (_ && _ && _); [|done].
    destruct (player_place_wall_frame s1 (mouse_pos fr)) as (? & _ & ? & _ & ? & ? & _).
    done. }
  clearbody s2. unfold play_turn. rewrite bool_decide_eq_true_2 by reflexivity.
  destruct (player_moved s2) eqn:Hmoved.
  - pose proof (handle_ai_turn_win s2 false) as Hwin.
    pose proof (handle_ai_turn_player_pos s2) as Hp.
    destruct (handle_ai_turn_goals s2 false) as [Hg _].
    revert Hwin Hp Hg. generalize (handle_ai_turn s2 false). intros s3 Hwin Hp Hg.
    destruct (set_player_moved_fields false s3) as [-> ->].
    destruct (decide (player_pos s3 = player_goal s3)) as [E|E].
    { left. apply Hwin. by left. }
    right. rewrite Hp, Hp2.
    destruct Hev as [-> | (key & t & Ho0 & _ & _ & _ & -> & Hfree)].
    + destruct Hin as [Hin|Hin]; [congruence|exact Hin].
    + cbn in *. destruct Hfree as [-> | [_ Hfree]]; [congruence|].
      apply Hfree. destruct Hin as [Hin|Hin]; [congruence|exact Hin].
  - right. rewrite Hp2.
    destruct Hev as [-> | (key & t & _ & _ & _ & _ & -> & _)].
    + destruct Hin as [Hin|Hin]; [congruence|exact Hin].
    + cbn in Hm2. congruence.
Qed.

Lemma reachable_player_inside w : reachable w -> player_inside w.
Proof.
  induction 1 as [fr|w fr _ IH _].
  - right. right. exact reset_game_inside.
  - by apply main_frame_player_inside.
Qed.

(** *** Committed walls *)

Lemma ai_place_wall_commit game_state is_player_ai :
  let s' := ai_place_wall game_state is_player_ai in
  player_walls_used s' <> player_walls_used game_state
  \/ ai_walls_used s' <> ai_walls_used game_state
  \/ walls s' <> walls game_state ->
  both_can_reach game_state (walls s') = true.
Proof.
  cbn zeta.
  destruct (ai_place_wall_cases game_state is_player_ai)
    as [-> | (b & rest & _ & _ & Hreach & ->)].
  - intros [H|[H|H]]; by destruct H.
  - intros _. destruct is_player_ai; exact Hreach.
Qed.

Lemma player_place_wall_commit game_state mouse_pos :
  let s' := player_place_wall game_state mouse_pos in
  player_walls_used s' <> player_walls_used game_state
  \/ ai_walls_used s' <> ai_walls_used game_state
  \/ walls s' <> walls game_state ->
  both_can_reach game_state (walls s') = true.
Proof.
  cbn zeta.
  destruct (player_place_wall_cases game_state mouse_pos)
    as [-> | (_ & _ & _ & Hreach & ->)].
  - intros [H|[H|H]]; by destruct H.
  - intros _. exact Hreach.
Qed.

Lemma handle_ai_turn_commit game_state is_player_ai :
  let s' := handle_ai_turn game_state is_player_ai in
  player_walls_used s' <> player_walls_used game_state
  \/ ai_walls_used s' <> ai_walls_used game_state
  \/ walls s' <> walls game_state ->
  both_can_reach game_state (walls s') = true.
Proof.
  cbn zeta.
  destruct (handle_ai_turn_frame game_state is_player_ai) as (-> & -> & -> & _).
  exact (ai_place_wall_commit (tick game_state) is_player_ai).
Qed.

(** *** Runs of the game *)

Lemma events_running mode evs game_state mouse_clicked running :
  forallb (fun ev => match ev with QUIT => false | _ => true end) evs = true ->
  (fold_left (handle_event mode) evs (game_state, mouse_clicked, running)).2 = running.
Proof.
  revert game_state mouse_clicked.
  induction evs as [|ev evs IH]; intros game_state mouse_clicked; [done|].
  cbn [forallb fold_left]. intros [Hev Hevs]%andb_true_iff.
  destruct (handle_event mode (game_state, mouse_clicked, running) ev)
    as [[s' mc'] r'] eqn:E.
  assert (r' = running) as ->.
  { unfold handle_event in E. destruct ev; by simplify_eq. }
  by apply IH.
Qed.

Lemma main_frame_running w fr :
  no_quit fr = true -> game_running (main_frame w fr) = game_running w.
Proof.
  intros Hq. unfold main_frame.
  pose proof (events_running (game_mode w) (events fr) (game_state w) false
                (game_running w) Hq) as Hr.
  destruct (fold_left _ _ _) as [[s1 mouse_clicked] running]. cbn [snd] in Hr.
  subst running.
  destruct (negb (game_over s1)); [reflexivity|].
  destruct mouse_clicked; [|reflexivity].
  destruct (replay_hover _); [reflexivity|].
  destruct (mode_hover _); [reflexivity|].
  destruct (home_hover _); reflexivity.
Qed.

Lemma reachable_fold frames w :
  forallb no_quit frames = true -> reachable w -> game_running w = true ->
  reachable (fold_left main_frame frames w)
  /\ game_running (fold_left main_frame frames w) = true.
Proof.
  revert w. induction frames as [|fr frames IH]; intros w; [done|].
  cbn [forallb fold_left]. intros [Hfr Hfrs]%andb_true_iff Hw Hrun.
  apply IH; [exact Hfrs| by apply reachable_frame |].
  by rewrite main_frame_running.
Qed.

Lemma reachable_play frames :
  forallb no_quit frames = true ->
  reachable (play frames) /\ game_running (play frames) = true.
Proof.
  intros H. apply reachable_fold; [exact H|apply reachable_init|reflexivity].
Qed.

(** *** Routes, cell by cell *)

Lemma route_steps walls goal_pos p l :
  route walls goal_pos p l ->
  forall i a b, (p :: l) !! i = Some a -> l !! i = Some b -> unit_step a b.
Proof.
  revert p. induction l as [|q l IH]; intros p; cbn [route]; [done|].
  intros [Hs Hr] [|i] a b Ha Hb; cbn in Ha, Hb.
  - by simplify_eq.
  - destruct l as [|q' l]; [done|]. destruct Hr as (_ & _ & Hr).
    by apply (IH q Hr i).
Qed.

Lemma route_interior walls goal_pos p l :
  route walls goal_pos p l ->
  forall i q, l !! i = Some q -> (Datatypes.S i < length l)%nat ->
    interior q /\ q ∉ walls.
Proof.
  revert p. induction l as [|q0 l IH]; intros p; cbn [route]; [done|].
  intros [Hs Hr] i q Hq Hi. destruct l as [|q' l]; [cbn in Hi; lia|].
  destruct Hr as (Hint & Hw & Hr). destruct i as [|i]; cbn in Hq.
  - by simplify_eq.
  - apply (IH q0 Hr i q Hq). cbn [length] in *. lia.
Qed.

Lemma route_last walls goal_pos p l :
  route walls goal_pos p l -> last l = Some goal_pos.
Proof.
  intros (_ & Hl & Hne)%route_walk. unfold last_cell in Hl.
  destruct (last l) eqn:E; [by cbn in Hl; subst|].
  by apply last_None in E.
Qed.

(** *** A pass of the game loop and the win check *)

Lemma reset_game_not_won :
  player_pos reset_game <> player_goal reset_game
  /\ ai_pos reset_game <> ai_goal reset_game.
Proof. split; intros [=]. Qed.

Lemma play_turn_cases mode game_state :
  play_turn mode game_state = game_state /\ mode = 0 /\ player_moved game_state = false
  \/ exists is_player_ai,
       (play_turn mode game_state = handle_ai_turn game_state is_player_ai
        \/ play_turn mode game_state
           = set_player_moved false (handle_ai_turn game_state is_player_ai)).
Proof.
  unfold play_turn. case_bool_decide as Hm.
  - destruct (player_moved game_state) eqn:E; [|by left].
    right. exists false. by right.
  - case_bool_decide; right; eexists; by left.
Qed.

Lemma set_player_moved_rest b s :
  player_goal (set_player_moved b s) = player_goal s
  /\ ai_pos (set_player_moved b s) = ai_pos s
  /\ ai_goal (set_player_moved b s) = ai_goal s.
Proof. done. Qed.

Lemma play_turn_win mode game_state :
  let s' := play_turn mode game_state in
  (s' = game_state /\ mode = 0 /\ player_moved game_state = false)
  \/ (player_pos s' = player_goal s' \/ ai_pos s' = ai_goal s' -> game_over s' = true).
Proof.
  cbn zeta. destruct (play_turn_cases mode game_state) as [H | (b & [E | E])].
  - left. exact H.
  - right. rewrite E. intros H. exact (proj1 (handle_ai_turn_win game_state b H)).
  - right. rewrite E. pose proof (handle_ai_turn_win game_state b) as Hwin.
    revert Hwin. generalize (handle_ai_turn game_state b). intros s3 Hwin.
    destruct (set_player_moved_fields false s3) as [-> ->].
    destruct (set_player_moved_rest false s3) as (-> & -> & ->).
    intros H. exact (proj1 (Hwin H)).
Qed.

Lemma main_frame_win w fr :
  let s0 := game_state w in
  let s' := game_state (main_frame w fr) in
  player_pos s' <> player_pos s0 \/ ai_pos s' <> ai_pos s0 ->
  player_pos s' = player_goal s' \/ ai_pos s' = ai_goal s' ->
  game_over s' = true.
Proof.
  cbn zeta. rewrite main_frame_state.
  pose proof (after_events_one_move w (events fr)) as Hev.
  revert Hev. generalize ((after_events w (events fr)).1.1).
  generalize ((after_events w (events fr)).1.2). intros mouse_clicked s1 Hev.
  unfold after_loop. destruct (game_over s1) eqn:Hover; cbn [negb].
  { destruct (_ && _).
    - intros _ [H|H]; by destruct reset_game_not_won.
    - done. }
  set (s2 := if _ && _ && _ then _ else s1).
  assert (player_pos s2 = player_pos s1 /\ ai_pos s2 = ai_pos s1
          /\ player_moved s2 = player_moved s1) as (Hp2 & Ha2 & Hm2).
  { subst s2. destruct (_ && _ && _); [|done].
    destruct (player_place_wall_frame s1 (mouse_pos fr)) as (? & ? & _ & _ & _ & ? & _).
    done. }
  clearbody s2.
  destruct (play_turn_win (game_mode w) s2) as [(-> & _ & Hm) | Hwin]; [|by intros _].
  intros Hchanged _. exfalso. rewrite Hp2, Ha2 in Hchanged.
  destruct Hev as [-> | (key & t & _ & _ & _ & _ & -> & _)].
  - by destruct Hchanged.
  - cbn in Hm2. congruence.
Qed.

Lemma main_frame_after_game_over w fr :
  game_over (game_state w) = true ->
  game_state (main_frame w fr) = game_state w
  \/ game_state (main_frame w fr) = reset_game.
Proof.
  intros Hover. rewrite main_frame_state.
  pose proof (after_events_one_move w (events fr)) as Hev.
  revert Hev. generalize ((after_events w (events fr)).1.1).
  generalize ((after_events w (events fr)).1.2). intros mouse_clicked s1 Hev.
  destruct Hev as [-> | (key & t & Ho & _)]; [|congruence].
  unfold after_loop. rewrite Hover. cbn [negb].
  destruct (_ && _); [by right|by left].
Qed.

(** *** Rejected requests *)

Lemma handle_event_rejects w evs key t :
  reachable w ->
  let st := after_events w evs in
  key_target (player_pos st.1.1) key = Some t ->
  ~ interior t \/ t ∈ walls st.1.1 ->
  t <> player_goal st.1.1 ->
  handle_event (game_mode w) st (KEYDOWN key) = st.
Proof.
  intros Hw. cbn zeta.
  pose proof (after_events_one_move w evs) as Hev.
  pose proof (reachable_player_inside w Hw) as Hin.
  destruct (after_events w evs) as [[s1 mouse_clicked] running]. cbn [fst] in *.
  intros Ht Hbad Hgoal. rewrite handle_event_keydown.
  destruct (negb (game_over s1) && bool_decide (game_mode w = 0)
            && negb (player_moved s1)) eqn:Hgate; [|reflexivity].
  apply andb_true_iff in Hgate as [[Ho Hm]%andb_true_iff Hp].
  apply negb_true_iff in Ho, Hp. apply bool_decide_eq_true in Hm.
  destruct Hev as [-> | (k & t' & _ & _ & _ & _ & -> & _)]; [|by cbn in Hp].
  destruct Hin as [?|[?|Hin]]; [done|congruence|].
  by rewrite (player_key_rejects (game_state w) key t).
Qed.

Lemma player_place_wall_rejects game_state mouse_pos :
  let c := clicked_cell mouse_pos in
  c ∈ [player_pos game_state; ai_pos game_state;
       player_goal game_state; ai_goal game_state]
  \/ c ∈ walls game_state
  \/ player_walls_used game_state >= MAX_WALLS_PER_PLAYER
  \/ find_path (player_pos game_state) (player_goal game_state)
               (walls game_state ∪ {[ c ]}) = []
  \/ find_path (ai_pos game_state) (ai_goal game_state)
               (walls game_state ∪ {[ c ]}) = [] ->
  player_place_wall game_state mouse_pos = game_state.
Proof.
  cbn zeta. intros Hrej.
  destruct (player_place_wall_cases game_state mouse_pos)
    as [-> | (H1 & H2 & H3 & H4 & _)]; [done|].
  apply both_can_reach_spec in H4 as [H4 H5].
  destruct Hrej as [?|[?|[?|[?|?]]]]; [done|done|lia|done|done].
Qed.

Lemma ai_place_wall_rejects game_state is_player_ai :
  mover_walls_used game_state is_player_ai >= MAX_WALLS_PER_PLAYER
  \/ match find_path (mover_pos game_state (negb is_player_ai))
                     (mover_goal game_state (negb is_player_ai)) (walls game_state) with
     | [] => True
     | block_pos :: _ =>
         find_path (player_pos game_state) (player_goal game_state)
                   (walls game_state ∪ {[ block_pos ]}) = []
         \/ find_path (ai_pos game_state) (ai_goal game_state)
                      (walls game_state ∪ {[ block_pos ]}) = []
     end ->
  ai_place_wall game_state is_player_ai = game_state.
Proof.
  intros Hrej.
  destruct (ai_place_wall_cases game_state is_player_ai)
    as [-> | (b & rest & H1 & H2 & H3 & _)]; [done|].
  apply both_can_reach_spec in H3 as [H3 H4]. rewrite H2 in Hrej.
  destruct Hrej as [?|[?|?]]; [lia|done|done].
Qed.

Lemma handle_ai_turn_no_budget game_state is_player_ai :
  mover_walls_used game_state is_player_ai >= MAX_WALLS_PER_PLAYER ->
  let s' := handle_ai_turn game_state is_player_ai in
  walls s' = walls game_state
  /\ player_walls_used s' = player_walls_used game_state
  /\ ai_walls_used s' = ai_walls_used game_state.
Proof.
  intros H. cbn zeta.
  destruct (handle_ai_turn_frame game_state is_player_ai) as (-> & -> & -> & _).
  rewrite (ai_place_wall_rejects (tick game_state) is_player_ai); [done|by left].
Qed.

(** *** The move of the automated side *)

Lemma handle_ai_turn_move game_state is_player_ai :
  let s1 := ai_place_wall (tick game_state) is_player_ai in
  let s' := handle_ai_turn game_state is_player_ai in
  walls s' = walls s1
  /\ match find_path (mover_pos game_state is_player_ai)
                     (mover_goal game_state is_player_ai) (walls s1) with
     | [] => mover_pos s' is_player_ai = mover_pos game_state is_player_ai
     | step :: _ => mover_pos s' is_player_ai = step
     end.
Proof.
  cbn zeta.
  destruct (handle_ai_turn_frame game_state is_player_ai)
    as (Hw & _ & _ & _ & _ & _ & Hm).
  split; [exact Hw|]. rewrite Hm.
  destruct (ai_place_wall_frame (tick game_state) is_player_ai)
    as (Hp & Ha & Hpg & Hag & _).
  pose proof (ai_move_cases (ai_place_wall (tick game_state) is_player_ai) is_player_ai)
    as Hmove.
  revert Hp Ha Hpg Hag Hmove.
  generalize (ai_place_wall (tick game_state) is_player_ai). intros s1 Hp Ha Hpg Hag.
  assert (mover_pos s1 is_player_ai = mover_pos game_state is_player_ai) as Hpos.
  { destruct is_player_ai; [exact Hp|exact Ha]. }
  assert (mover_goal s1 is_player_ai = mover_goal game_state is_player_ai) as Hgoal.
  { destruct is_player_ai; [exact Hpg|exact Hag]. }
  rewrite Hpos, Hgoal.
  destruct (find_path _ _ _) as [|step rest]; intros ->; [exact Hpos|].
  by destruct is_player_ai.
Qed.

(** *** The visited set *)

(** The visited set only grows from pass to pass. *)
Lemma loop_state_visited_mono goal_pos walls n st st' :
  loop_state n (a_star_step goal_pos walls) st = Some st' -> st.2 ⊆ st'.2.
Proof.
  revert st. induction n as [|n IH]; intros st; cbn [loop_state].
  - intros [= ->]. reflexivity.
  - destruct (a_star_step goal_pos walls st) as [st1|] eqn:Hstep; [|discriminate].
    intros Hrest%IH.
    apply a_star_step_pushes in Hstep as (e & _ & _ & _ & Hv & _).
    rewrite Hv in Hrest. set_solver.
Qed.

Lemma a_star_pass_visited_mono start goal_pos walls j k stj stk :
  (j <= k)%nat ->
  a_star_pass start goal_pos walls j = Some stj ->
  a_star_pass start goal_pos walls k = Some stk ->
  stj.2 ⊆ stk.2.
Proof.
  unfold a_star_pass. intros Hjk Hj Hk.
  replace k with (j + (k - j))%nat in Hk by lia.
  rewrite loop_state_add, Hj in Hk. cbn [mbind option_bind] in Hk.
  exact (loop_state_visited_mono _ _ _ _ _ Hk).
Qed.

(** * The claims *)

(** ** The search *)

(** Claim C1. For every wall set and every start other than the goal: when
    [a_star] returns a path that is not empty, the path is a route from the
    start to the goal (unit cardinal steps through interior cells that are
    not walls, ending on the goal cell) and no route is shorter, so that its
    length is the least number of steps of a route; and [a_star] returns the
    empty list exactly when there is no route. *)
Theorem a_star_shortest_route walls start goal_pos :
  start <> goal_pos ->
  let path := find_path start goal_pos walls in
  (path <> [] ->
   route walls goal_pos start path
   /\ forall l, route walls goal_pos start l -> (length path <= length l)%nat)
  /\ (path = [] <-> forall l, ~ route walls goal_pos start l).
Proof.
  intros Hne path.
  pose proof (a_star_search_result walls start goal_pos Hne) as Hres.
  fold path in Hres. clearbody path.
  destruct Hres as [[-> Hnone] | (Hroute & _ & Hmin)].
  - split; [intros H; by destruct H|]. split; [intros _; exact Hnone|reflexivity].
  - split; [intros _; by split|]. split.
    + intros ->. destruct Hroute.
    + intros Hnone. destruct (Hnone _ Hroute).
Qed.

(** An instance: the search across the empty board, from the player's
    starting cell to the player's goal. *)
Lemma a_star_shortest_route_witness :
  (1, 4) <> (10, 4)
  /\ let path := find_path (1, 4) (10, 4) ∅ in
     (path <> [] ->
      route ∅ (10, 4) (1, 4) path
      /\ forall l, route ∅ (10, 4) (1, 4) l -> (length path <= length l)%nat)
     /\ (path = [] <-> forall l, ~ route ∅ (10, 4) (1, 4) l).
Proof.
  split; [discriminate|].
  apply (a_star_shortest_route ∅ (1, 4) (10, 4)). discriminate.
Defined.

(** Claim C2, as the code has it. The visited set is tested when an entry is
    pushed, not when one is popped: from pass to pass the visited set only
    grows, the pass that pops an entry adds its cell to it, and the entries
    the pass pushes are for cells outside it.  So a cell gets no new entry
    once it was popped. *)
Theorem a_star_visited_not_pushed start goal_pos walls j k stj stk st' :
  (j <= k)%nat ->
  a_star_pass start goal_pos walls j = Some stj ->
  a_star_pass start goal_pos walls k = Some stk ->
  a_star_step goal_pos walls stk = inl st' ->
  exists e rest pushed,
    stk.1 ≡ₚ e :: rest
    /\ st'.1 ≡ₚ pushed ++ rest
    /\ st'.2 = stk.2 ∪ {[ cell e.2 ]}
    /\ stj.2 ⊆ st'.2
    /\ forall e', e' ∈ pushed -> cell e'.2 ∉ st'.2.
Proof.
  intros Hjk Hj Hk Hstep.
  pose proof (a_star_pass_visited_mono _ _ _ _ _ _ _ Hjk Hj Hk) as Hmono.
  destruct (a_star_step_pushes _ _ _ _ Hstep) as (e & rest & pushed & H1 & H2 & H3 & H4).
  exists e, rest, pushed. split; [exact H1|]. split; [exact H3|]. split; [exact H2|].
  split; [|exact H4]. rewrite H2. set_solver.
Qed.

(** An instance: the second pass of the search across the empty board. *)
Lemma a_star_visited_not_pushed_witness :
  exists stk st',
    a_star_pass (1, 4) (10, 4) ∅ 1 = Some stk
    /\ a_star_step (10, 4) ∅ stk = inl st'
    /\ exists e rest pushed,
         stk.1 ≡ₚ e :: rest
         /\ st'.1 ≡ₚ pushed ++ rest
         /\ st'.2 = stk.2 ∪ {[ cell e.2 ]}
         /\ ([(0, root (1, 4))], ∅ : gset Pos).2 ⊆ st'.2
         /\ forall e', e' ∈ pushed -> cell e'.2 ∉ st'.2.
Proof.
  eexists _, _. split; [vm_compute; reflexivity|]. split; [vm_compute; reflexivity|].
  apply (a_star_visited_not_pushed (1, 4) (10, 4) ∅ 0 1 _ _ _ (le_S _ _ (le_n 0))).
  - reflexivity.
  - vm_compute. reflexivity.
  - vm_compute. reflexivity.
Defined.

(** Claim C2, as the specification has it, fails. From (1, 0) to (10, 4)
    with walls on (1, 2), (2, 2), (3, 0) and (3, 1), the cell (2, 1) gets two
    entries, one from (1, 1) and one from (2, 0), before either is popped:
    pass 3 pops the first and expands (2, 1), pass 4 pops the second and
    expands (2, 1) again, the cell being in the visited set by then. *)
Lemma a_star_expands_cell_twice :
  exists st3 st4,
    a_star_pass (1, 0) (10, 4) pocket_walls 3 = Some st3
    /\ a_star_pass (1, 0) (10, 4) pocket_walls 4 = Some st4
    /\ expands (10, 4) st3 (2, 1)
    /\ ((2, 1) ∈ st4.2)
    /\ expands (10, 4) st4 (2, 1).
Proof.
  eexists _, _. split; [vm_compute; reflexivity|]. split; [vm_compute; reflexivity|].
  split; [|split].
  - eexists _, _, _. split; [vm_compute; reflexivity|]. split; [reflexivity|]. done.
  - apply (bool_decide_unpack _). vm_compute. exact I.
  - eexists _, _, _. split; [vm_compute; reflexivity|]. split; [reflexivity|]. done.
Qed.

(** Claim C5. With the start on the goal the first pass pops the root, which
    is on the goal; the reconstruction follows the parents of the root, which
    has none, so that [a_star] returns the empty list, the value it returns
    when the open set runs empty. *)
Theorem a_star_start_is_goal p walls :
  path_back (root p) = []
  /\ a_star_step p walls ([(0, root p)], ∅) = inr (reverse (path_back (root p)))
  /\ a_star_step p walls ([], ∅) = inr []
  /\ find_path p p walls = [].
Proof.
  split; [reflexivity|]. split; [|split; [reflexivity|apply find_path_start_is_goal]].
  destruct p as [r c]. cbn. by rewrite decide_True.
Qed.

(** Claim C10. A path [a_star] returns that is not empty: each element is
    one unit cardinal step from the one before it, the first from the start;
    the last element is the goal; the start is not in the path; every
    element but the last is an interior cell that is not a wall; and whether
    the goal cell is a wall makes no difference, the goal test coming before
    the wall test. *)
Theorem a_star_path_shape walls start goal_pos :
  let path := find_path start goal_pos walls in
  path <> [] ->
  (forall i a b, (start :: path) !! i = Some a -> path !! i = Some b -> unit_step a b)
  /\ last path = Some goal_pos
  /\ (start ∉ path)
  /\ (forall i q, path !! i = Some q -> (i + 1 < length path)%nat ->
        interior q /\ (q ∉ walls))
  /\ find_path start goal_pos (walls ∪ {[ goal_pos ]}) = path.
Proof.
  intros path Hpath.
  assert (start <> goal_pos) as Hne.
  { intros ->. apply Hpath. apply find_path_start_is_goal. }
  pose proof (a_star_search_result walls start goal_pos Hne) as Hres.
  pose proof (find_path_goal_wall start goal_pos walls) as Hwall.
  fold path in Hres, Hwall. clearbody path.
  destruct Hres as [[-> _] | (Hroute & Hstart & _)]; [by destruct Hpath|].
  split; [exact (route_steps _ _ _ _ Hroute)|].
  split; [exact (route_last _ _ _ _ Hroute)|].
  split; [exact Hstart|]. split; [|exact Hwall].
  intros i q Hq Hi. apply (route_interior _ _ _ _ Hroute i q Hq). lia.
Qed.

(** An instance: the search from (1, 4) to (10, 4) round a wall on (2, 4). *)
Lemma a_star_path_shape_witness :
  find_path (1, 4) (10, 4) {[ (2, 4) ]} <> []
  /\ let path := find_path (1, 4) (10, 4) {[ (2, 4) ]} in
     (forall i a b, ((1, 4) :: path) !! i = Some a -> path !! i = Some b -> unit_step a b)
     /\ last path = Some (10, 4)
     /\ ((1, 4) ∉ path)
     /\ (forall i q, path !! i = Some q -> (i + 1 < length path)%nat ->
           interior q /\ (q ∉ ({[ (2, 4) ]} : gset Pos)))
     /\ find_path (1, 4) (10, 4) ({[ (2, 4) ]} ∪ {[ (10, 4) ]}) = path.
Proof.
  assert (find_path (1, 4) (10, 4) {[ (2, 4) ]} <> []) as H.
  { vm_compute. discriminate. }
  split; [exact H|].
  exact (a_star_path_shape {[ (2, 4) ]} (1, 4) (10, 4) H).
Defined.

(** ** The walls *)

(** Claim C3 fails for the blocking step of [handle_ai_turn]. The click path
    refuses the two positions and the two goals (line 418); the blocking step
    walls the first cell of the opponent's path unseen.  In a game against
    the program, once the player stands next to the goal, the program walls
    the player's goal cell: after [goal_wall_frames] the game is on, the
    player is on (9, 4) and the goal (10, 4) is a wall.  And when the player
    steps onto the cell above the program's piece, the player's path starts
    with the cell the piece stands on, and the program walls that cell. *)
Theorem ai_wall_on_goal_cell :
  (let w := play goal_wall_frames in
   reachable w
   /\ game_mode w = 0
   /\ game_over (game_state w) = false
   /\ player_pos (game_state w) = (9, 4)
   /\ player_goal (game_state w) ∈ walls (game_state w))
  /\ (let w := play own_cell_frames in
      let s1 := (after_events w [KEYDOWN K_d]).1.1 in
      reachable w
      /\ game_over s1 = false /\ player_moved s1 = true
      /\ ai_pos s1 = (2, 4)
      /\ (ai_pos s1 ∉ walls s1)
      /\ ai_pos s1 ∈ walls (ai_place_wall (tick s1) false)).
Proof.
  cbn zeta. split.
  - split; [apply reachable_play; vm_compute; reflexivity|].
    split; [vm_compute; reflexivity|]. split; [vm_compute; reflexivity|].
    split; [vm_compute; reflexivity|].
    apply (bool_decide_unpack _). vm_compute. exact I.
  - split; [apply reachable_play; vm_compute; reflexivity|].
    split; [vm_compute; reflexivity|]. split; [vm_compute; reflexivity|].
    split; [vm_compute; reflexivity|].
    split; apply (bool_decide_unpack _); vm_compute; exact I.
Qed.

(** Claim C4. A wall placement that is committed, by the click path
    ([player_place_wall]) or by the blocking step ([ai_place_wall], and so by
    [handle_ai_turn]): with the new wall set, [a_star] finds a path that is
    not empty from the player's position to the player's goal, and one from
    the AI's position to the AI's goal.  The positions are the ones the
    placement saw; a placement that changes a counter or the wall set has
    passed both tests. *)
Theorem committed_wall_keeps_both_paths s s' :
  (exists mouse_pos, s' = player_place_wall s mouse_pos)
  \/ (exists is_player_ai, s' = ai_place_wall s is_player_ai)
  \/ (exists is_player_ai, s' = handle_ai_turn s is_player_ai) ->
  player_walls_used s' <> player_walls_used s
  \/ ai_walls_used s' <> ai_walls_used s
  \/ walls s' <> walls s ->
  find_path (player_pos s) (player_goal s) (walls s') <> []
  /\ find_path (ai_pos s) (ai_goal s) (walls s') <> [].
Proof.
  intros Hop Hcommit. apply both_can_reach_spec.
  destruct Hop as [[mouse_pos ->] | [[is_player_ai ->] | [is_player_ai ->]]].
  - exact (player_place_wall_commit s mouse_pos Hcommit).
  - exact (ai_place_wall_commit s is_player_ai Hcommit).
  - exact (handle_ai_turn_commit s is_player_ai Hcommit).
Qed.

(** An instance: the first automated turn of a game places a wall. *)
Lemma committed_wall_keeps_both_paths_witness :
  ai_walls_used (handle_ai_turn reset_game false) <> ai_walls_used reset_game
  /\ find_path (player_pos reset_game) (player_goal reset_game)
               (walls (handle_ai_turn reset_game false)) <> []
  /\ find_path (ai_pos reset_game) (ai_goal reset_game)
               (walls (handle_ai_turn reset_game false)) <> [].
Proof.
  assert (ai_walls_used (handle_ai_turn reset_game false) <> ai_walls_used reset_game)
    as H.
  { vm_compute. discriminate. }
  split; [exact H|].
  apply (committed_wall_keeps_both_paths reset_game (handle_ai_turn reset_game false)).
  - right. right. exists false. reflexivity.
  - right. left. exact H.
Defined.

(** Claim C6. In a reachable game state neither counter exceeds
    [MAX_WALLS_PER_PLAYER]; and an attempt made with the budget of the acting
    side used up is refused: the click leaves the game state as it is, the
    blocking step leaves it as it is, and the automated turn built on it
    changes neither the wall set nor a counter. *)
Theorem wall_counters_bounded w :
  reachable w ->
  player_walls_used (game_state w) <= MAX_WALLS_PER_PLAYER
  /\ ai_walls_used (game_state w) <= MAX_WALLS_PER_PLAYER
  /\ forall s,
       (MAX_WALLS_PER_PLAYER <= player_walls_used s ->
        forall mouse_pos, player_place_wall s mouse_pos = s)
       /\ forall is_player_ai,
            MAX_WALLS_PER_PLAYER <= mover_walls_used s is_player_ai ->
            ai_place_wall s is_player_ai = s
            /\ walls (handle_ai_turn s is_player_ai) = walls s
            /\ player_walls_used (handle_ai_turn s is_player_ai) = player_walls_used s
            /\ ai_walls_used (handle_ai_turn s is_player_ai) = ai_walls_used s.
Proof.
  intros Hw. destruct (reachable_bounded w Hw) as [[_ Hp] [_ Ha]].
  split; [exact Hp|]. split; [exact Ha|]. intros s. split.
  - intros Hmax mouse_pos. apply player_place_wall_rejects.
    right. right. left. lia.
  - intros is_player_ai Hmax. split.
    + apply ai_place_wall_rejects. left. lia.
    + apply handle_ai_turn_no_budget. lia.
Qed.

(** An instance: after [goal_wall_frames] the program has used its ten
    walls, and its blocking step does nothing. *)
Lemma wall_counters_bounded_witness :
  let w := play goal_wall_frames in
  reachable w
  /\ ai_walls_used (game_state w) = MAX_WALLS_PER_PLAYER
  /\ ai_place_wall (game_state w) false = game_state w
  /\ walls (handle_ai_turn (game_state w) false) = walls (game_state w).
Proof.
  cbn zeta.
  assert (reachable (play goal_wall_frames)) as Hw.
  { apply reachable_play. vm_compute. reflexivity. }
  assert (ai_walls_used (game_state (play goal_wall_frames)) = MAX_WALLS_PER_PLAYER)
    as Hmax.
  { vm_compute. reflexivity. }
  split; [exact Hw|]. split; [exact Hmax|].
  destruct (wall_counters_bounded (play goal_wall_frames) Hw) as (_ & _ & Hrej).
  destruct (Hrej (game_state (play goal_wall_frames))) as [_ Hai].
  destruct (Hai false) as (H1 & H2 & _).
  - cbn [mover_walls_used]. rewrite Hmax. reflexivity.
  - split; [exact H1|exact H2].
Defined.

(** ** The automated turn *)

(** Claim C7. In an invocation of [handle_ai_turn], whatever the blocking
    step did (it is [ai_place_wall], which places a wall, or is refused, or is
    skipped), the wall set of the result is the one the blocking step left,
    the path of the automated side is computed from its position to its goal
    against that wall set, and the side is put on the first element of the
    path if there is one, and stays where it is if there is none. *)
Theorem ai_turn_moves_after_wall_step s is_player_ai :
  let s1 := ai_place_wall (tick s) is_player_ai in
  let s' := handle_ai_turn s is_player_ai in
  walls s' = walls s1
  /\ match find_path (mover_pos s is_player_ai) (mover_goal s is_player_ai)
                     (walls s1) with
     | [] => mover_pos s' is_player_ai = mover_pos s is_player_ai
     | step :: _ => mover_pos s' is_player_ai = step
     end.
Proof.
  cbn zeta. destruct (handle_ai_turn_move s is_player_ai) as [Hw Hm].
  split; [exact Hw|exact Hm].
Qed.

(** ** Refused requests *)

(** Claim C8. A refused request leaves the game state as it is. At any
    point of the event loop of a reachable state, a key whose target cell is
    outside the interior or a wall, and is not the player's goal, changes
    nothing; a click on a position or a goal, on a wall, with the budget used
    up, or that would leave a side without a path, changes nothing; and
    neither does the blocking step when the budget is used up, the opponent
    has no path, or the wall would leave a side without a path. *)
Theorem rejected_requests_are_noops w evs :
  reachable w ->
  let st := after_events w evs in
  let s := st.1.1 in
  (forall key t,
     key_target (player_pos s) key = Some t ->
     ~ interior t \/ t ∈ walls s ->
     t <> player_goal s ->
     handle_event (game_mode w) st (KEYDOWN key) = st)
  /\ (forall mouse_pos,
        let c := clicked_cell mouse_pos in
        c ∈ [player_pos s; ai_pos s; player_goal s; ai_goal s]
        \/ c ∈ walls s
        \/ player_walls_used s >= MAX_WALLS_PER_PLAYER
        \/ find_path (player_pos s) (player_goal s) (walls s ∪ {[ c ]}) = []
        \/ find_path (ai_pos s) (ai_goal s) (walls s ∪ {[ c ]}) = [] ->
        player_place_wall s mouse_pos = s)
  /\ (forall is_player_ai,
        mover_walls_used s is_player_ai >= MAX_WALLS_PER_PLAYER
        \/ match find_path (mover_pos s (negb is_player_ai))
                           (mover_goal s (negb is_player_ai)) (walls s) with
           | [] => True
           | block_pos :: _ =>
               find_path (player_pos s) (player_goal s) (walls s ∪ {[ block_pos ]}) = []
               \/ find_path (ai_pos s) (ai_goal s) (walls s ∪ {[ block_pos ]}) = []
           end ->
        ai_place_wall s is_player_ai = s).
Proof.
  intros Hw st s. split; [|split].
  - intros key t Ht Hbad Hgoal. exact (handle_event_rejects w evs key t Hw Ht Hbad Hgoal).
  - intros mouse_pos. exact (player_place_wall_rejects s mouse_pos).
  - intros is_player_ai. exact (ai_place_wall_rejects s is_player_ai).
Qed.

(** An instance: at the start of a game the key [w] asks for row 0, and a
    click on (1, 4) asks for a wall on the player's cell. *)
Lemma rejected_requests_are_noops_witness :
  let w := main_init (mkFrame [] (0, 0) false) in
  reachable w
  /\ handle_event (game_mode w) (after_events w []) (KEYDOWN K_w) = after_events w []
  /\ player_place_wall (after_events w []).1.1 (247, 82) = (after_events w []).1.1.
Proof.
  cbn zeta. split; [apply reachable_init|].
  destruct (rejected_requests_are_noops (main_init (mkFrame [] (0, 0) false)) []
              (reachable_init _)) as (Hkey & Hclick & _).
  split.
  - apply (Hkey K_w (0, 4)).
    + reflexivity.
    + left. intros [[H _] _]. apply H. reflexivity.
    + discriminate.
  - apply Hclick. left. apply (bool_decide_unpack _). vm_compute. exact I.
Defined.

(** ** The end of a game *)

(** Claim C9, as the code has it. The win conditions are tested in one
    place, the end of [handle_ai_turn], the player's before the AI's, and
    that is where the message is chosen.  A pass of the game loop that changes
    a position and leaves a side on its goal ends with the game over: a move
    of the player is followed, in the same pass, by the turn of the program,
    which ends with the test.  Once the game is over a pass leaves the game
    state as it is, or replaces it by a fresh one. *)
Theorem win_check_closes_the_pass w fr :
  (forall s is_player_ai,
     let s' := handle_ai_turn s is_player_ai in
     player_pos s' = player_goal s' \/ ai_pos s' = ai_goal s' ->
     game_over s' = true /\ result_message s' = win_message s' is_player_ai)
  /\ (let s' := game_state (main_frame w fr) in
      player_pos s' <> player_pos (game_state w)
      \/ ai_pos s' <> ai_pos (game_state w) ->
      player_pos s' = player_goal s' \/ ai_pos s' = ai_goal s' ->
      game_over s' = true)
  /\ (game_over (game_state w) = true ->
      game_state (main_frame w fr) = game_state w
      \/ game_state (main_frame w fr) = reset_game).
Proof.
  split; [|split].
  - intros s is_player_ai. exact (handle_ai_turn_win s is_player_ai).
  - exact (main_frame_win w fr).
  - exact (main_frame_after_game_over w fr).
Qed.

(** An instance: the pass in which the player steps onto the goal. *)
Lemma win_check_closes_the_pass_witness :
  let w := play win_frames in
  let s' := game_state (main_frame w (key_frame K_s)) in
  player_pos s' <> player_pos (game_state w)
  /\ player_pos s' = player_goal s'
  /\ game_over s' = true.
Proof.
  cbn zeta.
  assert (player_pos (game_state (main_frame (play win_frames) (key_frame K_s)))
          <> player_pos (game_state (play win_frames))) as H1.
  { vm_compute. discriminate. }
  assert (player_pos (game_state (main_frame (play win_frames) (key_frame K_s)))
          = player_goal (game_state (main_frame (play win_frames) (key_frame K_s))))
    as H2.
  { vm_compute. reflexivity. }
  split; [exact H1|]. split; [exact H2|].
  destruct (win_check_closes_the_pass (play win_frames) (key_frame K_s))
    as (_ & Hframe & _).
  apply Hframe; [left; exact H1|left; exact H2].
Defined.

(** Claim C9, as the specification has it, fails: a move of the player onto
    the goal is not followed by the test before the program acts.  After
    [win_frames] the player is on (9, 4); the key [s] puts the player on the
    goal (10, 4) with the game still on; in the same pass the program takes
    its turn, moving its piece from (1, 4) to (0, 4), and only then is the
    game over. *)
Lemma human_win_seen_after_ai_turn :
  let w := play win_frames in
  let fr := key_frame K_s in
  let s1 := (after_events w (events fr)).1.1 in
  let w' := main_frame w fr in
  reachable w /\ game_running w = true
  /\ player_pos (game_state w) = (9, 4)
  /\ player_pos s1 = player_goal s1 /\ game_over s1 = false
  /\ ai_pos s1 = (1, 4) /\ ai_pos (game_state w') = (0, 4)
  /\ turn_counter (game_state w') = turn_counter s1 + 1
  /\ game_over (game_state w') = true
  /\ result_message (game_state w') = "You reached the AI's goal! You win!"%string.
Proof.
  cbn zeta. split; [|split].
  1,2: apply reachable_play; vm_compute; reflexivity.
  repeat (split; [vm_compute; reflexivity|]). vm_compute. reflexivity.
Qed.

(** * Further properties of the code *)

(** ** The search *)

(** What holds at the start of a pass of a loop that held at its start and
    is kept by every pass. *)
Lemma loop_state_invariant {S R : Type} (body : S -> S + R) (P : S -> Prop) :
  (forall s s', P s -> body s = inl s' -> P s') ->
  forall n s s', P s -> loop_state n body s = Some s' -> P s'.
Proof.
  intros Hstep. induction n as [|n IH]; intros s s' Hs; cbn [loop_state].
  - intros [= <-]. exact Hs.
  - destruct (body s) as [s1|] eqn:E; [|discriminate]. apply IH. by apply (Hstep s).
Qed.

Lemma a_star_pass_search_inv start goal_pos walls k st :
  a_star_pass start goal_pos walls k = Some st -> search_inv walls start goal_pos st.
Proof.
  apply (loop_state_invariant _ (search_inv walls start goal_pos)).
  - intros s s'. apply search_inv_step.
  - apply search_inv_init.
Qed.

Lemma route_mono walls walls' goal_pos p l :
  walls ⊆ walls' -> route walls' goal_pos p l -> route walls goal_pos p l.
Proof.
  intros Hsub. revert p. induction l as [|q l IH]; intros p; cbn [route]; [done|].
  intros [Hs Hr]. split; [exact Hs|]. destruct l as [|q' l]; [exact Hr|].
  destruct Hr as (Hi & Hw & Hr). split; [exact Hi|]. split; [set_solver|by apply IH].
Qed.

(** The cells of a route after any of its cells are a route from that cell. *)
Lemma route_suffix walls goal_pos p l1 q l2 :
  route walls goal_pos p (l1 ++ q :: l2) ->
  match l2 with
  | [] => q = goal_pos
  | _ :: _ => interior q /\ (q ∉ walls) /\ route walls goal_pos q l2
  end.
Proof.
  revert p. induction l1 as [|a l1 IH]; intros p; cbn [app route].
  - by intros [_ H].
  - intros [_ H]. destruct (l1 ++ q :: l2) as [|b l] eqn:E.
    + by destruct l1.
    + destruct H as (_ & _ & H). by apply (IH a).
Qed.

(** A route that comes back to a cell can leave the loop out. *)
Lemma route_shortcut walls goal_pos p l1 q l2 l3 :
  route walls goal_pos p (l1 ++ q :: l2 ++ q :: l3) ->
  route walls goal_pos p (l1 ++ q :: l3).
Proof.
  revert p. induction l1 as [|a l1 IH]; intros p.
  - cbn [app]. intros Hr.
    pose proof (route_suffix walls goal_pos p (q :: l2) q l3 Hr) as Hq.
    destruct Hr as [Hs _]. cbn [route]. split; [exact Hs|exact Hq].
  - cbn [app route]. intros [Hs H]. split; [exact Hs|].
    destruct (l1 ++ q :: l2 ++ q :: l3) as [|b l] eqn:E; [by destruct l1|].
    destruct H as (Hi & Hw & H). apply IH in H.
    destruct (l1 ++ q :: l3) as [|b' l'] eqn:E'; [by destruct l1|].
    split; [exact Hi|]. split; [exact Hw|exact H].
Qed.

Lemma repeated_cell (l : list Pos) :
  ~ NoDup l -> exists l1 q l2 l3, l = l1 ++ q :: l2 ++ q :: l3.
Proof.
  induction l as [|a l IH]; intros H.
  - destruct H. constructor.
  - destruct (decide (a ∈ l)) as [Ha|Ha].
    + apply list_elem_of_split in Ha as (l2 & l3 & ->). by exists [], a, l2, l3.
    + destruct IH as (l1 & q & l2 & l3 & ->).
      { intros Hl. apply H. by constructor. }
      by exists (a :: l1), q, l2, l3.
Qed.

(** The first cell of a path that is not empty. *)
Lemma find_path_head walls start goal_pos step rest :
  find_path start goal_pos walls = step :: rest ->
  start <> goal_pos /\ step <> start /\ unit_step start step
  /\ route walls goal_pos start (step :: rest)
  /\ match rest with
     | [] => step = goal_pos
     | _ :: _ => step <> goal_pos /\ interior step /\ (step ∉ walls)
                 /\ route walls goal_pos step rest
     end.
Proof.
  intros E.
  assert (start <> goal_pos) as Hne.
  { intros ->. by rewrite find_path_start_is_goal in E. }
  destruct (a_star_search_result walls start goal_pos Hne)
    as [[E' _] | (Hr & Hs & Hmin)]; [congruence|].
  rewrite E in Hr, Hs, Hmin. split; [exact Hne|].
  split; [set_solver|]. pose proof Hr as [Hstep Hrest]. split; [exact Hstep|].
  split; [exact Hr|]. destruct rest as [|q rest]; [exact Hrest|].
  destruct Hrest as (Hi & Hw & Hrest). split; [|done].
  intros ->. specialize (Hmin [goal_pos]). cbn in Hmin.
  assert (2 <= 1)%nat; [|lia]. etrans; [|apply Hmin; by split]. lia.
Qed.

(** A route is found when there is one. *)
Lemma find_path_complete walls start goal_pos l :
  start <> goal_pos -> route walls goal_pos start l ->
  find_path start goal_pos walls <> []
  /\ (length (find_path start goal_pos walls) <= length l)%nat.
Proof.
  intros Hne Hl.
  destruct (a_star_search_result walls start goal_pos Hne)
    as [[_ Hno] | (Hr & _ & Hmin)]; [by destruct (Hno l)|].
  split; [by apply (route_nonempty walls goal_pos start)|by apply Hmin].
Qed.

(** *** Termination *)

(** [a_star] returns for every start node, goal and wall set: the main loop
    reaches a [return] within the bound the model gives it, so that the
    result is never cut short. *)
Theorem a_star_always_returns start_node goal_pos walls :
  exists k st path,
    loop_state k (a_star_step goal_pos walls) ([(0, start_node)], ∅) = Some st
    /\ a_star_step goal_pos walls st = inr path
    /\ a_star start_node goal_pos walls = path.
Proof.
  destruct (a_star_terminates start_node goal_pos walls) as [path Hrun].
  destruct (while_loop_passes _ _ _ _ Hrun) as (k & st & Hk & Hst).
  exists k, st, path. split; [exact Hk|]. split; [exact Hst|].
  by apply a_star_run.
Qed.

(** *** The heuristic *)

(** [heuristic] is the Manhattan distance to the goal: it is zero exactly on
    the goal, it drops by at most one along a unit step (consistency), and it
    never exceeds the length of a route to the goal (admissibility). *)
Theorem heuristic_admissible walls goal_pos n :
  0 <= heuristic n goal_pos
  /\ (heuristic n goal_pos = 0 <-> (row n, col n) = goal_pos)
  /\ (forall n', unit_step (row n, col n) (row n', col n') ->
        heuristic n goal_pos <= 1 + heuristic n' goal_pos)
  /\ (forall l, route walls goal_pos (row n, col n) l ->
        heuristic n goal_pos <= Z.of_nat (length l)).
Proof.
  split; [unfold heuristic; lia|]. split; [|split].
  - unfold heuristic. destruct goal_pos as [gr gc]. cbn [fst snd]. split.
    + intros H. f_equal; lia.
    + intros [= -> ->]. lia.
  - intros n' Hstep. rewrite !heuristic_manhattan. by apply manhattan_step.
  - intros l (Hw & Hlast & _)%route_walk.
    pose proof (walk_manhattan _ _ _ _ Hw) as H. rewrite Hlast in H.
    rewrite heuristic_manhattan. unfold cell. unfold manhattan in H at 2. lia.
Qed.

(** *** The open set *)

(** In every pass of the main loop the entry [heappop] takes from the open
    set is one of the least [f]: the open set is a heap whenever it is
    popped, and the priority of an entry is the [f] of its node. *)
Theorem a_star_pops_least start goal_pos walls k st e open_set' :
  a_star_pass start goal_pos walls k = Some st ->
  heapq.heappop tuple_lt st.1 = Some (e, open_set') ->
  st.1 ≡ₚ e :: open_set'
  /\ e.1 = f e.2
  /\ forall e', e' ∈ st.1 -> f e.2 <= f e'.2.
Proof.
  intros Hk Hpop. destruct (a_star_pass_search_inv _ _ _ _ _ Hk) as (Hheap & Hent & _).
  destruct (open_pop_ok _ _ _ Hheap Hpop) as [_ Hmin].
  pose proof (open_pop_perm _ _ _ Hpop) as Hperm.
  assert (e ∈ st.1) as He by (rewrite Hperm; left).
  split; [exact Hperm|]. split; [by apply Hent|].
  intros e' He'. destruct (Hent e He) as [_ <-]. destruct (Hent e' He') as [_ <-].
  by apply Hmin.
Qed.

(** An instance: the second pass of the search across the empty board. *)
Lemma a_star_pops_least_witness :
  exists st e open_set',
    a_star_pass (1, 4) (10, 4) ∅ 1 = Some st
    /\ heapq.heappop tuple_lt st.1 = Some (e, open_set')
    /\ st.1 ≡ₚ e :: open_set'
    /\ e.1 = f e.2
    /\ forall e', e' ∈ st.1 -> f e.2 <= f e'.2.
Proof.
  eexists _, _, _. split; [vm_compute; reflexivity|]. split; [vm_compute; reflexivity|].
  apply (a_star_pops_least (1, 4) (10, 4) ∅ 1); vm_compute; reflexivity.
Defined.

Lemma wf_node_steps walls start goal_pos n :
  wf_node walls start goal_pos n -> g n = Z.of_nat (length (path_back n)).
Proof.
  intros (_ & _ & H & _)%wf_node_path. unfold rev_path in H.
  by rewrite length_reverse in H.
Qed.

(** The costs of the nodes in the open set, in every pass: [g] is the
    number of steps of the path the node stands for; the root is on the start
    with [g] and [f] zero; every other node has [f = g + heuristic], its
    parent one step back with [g] one less; and the priority of the entry is
    [f]. *)
Theorem a_star_entry_costs start goal_pos walls k st e :
  a_star_pass start goal_pos walls k = Some st -> e ∈ st.1 ->
  e.1 = f e.2
  /\ g e.2 = Z.of_nat (length (path_back e.2))
  /\ match parent e.2 with
     | None => (row e.2, col e.2) = start /\ g e.2 = 0 /\ f e.2 = 0
     | Some p =>
         unit_step (row p, col p) (row e.2, col e.2)
         /\ g e.2 = g p + 1
         /\ f e.2 = g e.2 + heuristic e.2 goal_pos
     end.
Proof.
  intros Hk He. destruct (a_star_pass_search_inv _ _ _ _ _ Hk) as (_ & Hent & _).
  destruct (Hent e He) as [Hwf Hprio]. split; [exact Hprio|].
  split; [by apply (wf_node_steps walls start goal_pos)|].
  rewrite heuristic_manhattan. destruct e as [prio [r c [p|] g0 h0 f0]]; cbn in *.
  - destruct Hwf as (_ & _ & _ & Hs & _ & Hg & Hf). by destruct p.
  - exact Hwf.
Qed.

(** An instance: an entry of the open set after the first pass of the
    search across the empty board. *)
Lemma a_star_entry_costs_witness :
  exists st e,
    a_star_pass (1, 4) (10, 4) ∅ 1 = Some st /\ e ∈ st.1
    /\ e.1 = f e.2
    /\ g e.2 = Z.of_nat (length (path_back e.2))
    /\ match parent e.2 with
       | None => (row e.2, col e.2) = (1, 4) /\ g e.2 = 0 /\ f e.2 = 0
       | Some p =>
           unit_step (row p, col p) (row e.2, col e.2)
           /\ g e.2 = g p + 1
           /\ f e.2 = g e.2 + heuristic e.2 (10, 4)
       end.
Proof.
  eexists _, _. split; [vm_compute; reflexivity|].
  split; [apply list_elem_of_here|].
  eapply (a_star_entry_costs (1, 4) (10, 4) ∅ 1).
  - vm_compute. reflexivity.
  - apply list_elem_of_here.
Defined.

(** *** Walls and paths *)

(** Walls can only lengthen a path: with more walls, a path that is still
    found is no shorter than the one found before, and a path that was not
    found is not found either. *)
Theorem a_star_more_walls walls walls' start goal_pos :
  walls ⊆ walls' ->
  find_path start goal_pos walls' <> [] ->
  find_path start goal_pos walls <> []
  /\ (length (find_path start goal_pos walls)
      <= length (find_path start goal_pos walls'))%nat.
Proof.
  intros Hsub Hpath.
  destruct (find_path start goal_pos walls') as [|step rest] eqn:E; [done|].
  destruct (find_path_head _ _ _ _ _ E) as (Hne & _ & _ & Hr & _).
  apply (find_path_complete walls start goal_pos (step :: rest) Hne).
  by apply (route_mono walls walls').
Qed.

(** An instance: the board with and without a wall on (2, 4). *)
Lemma a_star_more_walls_witness :
  (∅ : gset Pos) ⊆ {[ (2, 4) ]}
  /\ find_path (1, 4) (10, 4) {[ (2, 4) ]} <> []
  /\ find_path (1, 4) (10, 4) ∅ <> []
  /\ Nat.le (length (find_path (1, 4) (10, 4) ∅))
            (length (find_path (1, 4) (10, 4) {[ (2, 4) ]})).
Proof.
  assert ((∅ : gset Pos) ⊆ {[ (2, 4) ]}) as Hsub by apply empty_subseteq.
  assert (find_path (1, 4) (10, 4) {[ (2, 4) ]} <> []) as H.
  { vm_compute. discriminate. }
  split; [exact Hsub|]. split; [exact H|].
  exact (a_star_more_walls ∅ {[ (2, 4) ]} (1, 4) (10, 4) Hsub H).
Defined.

(** Walking along a path keeps to it: from the first cell of a path, when
    it is not the goal yet, [a_star] finds a path that is one cell shorter. *)
Theorem a_star_first_step_progress walls start goal_pos step rest :
  find_path start goal_pos walls = step :: rest ->
  (rest = [] <-> step = goal_pos)
  /\ (rest <> [] -> length (find_path step goal_pos walls) = length rest).
Proof.
  intros E. destruct (find_path_head _ _ _ _ _ E) as (Hne & _ & Hstep & Hr & Hrest).
  destruct rest as [|q rest].
  - split; [done|]. by intros [].
  - destruct Hrest as (Hsg & Hi & Hw & Hrest). split; [split; [done|intros Hg; by destruct Hsg]|].
    intros _. destruct (find_path_complete walls step goal_pos _ Hsg Hrest) as [Hfound Hle].
    apply Nat.le_antisymm; [exact Hle|].
    destruct (find_path step goal_pos walls) as [|q' rest'] eqn:E'; [done|].
    destruct (find_path_head _ _ _ _ _ E') as (_ & _ & _ & Hr' & _).
    assert (route walls goal_pos start (step :: q' :: rest')) as Hlong.
    { split; [exact Hstep|]. split; [exact Hi|]. split; [exact Hw|exact Hr']. }
    destruct (find_path_complete walls start goal_pos _ Hne Hlong) as [_ Hmin].
    rewrite E in Hmin. cbn [length] in *. lia.
Qed.

(** An instance: the first step across the empty board. *)
Lemma a_star_first_step_progress_witness :
  exists step rest,
    find_path (1, 4) (10, 4) ∅ = step :: rest
    /\ (rest = [] <-> step = (10, 4))
    /\ (rest <> [] -> length (find_path step (10, 4) ∅) = length rest).
Proof.
  eexists _, _. split; [vm_compute; reflexivity|].
  eapply (a_star_first_step_progress ∅ (1, 4) (10, 4)). vm_compute. reflexivity.
Defined.

(** A path never comes back to a cell: its cells, the start before them,
    are pairwise different. *)
Theorem a_star_path_no_repeat walls start goal_pos :
  NoDup (start :: find_path start goal_pos walls).
Proof.
  destruct (find_path start goal_pos walls) as [|step rest] eqn:E.
  { apply NoDup_singleton. }
  destruct (find_path_head _ _ _ _ _ E) as (Hne & _ & _ & Hr & _).
  destruct (a_star_search_result walls start goal_pos Hne)
    as [[E' _] | (_ & Hs & Hmin)]; [congruence|].
  rewrite E in Hs, Hmin. apply NoDup_cons. split; [exact Hs|].
  destruct (decide (NoDup (step :: rest))) as [Hnd|Hnd]; [exact Hnd|].
  apply repeated_cell in Hnd as (l1 & q & l2 & l3 & Hl). rewrite Hl in Hr, Hmin.
  apply route_shortcut, Hmin in Hr. rewrite !length_app in Hr. cbn [length] in Hr.
  rewrite length_app in Hr. cbn [length] in Hr. lia.
Qed.

Lemma a_star_neighbor_walls_agree current goal_pos walls walls' visited open_set d :
  (forall p, in_bounds p = true -> p <> goal_pos -> p ∈ walls <-> p ∈ walls') ->
  a_star_neighbor current goal_pos walls visited open_set d
  = a_star_neighbor current goal_pos walls' visited open_set d.
Proof.
  intros Hagree. unfold a_star_neighbor. case_decide as Hg; [done|].
  destruct (in_bounds _) eqn:Hb; cbn [negb]; [|done].
  specialize (Hagree _ Hb Hg).
  destruct (decide (_ ∈ walls)) as [H|H], (decide (_ ∈ walls')) as [H'|H'];
    try done; tauto.
Qed.

(** Only the walls on interior cells other than the goal count: two wall
    sets that agree on those cells give the same path.  A wall on a goal row,
    outside the board or on the goal cell changes nothing. *)
Theorem a_star_reads_interior_walls walls walls' start goal_pos :
  (forall p, interior p -> p <> goal_pos -> p ∈ walls <-> p ∈ walls') ->
  find_path start goal_pos walls = find_path start goal_pos walls'.
Proof.
  intros Hagree. apply find_path_ext. intros [open_set visited]. unfold a_star_step.
  destruct (heapq.heappop _ _) as [[[prio current] open_set']|]; [|done].
  case_decide; [done|]. do 2 f_equal.
  generalize directions as ds. intros ds. revert open_set'.
  induction ds as [|d ds IH]; intros open_set'; [done|].
  cbn [fold_left]. rewrite IH. f_equal. apply a_star_neighbor_walls_agree.
  intros p Hp. apply Hagree. by apply in_bounds_interior.
Qed.

(** An instance: walls on a goal row, on the goal and off the board. *)
Lemma a_star_reads_interior_walls_witness :
  (forall p, interior p -> p <> (10, 4) ->
     p ∈ ({[ (0, 0); (10, 4); (3, 9) ]} : gset Pos) <-> p ∈ (∅ : gset Pos))
  /\ find_path (1, 4) (10, 4) {[ (0, 0); (10, 4); (3, 9) ]} = find_path (1, 4) (10, 4) ∅.
Proof.
  assert (forall p, interior p -> p <> (10, 4) ->
            p ∈ ({[ (0, 0); (10, 4); (3, 9) ]} : gset Pos) <-> p ∈ (∅ : gset Pos)) as H.
  { intros [r c] [Hr Hc] Hg. cbn [fst snd] in Hr, Hc.
    unfold TOTAL_ROWS, BOARD_ROWS, GOAL_ROWS, BOARD_COLS in Hr, Hc.
    rewrite !elem_of_union, !elem_of_singleton, elem_of_empty. split; [|done].
    intros [[[= -> ->] | ?] | [= -> ->]]; [lia|done|lia]. }
  split; [exact H|].
  exact (a_star_reads_interior_walls _ _ (1, 4) (10, 4) H).
Defined.

(** ** The game *)

(** *** An automated turn, field by field *)

Lemma both_can_reach_sides s walls_candidate :
  both_can_reach s walls_candidate = true <->
  forall b, find_path (mover_pos s b) (mover_goal s b) walls_candidate <> [].
Proof.
  rewrite both_can_reach_spec. split.
  - intros [Hp Ha] [|]; [exact Hp|exact Ha].
  - intros H. split; [exact (H true)|exact (H false)].
Qed.

(** The blocking step: what it leaves alone, and the wall it adds when it
    adds one. *)
Lemma ai_place_wall_summary s b :
  let s' := ai_place_wall s b in
  (forall b', mover_pos s' b' = mover_pos s b' /\ mover_goal s' b' = mover_goal s b')
  /\ game_over s' = game_over s /\ player_moved s' = player_moved s
  /\ turn_counter s' = turn_counter s
  /\ mover_walls_used s' (negb b) = mover_walls_used s (negb b)
  /\ ((walls s' = walls s /\ mover_walls_used s' b = mover_walls_used s b)
      \/ exists block_pos rest,
           mover_walls_used s b < MAX_WALLS_PER_PLAYER
           /\ find_path (mover_pos s (negb b)) (mover_goal s (negb b)) (walls s)
              = block_pos :: rest
           /\ both_can_reach s (walls s ∪ {[ block_pos ]}) = true
           /\ walls s' = walls s ∪ {[ block_pos ]}
           /\ mover_walls_used s' b = mover_walls_used s b + 1).
Proof.
  cbn zeta.
  destruct (ai_place_wall_cases s b) as [-> | (blk & rest & Hlt & Hpath & Hreach & ->)].
  - repeat match goal with |- _ /\ _ => split end; try reflexivity.
    + intros b'. by split.
    + by left.
  - repeat match goal with |- _ /\ _ => split end.
    + intros b'. by destruct b, b'.
    + by destruct b.
    + by destruct b.
    + by destruct b.
    + by destruct b.
    + right. exists blk, rest. by destruct b.
Qed.

(** The move: what it leaves alone, and where it puts the mover. *)
Lemma ai_move_summary s b :
  let s' := ai_move s b in
  walls s' = walls s
  /\ (forall b', mover_goal s' b' = mover_goal s b'
                 /\ mover_walls_used s' b' = mover_walls_used s b')
  /\ game_over s' = game_over s /\ player_moved s' = player_moved s
  /\ turn_counter s' = turn_counter s
  /\ mover_pos s' (negb b) = mover_pos s (negb b)
  /\ match find_path (mover_pos s b) (mover_goal s b) (walls s) with
     | [] => mover_pos s' b = mover_pos s b
     | step :: _ => mover_pos s' b = step
     end.
Proof.
  cbn zeta. pose proof (ai_move_cases s b) as H.
  destruct (find_path _ _ _) as [|step rest]; rewrite H.
  - repeat match goal with |- _ /\ _ => split end; try reflexivity. intros b'. by split.
  - repeat match goal with |- _ /\ _ => split end;
      first [by destruct b | intros b'; by destruct b, b'].
Qed.

(** The win check: what it leaves alone, and the flag it sets. *)
Lemma check_win_summary s b :
  let s' := check_win s b in
  walls s' = walls s
  /\ (forall b', mover_pos s' b' = mover_pos s b' /\ mover_goal s' b' = mover_goal s b'
                 /\ mover_walls_used s' b' = mover_walls_used s b')
  /\ player_moved s' = player_moved s
  /\ turn_counter s' = turn_counter s
  /\ (on_goal s true \/ on_goal s false -> game_over s' = true)
  /\ (~ (on_goal s true \/ on_goal s false) -> game_over s' = game_over s).
Proof.
  cbn zeta. rewrite check_win_spec. unfold on_goal, mover_pos, mover_goal.
  case_decide as Hg.
  - repeat match goal with |- _ /\ _ => split end; try reflexivity; [|done].
    intros b'. by destruct b'.
  - repeat match goal with |- _ /\ _ => split end; try reflexivity; [|done].
    intros b'. by destruct b'.
Qed.

Lemma tick_summary s :
  walls (tick s) = walls s
  /\ (forall b', mover_pos (tick s) b' = mover_pos s b'
                 /\ mover_goal (tick s) b' = mover_goal s b'
                 /\ mover_walls_used (tick s) b' = mover_walls_used s b')
  /\ game_over (tick s) = game_over s /\ player_moved (tick s) = player_moved s
  /\ turn_counter (tick s) = turn_counter s + 1
  /\ (forall W, both_can_reach (tick s) W = both_can_reach s W).
Proof. repeat match goal with |- _ /\ _ => split end; try reflexivity. by intros []. Qed.

(** An automated turn, field by field. *)
Lemma handle_ai_turn_summary s b :
  let s' := handle_ai_turn s b in
  turn_counter s' = turn_counter s + 1
  /\ player_moved s' = player_moved s
  /\ (forall b', mover_goal s' b' = mover_goal s b')
  /\ mover_pos s' (negb b) = mover_pos s (negb b)
  /\ mover_walls_used s' (negb b) = mover_walls_used s (negb b)
  /\ ((walls s' = walls s /\ mover_walls_used s' b = mover_walls_used s b)
      \/ exists block_pos rest,
           mover_walls_used s b < MAX_WALLS_PER_PLAYER
           /\ find_path (mover_pos s (negb b)) (mover_goal s (negb b)) (walls s)
              = block_pos :: rest
           /\ both_can_reach s (walls s ∪ {[ block_pos ]}) = true
           /\ walls s' = walls s ∪ {[ block_pos ]}
           /\ mover_walls_used s' b = mover_walls_used s b + 1)
  /\ match find_path (mover_pos s b) (mover_goal s b) (walls s') with
     | [] => mover_pos s' b = mover_pos s b
     | step :: _ => mover_pos s' b = step
     end
  /\ (on_goal s' true \/ on_goal s' false -> game_over s' = true)
  /\ (~ (on_goal s' true \/ on_goal s' false) -> game_over s' = game_over s).
Proof.
  cbn zeta. rewrite handle_ai_turn_unfold.
  destruct (tick_summary s) as (T1 & T2 & T3 & T4 & T5 & T6).
  destruct (ai_place_wall_summary (tick s) b) as (P1 & P2 & P3 & P4 & P5 & P6).
  revert P1 P2 P3 P4 P5 P6. cbn zeta. generalize (ai_place_wall (tick s) b).
  intros s1 P1 P2 P3 P4 P5 P6.
  destruct (ai_move_summary s1 b) as (M1 & M2 & M3 & M4 & M5 & M6 & M7).
  revert M1 M2 M3 M4 M5 M6 M7. cbn zeta. generalize (ai_move s1 b).
  intros s2 M1 M2 M3 M4 M5 M6 M7.
  destruct (check_win_summary s2 b) as (C1 & C2 & C3 & C4 & C5 & C6).
  revert C1 C2 C3 C4 C5 C6. cbn zeta. generalize (check_win s2 b).
  intros s3 C1 C2 C3 C4 C5 C6.
  assert (forall b', mover_pos s3 b' = mover_pos s2 b'
                     /\ mover_goal s3 b' = mover_goal s b'
                     /\ mover_walls_used s3 b' = mover_walls_used s1 b') as F3.
  { intros b'. destruct (C2 b') as (-> & -> & ->). destruct (M2 b') as [-> ->].
    destruct (P1 b') as [_ ->]. destruct (T2 b') as (_ & -> & _). done. }
  assert (on_goal s3 true \/ on_goal s3 false <-> on_goal s2 true \/ on_goal s2 false)
    as Hgoal.
  { unfold on_goal. destruct (C2 true) as (-> & -> & _).
    by destruct (C2 false) as (-> & -> & _). }
  assert (walls s3 = walls s1) as W3 by congruence.
  split; [congruence|]. split; [congruence|].
  split; [intros b'; apply F3|].
  split. { destruct (F3 (negb b)) as (-> & _). rewrite M6.
           destruct (P1 (negb b)) as [-> _]. by destruct (T2 (negb b)) as (-> & _). }
  split. { destruct (F3 (negb b)) as (_ & _ & ->). rewrite P5.
           by destruct (T2 (negb b)) as (_ & _ & ->). }
  split.
  { rewrite W3. destruct (F3 b) as (_ & _ & ->).
    destruct (T2 b) as (Tp & Tg & Tw). destruct (T2 (negb b)) as (Tp' & Tg' & _).
    rewrite Tw, Tp', Tg', T1 in P6.
    destruct P6 as [[-> ->] | (blk & rest & ? & ? & Hr & -> & ->)]; [by left|].
    right. exists blk, rest. rewrite T6 in Hr. done. }
  split.
  { rewrite W3. destruct (F3 b) as (-> & _).
    destruct (P1 b) as [Pp Pg]. destruct (T2 b) as (Tp & Tg & _).
    rewrite Pp, Pg, Tp, Tg in M7. exact M7. }
  split.
  - intros H. apply C5, Hgoal, H.
  - intros H. rewrite C6; [congruence|]. by rewrite <- Hgoal.
Qed.

(** *** What a pass keeps true *)

(** From the first cell of a path that goes on, a path is found. *)
Lemma find_path_after_step walls start goal_pos step rest :
  find_path start goal_pos walls = step :: rest -> rest <> [] ->
  find_path step goal_pos walls <> [].
Proof.
  intros E Hrest. destruct (find_path_head _ _ _ _ _ E) as (_ & _ & _ & _ & H).
  destruct rest as [|q rest]; [done|]. destruct H as (Hsg & _ & _ & Hr).
  by apply (find_path_complete walls step goal_pos (q :: rest)).
Qed.

Lemma side_ok_on_goal s b : on_goal s b -> side_ok s b.
Proof. by left. Qed.

(** An automated turn taken by a side that has a path, in a game that is
    on, moves the side by one step and leaves both sides well placed. *)
Lemma handle_ai_turn_ok s b :
  game_over s = false -> ~ on_goal s b -> side_ok s b -> side_ok s (negb b) ->
  let s' := handle_ai_turn s b in
  unit_step (mover_pos s b) (mover_pos s' b)
  /\ (game_over s' = true <-> on_goal s' true \/ on_goal s' false)
  /\ side_ok s' b /\ side_ok s' (negb b).
Proof.
  intros Hover Hnot [Hb|(Hbi & Hbw & Hbp)] Hopp; [done|]. specialize (Hbp Hover).
  cbn zeta.
  destruct (handle_ai_turn_summary s b) as (_ & _ & Hgoal & Hop & _ & Hwall & Hmove & Hwin & Hon).
  revert Hgoal Hop Hwall Hmove Hwin Hon. cbn zeta. generalize (handle_ai_turn s b).
  intros s' Hgoal Hop Hwall Hmove Hwin Hon.
  (* the mover has a path against the walls the turn leaves *)
  assert (find_path (mover_pos s b) (mover_goal s b) (walls s') <> []) as Hpath.
  { destruct Hwall as [[-> _] | (blk & rest & _ & _ & Hreach & -> & _)]; [exact Hbp|].
    by apply both_can_reach_sides. }
  destruct (find_path (mover_pos s b) (mover_goal s b) (walls s')) as [|step rest] eqn:E;
    [done|].
  destruct (find_path_head _ _ _ _ _ E) as (_ & _ & Hstep & _ & Hrest).
  assert (game_over s' = true <-> on_goal s' true \/ on_goal s' false) as Hiff.
  { split; [|exact Hwin]. intros Hs'.
    destruct (decide (on_goal s' true \/ on_goal s' false)) as [H|H]; [exact H|].
    rewrite (Hon H) in Hs'. congruence. }
  split; [by rewrite Hmove|]. split; [exact Hiff|]. split.
  - (* the mover *)
    unfold side_ok, on_goal. rewrite Hmove, Hgoal.
    destruct rest as [|q rest]; [by left|]. destruct Hrest as (_ & Hi & Hw & _).
    right. split; [exact Hi|]. split; [exact Hw|]. intros _.
    by apply (find_path_after_step _ _ _ _ _ E).
  - (* the other side *)
    unfold side_ok, on_goal. rewrite Hop, Hgoal.
    destruct Hopp as [Ho|(Hoi & How & Hopath)]; [by left|]. specialize (Hopath Hover).
    right. split; [exact Hoi|].
    destruct Hwall as [[-> _] | (blk & rest' & _ & Hblk & Hreach & -> & _)]; [done|].
    destruct (find_path_head _ _ _ _ _ Hblk) as (_ & Hne & _).
    split; [set_solver|]. intros _. by apply both_can_reach_sides.
Qed.

Lemma key_target_step p key t : key_target p key = Some t -> unit_step t p.
Proof.
  destruct p as [r c]. unfold unit_step.
  destruct key; intros [= <-]; cbn [fst snd]; lia.
Qed.

(** Where a pass of the game loop takes the game state. *)
Lemma main_frame_cases w fr :
  let s0 := game_state w in
  let s' := game_state (main_frame w fr) in
  (game_over s0 = true /\ (s' = s0 \/ s' = reset_game))
  \/ (game_over s0 = false /\ game_mode w = 0 /\ player_moved s0 = false
      /\ (s' = s0 \/ s' = player_place_wall s0 (mouse_pos fr)))
  \/ (game_over s0 = false /\ game_mode w = 0 /\ player_moved s0 = true
      /\ s' = set_player_moved false (handle_ai_turn s0 false))
  \/ (game_over s0 = false /\ game_mode w = 0 /\ player_moved s0 = false
      /\ exists key t,
           key_target (player_pos s0) key = Some t
           /\ (t = player_goal s0
               \/ ((t ∉ walls s0) /\ (interior (player_pos s0) -> interior t)))
           /\ s' = set_player_moved false
                     (handle_ai_turn (set_player_moved true (set_player_pos t s0)) false))
  \/ (game_over s0 = false /\ game_mode w <> 0
      /\ s' = handle_ai_turn s0 (bool_decide (turn_counter s0 mod 2 = 0))).
Proof.
  cbn zeta. rewrite main_frame_state.
  pose proof (after_events_one_move w (events fr)) as Hev.
  revert Hev. generalize ((after_events w (events fr)).1.1).
  generalize ((after_events w (events fr)).1.2). intros mouse_clicked s1 Hev.
  destruct Hev as [-> | (key & t & Ho & Hmode & Hp & Ht & -> & Hfree)].
  - unfold after_loop. destruct (game_over (game_state w)) eqn:Hover; cbn [negb].
    { left. split; [reflexivity|]. destruct (_ && _); [by right|by left]. }
    right. unfold play_turn. case_bool_decide as Hmode; cbn [andb].
    + destruct (player_moved (game_state w)) eqn:Hp.
      * rewrite andb_false_r, Hp. right. left. done.
      * left. rewrite andb_true_r. destruct mouse_clicked.
        -- destruct (player_place_wall_frame (game_state w) (mouse_pos fr))
             as (_ & _ & _ & _ & _ & -> & _).
           rewrite Hp. split; [done|]. split; [done|]. split; [done|]. by right.
        -- rewrite Hp. split; [done|]. split; [done|]. split; [done|]. by left.
    + do 3 right. split; [done|]. split; [done|]. by case_bool_decide.
  - do 3 right. left. split; [done|]. split; [done|]. split; [done|].
    exists key, t. split; [done|]. split; [done|].
    unfold after_loop, play_turn. rewrite Hmode. cbn. rewrite Ho. cbn.
    rewrite andb_false_r, bool_decide_eq_true_2 by done. reflexivity.
Qed.

Lemma sides_ok_moved v s : sides_ok (set_player_moved v s) <-> sides_ok s.
Proof. reflexivity. Qed.

Lemma player_moved_set v s : player_moved (set_player_moved v s) = v.
Proof. reflexivity. Qed.

Lemma reset_game_ok : state_ok reset_game.
Proof.
  split; [reflexivity|]. split; [|split].
  - split; [discriminate|]. intros [[=]|[=]].
  - right. split; [exact reset_game_inside|]. split; [apply not_elem_of_empty|].
    intros _. vm_compute. discriminate.
  - right. split; [|split; [apply not_elem_of_empty|]].
    + repeat split; cbv; discriminate.
    + intros _. vm_compute. discriminate.
Qed.

(** A wall the player places leaves both sides well placed. *)
Lemma player_place_wall_ok s mouse_pos :
  sides_ok s -> sides_ok (player_place_wall s mouse_pos).
Proof.
  intros Hs.
  destruct (player_place_wall_cases s mouse_pos)
    as [-> | (Hcell & _ & _ & Hreach & ->)]; [exact Hs|].
  destruct Hs as (Hiff & Hp & Ha).
  assert (forall b, side_ok s b ->
            side_ok (set_player_walls_used (player_walls_used s + 1)
                       (set_walls (walls s ∪ {[clicked_cell mouse_pos]}) s)) b) as Hside.
  { intros b [Hg|(Hi & Hw & _)]; [by left|]. right. split; [exact Hi|]. split.
    - assert (mover_pos s b <> clicked_cell mouse_pos); [|set_solver].
      intros Heq. apply Hcell. rewrite <- Heq.
      destruct b; [left|right; left]. 
    - intros _. by apply (proj1 (both_can_reach_sides s _) Hreach b). }
  split; [exact Hiff|]. split; by apply Hside.
Qed.

(** The state after a key has moved the player is ready for the program's
    turn. *)
Lemma player_step_ok s key t :
  sides_ok s -> game_over s = false ->
  key_target (player_pos s) key = Some t ->
  t = player_goal s \/ ((t ∉ walls s) /\ (interior (player_pos s) -> interior t)) ->
  let s1 := set_player_moved true (set_player_pos t s) in
  game_over s1 = false /\ ~ on_goal s1 false /\ side_ok s1 false /\ side_ok s1 true.
Proof.
  intros (Hiff & Hp & Ha) Hover Ht Hfree. cbn zeta.
  assert (~ (on_goal s true \/ on_goal s false)) as Hnot.
  { intros H. apply Hiff in H. congruence. }
  split; [exact Hover|]. split; [tauto|]. split; [exact Ha|].
  destruct Hp as [Hg|(Hi & Hw & Hpath)]; [tauto|]. specialize (Hpath Hover).
  destruct Hfree as [->|[Htw Hti]]; [by left|].
  destruct (decide (t = player_goal s)) as [->|Hne]; [by left|].
  right. split; [exact (Hti Hi)|]. split; [exact Htw|]. intros _.
  cbn [mover_pos mover_goal] in *.
  destruct (find_path (player_pos s) (player_goal s) (walls s)) as [|step rest] eqn:E;
    [done|].
  destruct (find_path_head _ _ _ _ _ E) as (_ & _ & _ & Hr & _).
  apply (find_path_complete (walls s) t (player_goal s)
           (player_pos s :: step :: rest) Hne).
  split; [by apply (key_target_step _ key)|]. split; [exact Hi|]. split; [exact Hw|exact Hr].
Qed.

Lemma state_ok_turn s b :
  state_ok s -> game_over s = false ->
  unit_step (mover_pos s b) (mover_pos (handle_ai_turn s b) b)
  /\ state_ok (handle_ai_turn s b).
Proof.
  intros (Hmoved & Hiff & Hp & Ha) Hover.
  assert (~ (on_goal s true \/ on_goal s false)) as Hnot.
  { intros H. apply Hiff in H. congruence. }
  destruct (handle_ai_turn_summary s b) as (_ & Hm & _).
  destruct (handle_ai_turn_ok s b Hover) as (Hstep & Hiff' & Hb & Hnb).
  - destruct b; tauto.
  - by destruct b.
  - by destruct b.
  - split; [exact Hstep|]. split; [congruence|]. split; [exact Hiff'|].
    destruct b; by split.
Qed.

(** A pass of the game loop keeps the state well formed. *)
Lemma main_frame_ok w fr :
  state_ok (game_state w) -> state_ok (game_state (main_frame w fr)).
Proof.
  intros Hok.
  destruct (main_frame_cases w fr)
    as [(_ & [-> | ->])
       |[(_ & _ & Hp & [-> | ->])
        |[(_ & _ & Hp & _)
         |[(Hover & _ & Hp & key & t & Ht & Hfree & ->)
          |(Hover & _ & ->)]]]].
  - exact Hok.
  - exact reset_game_ok.
  - exact Hok.
  - destruct Hok as [Hm Hs]. split; [|by apply player_place_wall_ok].
    by destruct (player_place_wall_frame (game_state w) (mouse_pos fr))
      as (_ & _ & _ & _ & _ & -> & _).
  - destruct Hok as [Hm _]. congruence.
  - destruct Hok as [_ Hs].
    destruct (player_step_ok _ key t Hs Hover Ht Hfree) as (Ho1 & Hn1 & Ha1 & Hp1).
    destruct (handle_ai_turn_ok _ false Ho1 Hn1 Ha1 Hp1) as (_ & Hiff & Ha' & Hp').
    split; [apply player_moved_set|]. apply sides_ok_moved. by split.
  - by apply state_ok_turn.
Qed.

Lemma reachable_state_ok w : reachable w -> state_ok (game_state w).
Proof.
  induction 1 as [fr|w fr _ IH _]; [exact reset_game_ok|by apply main_frame_ok].
Qed.

(** *** The number of walls *)

Lemma size_add_wall (W : gset Pos) c :
  Z.of_nat (size (W ∪ {[ c ]})) <= Z.of_nat (size W) + 1.
Proof.
  assert (size (W ∪ {[ c ]}) <= size W + 1)%nat; [|lia].
  rewrite size_union_alt.
  assert (size ({[ c ]} ∖ W) <= size ({[ c ]} : gset Pos))%nat as H.
  { apply subseteq_size. set_solver. }
  rewrite size_singleton in H. lia.
Qed.

Lemma counters_sum s b :
  player_walls_used s + ai_walls_used s
  = mover_walls_used s b + mover_walls_used s (negb b).
Proof. destruct b; cbn; lia. Qed.

Lemma handle_ai_turn_counted s b :
  walls_counted s -> walls_counted (handle_ai_turn s b).
Proof.
  unfold walls_counted. intros H.
  destruct (handle_ai_turn_summary s b) as (_ & _ & _ & _ & Hopp & Hwall & _).
  rewrite (counters_sum _ b), Hopp. rewrite (counters_sum _ b) in H.
  destruct Hwall as [[-> ->] | (blk & rest & _ & _ & _ & -> & ->)]; [exact H|].
  pose proof (size_add_wall (walls s) blk). lia.
Qed.

Lemma player_place_wall_counted s mouse_pos :
  walls_counted s -> walls_counted (player_place_wall s mouse_pos).
Proof.
  unfold walls_counted. intros H.
  destruct (player_place_wall_cases s mouse_pos) as [-> | (_ & _ & _ & _ & ->)];
    [exact H|].
  cbn. pose proof (size_add_wall (walls s) (clicked_cell mouse_pos)). lia.
Qed.

Lemma walls_counted_moved v s : walls_counted (set_player_moved v s) <-> walls_counted s.
Proof. reflexivity. Qed.

Lemma main_frame_counted w fr :
  walls_counted (game_state w) -> walls_counted (game_state (main_frame w fr)).
Proof.
  intros Hok.
  destruct (main_frame_cases w fr)
    as [(_ & [-> | ->])
       |[(_ & _ & _ & [-> | ->])
        |[(_ & _ & _ & ->)
         |[(_ & _ & _ & key & t & _ & _ & ->)
          |(_ & _ & ->)]]]].
  - exact Hok.
  - unfold walls_counted. cbn. rewrite size_empty. lia.
  - exact Hok.
  - by apply player_place_wall_counted.
  - apply walls_counted_moved. by apply handle_ai_turn_counted.
  - apply walls_counted_moved. apply handle_ai_turn_counted. exact Hok.
  - by apply handle_ai_turn_counted.
Qed.

Lemma reachable_counted w : reachable w -> walls_counted (game_state w).
Proof.
  induction 1 as [fr|w fr _ IH _]; [|by apply main_frame_counted].
  unfold walls_counted. cbn. rewrite size_empty. lia.
Qed.

(** *** The scores *)

(** What a pass does to the scores. *)
Lemma main_frame_scores w fr :
  (game_over (game_state w) = true
   /\ (scores (main_frame w fr) = scores w
       \/ scores (main_frame w fr) = mkScores 0 0 0))
  \/ (game_over (game_state w) = false
      /\ scores (main_frame w fr)
         = count_win (game_state (main_frame w fr)) (scores w)).
Proof.
  pose proof (after_events_one_move w (events fr)) as Hev.
  unfold main_frame. unfold after_events in Hev.
  destruct (fold_left _ _ _) as [[s1 mouse_clicked] running]. cbn [fst] in Hev.
  destruct Hev as [-> | (key & t & Ho & _ & _ & _ & -> & _)].
  - destruct (game_over (game_state w)) eqn:Hover; cbn [negb].
    + left. split; [reflexivity|]. destruct mouse_clicked; [|by left].
      destruct (replay_hover _); [by left|]. destruct (mode_hover _); [by left|].
      destruct (home_hover _); [by right|by left].
    + right. split; reflexivity.
  - right. split; [exact Ho|]. cbn [game_over set_player_moved set_player_pos].
    rewrite Ho. reflexivity.
Qed.

Lemma count_win_ok s sc : scores_ok sc -> scores_ok (count_win s sc).
Proof.
  unfold scores_ok, count_win. intros (Hp & Ha & Hg).
  destruct (game_over s); [|done]. repeat case_decide; cbn; lia.
Qed.

Lemma main_frame_scores_ok w fr : scores_ok (scores w) -> scores_ok (scores (main_frame w fr)).
Proof.
  intros H. destruct (main_frame_scores w fr) as [(_ & [-> | ->]) | (_ & ->)].
  - exact H.
  - by repeat split.
  - by apply count_win_ok.
Qed.

Lemma reachable_scores_ok w : reachable w -> scores_ok (scores w).
Proof.
  induction 1 as [fr|w fr _ IH _]; [by repeat split|by apply main_frame_scores_ok].
Qed.

(** *** The pieces and the end of a game *)



(** Between two passes of the game loop each piece is on its goal or on an
    interior cell that is not a wall: a wall is never left under a piece. *)
Theorem pieces_on_free_cells w :
  reachable w ->
  let s := game_state w in
  (player_pos s = player_goal s \/ (interior (player_pos s) /\ (player_pos s ∉ walls s)))
  /\ (ai_pos s = ai_goal s \/ (interior (ai_pos s) /\ (ai_pos s ∉ walls s))).
Proof.
  intros Hw. cbn zeta. destruct (reachable_state_ok w Hw) as (_ & _ & Hp & Ha).
  split.
  - destruct Hp as [Hg|(Hi & Hwall & _)]; [by left|by right].
  - destruct Ha as [Hg|(Hi & Hwall & _)]; [by left|by right].
Qed.

(** An instance: the game of [own_cell_frames]. *)
Lemma pieces_on_free_cells_witness :
  let w := play own_cell_frames in
  let s := game_state w in
  reachable w
  /\ (player_pos s = player_goal s \/ (interior (player_pos s) /\ (player_pos s ∉ walls s)))
  /\ (ai_pos s = ai_goal s \/ (interior (ai_pos s) /\ (ai_pos s ∉ walls s))).
Proof.
  cbn zeta.
  assert (reachable (play own_cell_frames)) as Hw.
  { apply reachable_play. vm_compute. reflexivity. }
  split; [exact Hw|]. exact (pieces_on_free_cells (play own_cell_frames) Hw).
Defined.



(** *** The walls *)

(** There are never more walls on the board than the two counters say, and
    so never more than twice the budget of a side. *)
Theorem walls_within_counters w :
  reachable w ->
  let s := game_state w in
  Z.of_nat (size (walls s)) <= player_walls_used s + ai_walls_used s
  /\ player_walls_used s + ai_walls_used s <= 2 * MAX_WALLS_PER_PLAYER.
Proof.
  intros Hw. cbn zeta. split; [exact (reachable_counted w Hw)|].
  destruct (reachable_bounded w Hw) as [[_ Hp] [_ Ha]]. lia.
Qed.

(** An instance: the game of [goal_wall_frames]. *)
Lemma walls_within_counters_witness :
  let w := play goal_wall_frames in
  let s := game_state w in
  reachable w
  /\ Z.of_nat (size (walls s)) <= player_walls_used s + ai_walls_used s
  /\ player_walls_used s + ai_walls_used s <= 2 * MAX_WALLS_PER_PLAYER.
Proof.
  cbn zeta.
  assert (reachable (play goal_wall_frames)) as Hw.
  { apply reachable_play. vm_compute. reflexivity. }
  split; [exact Hw|]. exact (walls_within_counters (play goal_wall_frames) Hw).
Defined.

Lemma handle_ai_turn_grows s b :
  let s' := handle_ai_turn s b in
  walls s ⊆ walls s'
  /\ (size (walls s') <= size (walls s) + 1)%nat
  /\ player_walls_used s <= player_walls_used s'
  /\ ai_walls_used s <= ai_walls_used s'.
Proof.
  cbn zeta.
  destruct (handle_ai_turn_summary s b) as (_ & _ & _ & _ & Hopp & Hwall & _).
  revert Hopp Hwall. cbn zeta. generalize (handle_ai_turn s b). intros s' Hopp Hwall.
  assert (mover_walls_used s b <= mover_walls_used s' b /\ walls s ⊆ walls s'
          /\ (size (walls s') <= size (walls s) + 1)%nat) as (Hc & Hsub & Hsize).
  { destruct Hwall as [[-> ->] | (blk & rest & _ & _ & _ & -> & ->)].
    - split; [lia|]. split; [done|lia].
    - split; [lia|]. split; [set_solver|].
      pose proof (size_add_wall (walls s) blk). lia. }
  split; [exact Hsub|]. split; [exact Hsize|].
  destruct b; cbn [mover_walls_used negb] in *; lia.
Qed.

Lemma grows_moved v s0 s :
  walls s0 ⊆ walls s
  /\ (size (walls s) <= size (walls s0) + 1)%nat
  /\ player_walls_used s0 <= player_walls_used s
  /\ ai_walls_used s0 <= ai_walls_used s ->
  walls s0 ⊆ walls (set_player_moved v s)
  /\ (size (walls (set_player_moved v s)) <= size (walls s0) + 1)%nat
  /\ player_walls_used s0 <= player_walls_used (set_player_moved v s)
  /\ ai_walls_used s0 <= ai_walls_used (set_player_moved v s).
Proof. done. Qed.

(** Within a game walls are only added, at most one in a pass of the game
    loop, and the counters only go up; the walls go when the game, once
    over, is started again. *)
Theorem walls_only_grow w fr :
  let s0 := game_state w in
  let s' := game_state (main_frame w fr) in
  (game_over s0 = true /\ s' = reset_game)
  \/ (walls s0 ⊆ walls s'
      /\ (size (walls s') <= size (walls s0) + 1)%nat
      /\ player_walls_used s0 <= player_walls_used s'
      /\ ai_walls_used s0 <= ai_walls_used s').
Proof.
  cbn zeta.
  destruct (main_frame_cases w fr)
    as [(Hover & [-> | ->])
       |[(_ & _ & _ & [-> | ->])
        |[(_ & _ & _ & ->)
         |[(_ & _ & _ & key & t & _ & _ & ->)
          |(_ & _ & ->)]]]].
  - right. split; [done|]. split; lia.
  - by left.
  - right. split; [done|]. split; lia.
  - right.
    destruct (player_place_wall_cases (game_state w) (mouse_pos fr))
      as [-> | (_ & _ & _ & _ & ->)]; [split; [done|]; split; lia|].
    cbn. split; [set_solver|].
    pose proof (size_add_wall (walls (game_state w)) (clicked_cell (mouse_pos fr))).
    split; lia.
  - right. apply grows_moved. apply handle_ai_turn_grows.
  - right. apply grows_moved.
    exact (handle_ai_turn_grows
             (set_player_moved true (set_player_pos t (game_state w))) false).
  - right. apply handle_ai_turn_grows.
Qed.

(** *** The scores *)

(** The score counters never go below zero, and the number of games played
    is the number of wins of the two sides together. *)
Theorem scores_add_up w :
  reachable w ->
  0 <= player_wins (scores w) /\ 0 <= ai_wins (scores w)
  /\ games_played (scores w) = player_wins (scores w) + ai_wins (scores w).
Proof. intros Hw. exact (reachable_scores_ok w Hw). Qed.

(** An instance: the game of [win_frames], once it is over. *)
Lemma scores_add_up_witness :
  let w := main_frame (play win_frames) (key_frame K_s) in
  reachable w
  /\ games_played (scores w) = 1
  /\ 0 <= player_wins (scores w) /\ 0 <= ai_wins (scores w)
  /\ games_played (scores w) = player_wins (scores w) + ai_wins (scores w).
Proof.
  cbn zeta.
  assert (reachable (main_frame (play win_frames) (key_frame K_s))) as Hw.
  { destruct (reachable_play win_frames) as [Hw Hrun]; [vm_compute; reflexivity|].
    by apply reachable_frame. }
  split; [exact Hw|]. split; [vm_compute; reflexivity|].
  exact (scores_add_up _ Hw).
Defined.

(** A game is counted once, in the pass that ends it, for the side that is
    on its goal (the player's side when both are); any other pass of a game
    leaves the scores alone, and a pass on the game-over screen keeps them or
    clears them. *)
Theorem win_counted_once w fr :
  reachable w ->
  let w' := main_frame w fr in
  (game_over (game_state w) = true ->
   scores w' = scores w \/ scores w' = mkScores 0 0 0)
  /\ (game_over (game_state w) = false -> game_over (game_state w') = false ->
      scores w' = scores w)
  /\ (game_over (game_state w) = false -> game_over (game_state w') = true ->
      games_played (scores w') = games_played (scores w) + 1
      /\ (player_pos (game_state w') = player_goal (game_state w') ->
          player_wins (scores w') = player_wins (scores w) + 1
          /\ ai_wins (scores w') = ai_wins (scores w))
      /\ (player_pos (game_state w') <> player_goal (game_state w') ->
          player_wins (scores w') = player_wins (scores w)
          /\ ai_wins (scores w') = ai_wins (scores w) + 1)).
Proof.
  intros Hw. cbn zeta.
  pose proof (main_frame_ok w fr (reachable_state_ok w Hw)) as (_ & Hiff & _).
  pose proof (main_frame_scores w fr) as Hsc.
  revert Hiff Hsc.
  generalize (scores (main_frame w fr)) (game_state (main_frame w fr)).
  intros sc' s' Hiff Hsc.
  unfold on_goal in Hiff. cbn [mover_pos mover_goal] in Hiff.
  split; [|split].
  - intros Ho. destruct Hsc as [[_ H] | [Ho' _]]; [exact H|congruence].
  - intros Ho Ho'. destruct Hsc as [[Hc _] | [_ ->]]; [congruence|].
    unfold count_win. by rewrite Ho'.
  - intros Ho Ho'. destruct Hsc as [[Hc _] | [_ ->]]; [congruence|].
    unfold count_win. rewrite Ho'.
    case_decide as Hp; cbn [games_played player_wins ai_wins]; [done|].
    case_decide as Ha; cbn [games_played player_wins ai_wins]; [done|].
    destruct (proj1 Hiff Ho') as [H|H]; [by destruct Hp|by destruct Ha].
Qed.

(** An instance: the pass that ends the game of [win_frames]. *)
Lemma win_counted_once_witness :
  let w := play win_frames in
  let w' := main_frame w (key_frame K_s) in
  reachable w /\ game_over (game_state w) = false /\ game_over (game_state w') = true
  /\ games_played (scores w') = games_played (scores w) + 1.
Proof.
  cbn zeta.
  assert (reachable (play win_frames)) as Hw.
  { apply reachable_play. vm_compute. reflexivity. }
  assert (game_over (game_state (play win_frames)) = false) as H0.
  { vm_compute. reflexivity. }
  assert (game_over (game_state (main_frame (play win_frames) (key_frame K_s))) = true)
    as H1.
  { vm_compute. reflexivity. }
  split; [exact Hw|]. split; [exact H0|]. split; [exact H1|].
  destruct (win_counted_once (play win_frames) (key_frame K_s) Hw) as (_ & _ & H).
  exact (proj1 (H H0 H1)).
Defined.

(** *** The player's pass *)

(** However many keys a pass brings, the player moves at most once, by one
    step: the first key that is accepted shuts the others out, and between
    two passes the flag that does so is down again. *)
Theorem one_move_per_pass w evs :
  reachable w ->
  let s0 := game_state w in
  let s1 := (after_events w evs).1.1 in
  player_moved s0 = false
  /\ (s1 = s0
      \/ exists key t,
           KEYDOWN key ∈ evs
           /\ key_target (player_pos s0) key = Some t
           /\ unit_step (player_pos s0) t
           /\ s1 = set_player_moved true (set_player_pos t s0)).
Proof.
  intros Hw. cbn zeta. destruct (reachable_state_ok w Hw) as [Hm _].
  split; [exact Hm|]. unfold after_events.
  generalize false as mouse_clicked. generalize (game_running w) as running.
  induction evs as [|ev evs IH]; intros running mouse_clicked; [by left|].
  cbn [fold_left].
  destruct (handle_event_cases (game_mode w) (game_state w) mouse_clicked running ev)
    as (mc' & r' & [[-> _] | (key & -> & Ho & Hmode & Hp & ->)]).
  - destruct (IH r' mc') as [H|(key & t & Hin & H)]; [by left|].
    right. exists key, t. split; [by right|exact H].
  - destruct (player_key_cases (game_state w) key) as [-> | (t & Ht & -> & Hfree)].
    + destruct (IH r' mc') as [H|(key' & t & Hin & H)]; [by left|].
      right. exists key', t. split; [by right|exact H].
    + right. exists key, t. split; [left|]. split; [exact Ht|].
      split.
      { apply key_target_step in Ht. unfold unit_step in *. lia. }
      by apply events_after_move.
Qed.

(** An instance: three keys in the first pass of a game. *)
Lemma one_move_per_pass_witness :
  let w := main_init (mkFrame [] (0, 0) false) in
  let s0 := game_state w in
  let s1 := (after_events w [KEYDOWN K_s; KEYDOWN K_s; KEYDOWN K_d]).1.1 in
  reachable w
  /\ player_pos s1 = (2, 4)
  /\ player_moved s0 = false
  /\ (s1 = s0
      \/ exists key t,
           KEYDOWN key ∈ [KEYDOWN K_s; KEYDOWN K_s; KEYDOWN K_d]
           /\ key_target (player_pos s0) key = Some t
           /\ unit_step (player_pos s0) t
           /\ s1 = set_player_moved true (set_player_pos t s0)).
Proof.
  cbn zeta. split; [apply reachable_init|]. split; [vm_compute; reflexivity|].
  apply (one_move_per_pass (main_init (mkFrame [] (0, 0) false))).
  apply reachable_init.
Defined.

(** In a Player-vs-AI game a pass is a wall placement or a move, never
    both.  Either the player did not move: then no piece moves, the turn
    counter and the program's wall counter stay, and the game state is the
    old one or the one the click on the board gives; placing a wall does not
    hand the turn to the program.  Or a key moved the player by one step:
    then the program takes its turn in the same pass and moves its piece by
    one step, and the player's wall counter stays. *)
Theorem player_pass_moves_or_walls w fr :
  reachable w -> game_mode w = 0 -> game_over (game_state w) = false ->
  let s0 := game_state w in
  let s' := game_state (main_frame w fr) in
  (player_pos s' = player_pos s0 /\ ai_pos s' = ai_pos s0
   /\ turn_counter s' = turn_counter s0
   /\ ai_walls_used s' = ai_walls_used s0
   /\ (s' = s0 \/ s' = player_place_wall s0 (mouse_pos fr)))
  \/ (exists key t,
        key_target (player_pos s0) key = Some t
        /\ unit_step (player_pos s0) t
        /\ player_pos s' = t
        /\ unit_step (ai_pos s0) (ai_pos s')
        /\ turn_counter s' = turn_counter s0 + 1
        /\ player_walls_used s' = player_walls_used s0).
Proof.
  intros Hw Hmode Hover. cbn zeta.
  destruct (reachable_state_ok w Hw) as [Hm Hs].
  destruct (main_frame_cases w fr)
    as [(Ho & _)
       |[(_ & _ & _ & Hcase)
        |[(_ & _ & Hp & _)
         |[(_ & _ & _ & key & t & Ht & Hfree & ->)
          |(_ & Hmode' & _)]]]]; [congruence| |congruence| |done].
  - left. destruct Hcase as [-> | ->]; [repeat split; by left|].
    destruct (player_place_wall_cases (game_state w) (mouse_pos fr))
      as [E | (_ & _ & _ & _ & E)]; rewrite E; repeat split; by right.
  - right. exists key, t.
    destruct (player_step_ok _ key t Hs Hover Ht Hfree) as (Ho1 & Hn1 & Ha1 & Hp1).
    destruct (handle_ai_turn_ok _ false Ho1 Hn1 Ha1 Hp1) as (Hstep & _).
    destruct (handle_ai_turn_summary
                (set_player_moved true (set_player_pos t (game_state w))) false)
      as (Htc & _ & _ & Hopp & Hcount & _).
    revert Hstep Htc Hopp Hcount. cbn zeta.
    generalize (handle_ai_turn
                  (set_player_moved true (set_player_pos t (game_state w))) false).
    intros s3 Hstep Htc Hopp Hcount.
    split; [exact Ht|]. split.
    { apply key_target_step in Ht. unfold unit_step in *. lia. }
    split; [exact Hopp|]. split; [exact Hstep|]. split; [exact Htc|exact Hcount].
Qed.

(** An instance: a key after the game of [own_cell_frames]. *)
Lemma player_pass_moves_or_walls_witness :
  let w := play own_cell_frames in
  let s0 := game_state w in
  let s' := game_state (main_frame w (key_frame K_d)) in
  reachable w /\ game_mode w = 0 /\ game_over s0 = false
  /\ ((player_pos s' = player_pos s0 /\ ai_pos s' = ai_pos s0
       /\ turn_counter s' = turn_counter s0
       /\ ai_walls_used s' = ai_walls_used s0
       /\ (s' = s0 \/ s' = player_place_wall s0 (mouse_pos (key_frame K_d))))
      \/ (exists key t,
            key_target (player_pos s0) key = Some t
            /\ unit_step (player_pos s0) t
            /\ player_pos s' = t
            /\ unit_step (ai_pos s0) (ai_pos s')
            /\ turn_counter s' = turn_counter s0 + 1
            /\ player_walls_used s' = player_walls_used s0)).
Proof.
  cbn zeta.
  assert (reachable (play own_cell_frames)) as Hw.
  { apply reachable_play. vm_compute. reflexivity. }
  assert (game_mode (play own_cell_frames) = 0) as Hmode by (vm_compute; reflexivity).
  assert (game_over (game_state (play own_cell_frames)) = false) as Hover
    by (vm_compute; reflexivity).
  split; [exact Hw|]. split; [exact Hmode|]. split; [exact Hover|].
  exact (player_pass_moves_or_walls (play own_cell_frames) (key_frame K_d) Hw Hmode Hover).
Defined.

(** *** The automated sides *)

(** The mode a game is played in stays while the game is on. *)
Lemma main_frame_mode_kept w fr :
  game_over (game_state w) = false -> game_mode (main_frame w fr) = game_mode w.
Proof.
  intros Hover. pose proof (after_events_one_move w (events fr)) as Hev.
  unfold main_frame. unfold after_events in Hev.
  destruct (fold_left _ _ _) as [[s1 mouse_clicked] running]. cbn [fst] in Hev.
  destruct Hev as [-> | (key & t & _ & _ & _ & _ & -> & _)].
  - rewrite Hover. reflexivity.
  - cbn [game_over set_player_moved set_player_pos]. rewrite Hover. reflexivity.
Qed.

(** In an AI-vs-AI game the events of a pass count for nothing and the two
    sides take turns: the side the parity of the turn counter names takes an
    automated turn, its piece moves by one step, the other piece stays, and
    the turn counter, one up, names the other side for the next pass. *)
Theorem ai_vs_ai_alternates w fr :
  reachable w -> game_mode w <> 0 -> game_over (game_state w) = false ->
  let s0 := game_state w in
  let s' := game_state (main_frame w fr) in
  let b := bool_decide (turn_counter s0 mod 2 = 0) in
  s' = handle_ai_turn s0 b
  /\ unit_step (mover_pos s0 b) (mover_pos s' b)
  /\ mover_pos s' (negb b) = mover_pos s0 (negb b)
  /\ bool_decide (turn_counter s' mod 2 = 0) = negb b
  /\ game_mode (main_frame w fr) = game_mode w.
Proof.
  intros Hw Hmode Hover. cbn zeta.
  destruct (main_frame_cases w fr)
    as [(Ho & _)
       |[(_ & Hm & _)
        |[(_ & Hm & _)
         |[(_ & Hm & _)
          |(_ & _ & ->)]]]]; [congruence|done|done|done|].
  split; [reflexivity|].
  destruct (state_ok_turn (game_state w)
              (bool_decide (turn_counter (game_state w) mod 2 = 0))
              (reachable_state_ok w Hw) Hover) as [Hstep _].
  destruct (handle_ai_turn_summary (game_state w)
              (bool_decide (turn_counter (game_state w) mod 2 = 0)))
    as (Htc & _ & _ & Hopp & _).
  split; [exact Hstep|]. split; [exact Hopp|].
  split; [|by apply main_frame_mode_kept].
  cbn zeta in Htc. rewrite Htc.
  pose proof (Z.mod_pos_bound (turn_counter (game_state w)) 2 ltac:(lia)).
  pose proof (Z.mod_pos_bound (turn_counter (game_state w) + 1) 2 ltac:(lia)).
  pose proof (Z.div_mod (turn_counter (game_state w)) 2 ltac:(lia)).
  pose proof (Z.div_mod (turn_counter (game_state w) + 1) 2 ltac:(lia)).
  repeat case_bool_decide; cbn [negb]; try reflexivity; lia.
Qed.

(** An instance: the first pass of an AI-vs-AI game, with a key and a
    click in it. *)
Lemma ai_vs_ai_alternates_witness :
  let w := main_init (mkFrame [] (0, 0) true) in
  let fr := mkFrame [KEYDOWN K_s; MOUSEBUTTONDOWN 1] (247, 27) false in
  let s0 := game_state w in
  let s' := game_state (main_frame w fr) in
  let b := bool_decide (turn_counter s0 mod 2 = 0) in
  reachable w /\ game_mode w <> 0 /\ game_over s0 = false
  /\ s' = handle_ai_turn s0 b
  /\ unit_step (mover_pos s0 b) (mover_pos s' b)
  /\ mover_pos s' (negb b) = mover_pos s0 (negb b)
  /\ bool_decide (turn_counter s' mod 2 = 0) = negb b
  /\ game_mode (main_frame w fr) = game_mode w.
Proof.
  cbn zeta. split; [apply reachable_init|]. split; [discriminate|].
  split; [reflexivity|].
  apply (ai_vs_ai_alternates (main_init (mkFrame [] (0, 0) true))
           (mkFrame [KEYDOWN K_s; MOUSEBUTTONDOWN 1] (247, 27) false)).
  - apply reachable_init.
  - discriminate.
  - reflexivity.
Defined.

(** An automated turn keeps to its side: it never moves the other piece,
    never changes a goal, the other side's wall counter or the flag of the
    player's move; it adds one to the turn counter; and it adds no wall, or
    one wall, the first cell of the other side's path, which its own counter
    pays for. *)
Theorem ai_turn_keeps_to_its_side s b :
  let s' := handle_ai_turn s b in
  mover_pos s' (negb b) = mover_pos s (negb b)
  /\ mover_walls_used s' (negb b) = mover_walls_used s (negb b)
  /\ player_goal s' = player_goal s /\ ai_goal s' = ai_goal s
  /\ player_moved s' = player_moved s
  /\ turn_counter s' = turn_counter s + 1
  /\ ((walls s' = walls s /\ mover_walls_used s' b = mover_walls_used s b)
      \/ exists block_pos rest,
           find_path (mover_pos s (negb b)) (mover_goal s (negb b)) (walls s)
           = block_pos :: rest
           /\ walls s' = walls s ∪ {[ block_pos ]}
           /\ mover_walls_used s' b = mover_walls_used s b + 1
           /\ mover_walls_used s' b <= MAX_WALLS_PER_PLAYER).
Proof.
  cbn zeta.
  destruct (handle_ai_turn_summary s b) as (Htc & Hm & Hgoal & Hopp & Hcount & Hwall & _).
  split; [exact Hopp|]. split; [exact Hcount|].
  split; [exact (Hgoal true)|]. split; [exact (Hgoal false)|].
  split; [exact Hm|]. split; [exact Htc|].
  destruct Hwall as [H | (blk & rest & Hlt & Hpath & _ & Hw & Hc)]; [by left|].
  right. exists blk, rest. split; [exact Hpath|]. split; [exact Hw|].
  split; [exact Hc|]. rewrite Hc. lia.
Qed.

(** *** The message of the game-over screen *)

Lemma expected_message_turn m s b :
  (m = 0 -> b = false) ->
  (m <> 0 -> b = true \/ player_pos s <> player_goal s) ->
  win_message s b = expected_message m s.
Proof.
  unfold win_message, expected_message. intros H0 H1.
  case_decide as Hp; [|reflexivity].
  case_decide as Hm; [by rewrite (H0 Hm)|].
  destruct (H1 Hm) as [-> | ?]; done.
Qed.

Lemma message_moved v m s :
  game_over (set_player_moved v s) = game_over s
  /\ (result_message s = expected_message m s ->
      result_message (set_player_moved v s) = expected_message m (set_player_moved v s)).
Proof. done. Qed.

(** The message an automated turn leaves when it ends the game. *)
Lemma handle_ai_turn_message m s b :
  game_over s = false -> ~ on_goal s b -> side_ok s b -> side_ok s (negb b) ->
  (m = 0 -> b = false) ->
  (m <> 0 -> b = true \/ ~ on_goal s true) ->
  game_over (handle_ai_turn s b) = true ->
  result_message (handle_ai_turn s b) = expected_message m (handle_ai_turn s b).
Proof.
  intros Hover Hnot Hb Hnb Hm0 Hm1.
  destruct (handle_ai_turn_ok s b Hover Hnot Hb Hnb) as (_ & Hiff & _).
  destruct (handle_ai_turn_summary s b) as (_ & _ & Hgoal & Hopp & _).
  pose proof (handle_ai_turn_win s b) as Hwin.
  revert Hiff Hgoal Hopp Hwin. cbn zeta. generalize (handle_ai_turn s b).
  intros s' Hiff Hgoal Hopp Hwin Hover'.
  destruct (Hwin (proj1 Hiff Hover')) as [_ ->].
  apply expected_message_turn; [exact Hm0|].
  intros Hm. destruct (Hm1 Hm) as [-> | Hp]; [by left|].
  destruct b; [by left|]. right.
  unfold on_goal in Hp. cbn [negb mover_pos mover_goal] in Hopp, Hp.
  specialize (Hgoal true). cbn [mover_goal] in Hgoal. congruence.
Qed.

Lemma main_frame_message w fr :
  state_ok (game_state w) -> message_ok w -> message_ok (main_frame w fr).
Proof.
  intros Hok Hmsg. unfold message_ok.
  pose proof (main_frame_mode w fr) as Hm.
  pose proof (main_frame_cases w fr) as Hc. cbn zeta in Hc. revert Hm Hc.
  generalize (game_mode (main_frame w fr)) (game_state (main_frame w fr)).
  intros m' s' Hm Hc Hover'.
  destruct Hm as [-> | ->]; [|discriminate].
  destruct Hok as (Hmoved & Hs). pose proof Hs as (Hiff & Hp & Ha).
  destruct Hc
    as [(Hover & [-> | ->])
       |[(Hover & _ & _ & [-> | ->])
        |[(_ & _ & Hpm & _)
         |[(Hover & Hmode & _ & key & t & Ht & Hfree & ->)
          |(Hover & Hmode & ->)]]]].
  - exact (Hmsg Hover').
  - discriminate.
  - congruence.
  - destruct (player_place_wall_frame (game_state w) (mouse_pos fr))
      as (_ & _ & _ & _ & Hsame & _). congruence.
  - congruence.
  - destruct (player_step_ok _ key t Hs Hover Ht Hfree) as (Ho1 & Hn1 & Ha1 & Hp1).
    pose proof (handle_ai_turn_message (game_mode w) _ false Ho1 Hn1 Ha1 Hp1
                  (fun _ => eq_refl) (fun H => match H Hmode with end)) as Hturn.
    revert Hover' Hturn.
    generalize (handle_ai_turn
                  (set_player_moved true (set_player_pos t (game_state w))) false).
    intros s3 Hover' Hturn.
    exact (proj2 (message_moved false (game_mode w) s3) (Hturn Hover')).
  - assert (~ (on_goal (game_state w) true \/ on_goal (game_state w) false)) as Hnot.
    { intros H. apply Hiff in H. congruence. }
    assert (forall b, side_ok (game_state w) b) as Hside by (intros []; assumption).
    apply (handle_ai_turn_message (game_mode w) (game_state w)
             (bool_decide (turn_counter (game_state w) mod 2 = 0)) Hover).
    + intros H. apply Hnot. destruct (bool_decide _); [by left|by right].
    + apply Hside.
    + apply Hside.
    + intros H. by destruct Hmode.
    + intros _. right. intros H. apply Hnot. by left.
    + exact Hover'.
Qed.

Lemma reachable_message w : reachable w -> message_ok w.
Proof.
  induction 1 as [fr|w fr Hw IH _]; [discriminate|].
  apply main_frame_message; [by apply reachable_state_ok|exact IH].
Qed.

(** When the game is over, the message on the screen names the side that
    is on its goal, in the wording of the mode; the player's side is named
    when both are on their goals. *)
Theorem result_message_names_winner w :
  reachable w -> game_over (game_state w) = true ->
  let s := game_state w in
  (player_pos s = player_goal s ->
   result_message s
   = if decide (game_mode w = 0) then "You reached the AI's goal! You win!"%string
     else "Player AI reached the goal! Player AI wins!"%string)
  /\ (player_pos s <> player_goal s ->
      ai_pos s = ai_goal s
      /\ result_message s = "AI reached the goal! AI wins!"%string).
Proof.
  intros Hw Hover. cbn zeta.
  pose proof (reachable_message w Hw Hover) as Hmsg.
  destruct (reachable_state_ok w Hw) as (_ & Hiff & _).
  unfold expected_message in Hmsg. split.
  - intros Hp. by rewrite decide_True in Hmsg.
  - intros Hp. rewrite decide_False in Hmsg by exact Hp. split; [|exact Hmsg].
    destruct (proj1 Hiff Hover) as [H|H]; [by destruct Hp|exact H].
Qed.

(** An instance: the game of [win_frames], once it is over, with both
    pieces on their goals. *)
Lemma result_message_names_winner_witness :
  let w := main_frame (play win_frames) (key_frame K_s) in
  let s := game_state w in
  reachable w /\ game_over s = true /\ player_pos s = player_goal s
  /\ ai_pos s = ai_goal s
  /\ (player_pos s = player_goal s ->
      result_message s
      = if decide (game_mode w = 0) then "You reached the AI's goal! You win!"%string
        else "Player AI reached the goal! Player AI wins!"%string)
  /\ (player_pos s <> player_goal s ->
      ai_pos s = ai_goal s
      /\ result_message s = "AI reached the goal! AI wins!"%string).
Proof.
  cbn zeta.
  assert (reachable (main_frame (play win_frames) (key_frame K_s))) as Hw.
  { destruct (reachable_play win_frames) as [Hw Hrun]; [vm_compute; reflexivity|].
    by apply reachable_frame. }
  assert (game_over (game_state (main_frame (play win_frames) (key_frame K_s))) = true)
    as Hover by (vm_compute; reflexivity).
  split; [exact Hw|]. split; [exact Hover|].
  split; [vm_compute; reflexivity|]. split; [vm_compute; reflexivity|].
  exact (result_message_names_winner _ Hw Hover).
Defined.

(** *** Accepted moves *)

(** In a Player-vs-AI game that is on, the first key of a pass whose target
    is free moves the player there: an interior cell that is not a wall for
    any of the four keys, the goal cell for the keys [w] and [s]. *)
Theorem legal_move_accepted w evs key t :
  reachable w -> game_mode w = 0 ->
  let st := after_events w evs in
  let s := st.1.1 in
  game_over s = false -> player_moved s = false ->
  key_target (player_pos s) key = Some t ->
  (interior t /\ (t ∉ walls s)) \/ (t = player_goal s /\ (key = K_w \/ key = K_s)) ->
  (handle_event (game_mode w) st (KEYDOWN key)).1.1
  = set_player_moved true (set_player_pos t s).
Proof.
  intros Hw Hmode. cbn zeta.
  pose proof (after_events_one_move w evs) as Hev.
  destruct (reachable_state_ok w Hw) as (_ & Hiff & Hp & _).
  destruct (after_events w evs) as [[s1 mouse_clicked] running]. cbn [fst] in *.
  intros Hover Hmoved Ht Hfree. rewrite handle_event_keydown, Hover, Hmoved.
  rewrite bool_decide_eq_true_2 by exact Hmode. cbn [negb andb fst].
  destruct Hev as [-> | (k & t' & _ & _ & _ & _ & -> & _)]; [|discriminate].
  apply player_key_accepts; [|exact Ht|exact Hfree].
  destruct Hp as [Hg|[Hi _]]; [|exact Hi].
  assert (game_over (game_state w) = true); [|congruence]. apply Hiff. by left.
Qed.

(** An instance: the key [s] at the start of a game, after a click. *)
Lemma legal_move_accepted_witness :
  let w := main_init (mkFrame [] (0, 0) false) in
  let st := after_events w [MOUSEBUTTONDOWN 1] in
  reachable w /\ game_mode w = 0
  /\ (handle_event (game_mode w) st (KEYDOWN K_s)).1.1
     = set_player_moved true (set_player_pos (2, 4) st.1.1).
Proof.
  cbn zeta. split; [apply reachable_init|]. split; [reflexivity|].
  apply (legal_move_accepted (main_init (mkFrame [] (0, 0) false))
           [MOUSEBUTTONDOWN 1] K_s (2, 4)).
  - apply reachable_init.
  - reflexivity.
  - reflexivity.
  - reflexivity.
  - reflexivity.
  - left. split; [repeat split; cbv; discriminate|]. apply not_elem_of_empty.
Defined.

(** ** The window *)

Lemma tile_size : TILE_SIZE = 55.
Proof. reflexivity. Qed.

Lemma div_tile x k : x / 55 = k <-> 55 * k <= x < 55 * k + 55.
Proof.
  pose proof (Z.div_mod x 55 ltac:(lia)). pose proof (Z.mod_pos_bound x 55 ltac:(lia)).
  lia.
Qed.

(** The tile drawn for a cell is the set of mouse positions a click maps to
    that cell: what is clicked is what is seen. *)
Theorem tile_is_its_clicks row col pos :
  rect_collidepoint (draw_tile_rect row col) pos = true
  <-> clicked_cell pos = (row, col).
Proof.
  unfold rect_collidepoint, draw_tile_rect, collidepoint, clicked_cell. cbn [fst snd].
  rewrite tile_size, andb_true_iff, !bool_decide_eq_true.
  destruct pos as [x y]. cbn [fst snd]. split.
  - intros [Hx Hy]. f_equal; apply div_tile; lia.
  - intros [= Hy%div_tile Hx%div_tile]. lia.
Qed.





(** *** The start screen *)

(** The two buttons of the start screen do not overlap. *)
Lemma start_buttons_apart pos : pvp_hover pos = true -> aiva_hover pos = false.
Proof.
  unfold pvp_hover, aiva_hover, collidepoint.
  change SCREEN_HEIGHT with 605. change SCREEN_WIDTH with 495.
  rewrite !andb_true_iff, !andb_false_iff, !bool_decide_eq_true, !bool_decide_eq_false.
  change (605 / 2) with 302. intros. lia.
Qed.

(** [show_start_screen] returns 0 or 1 and nothing else, from the first
    pass that brings a left click with the mouse on a button: 0 on the
    [Player vs AI] button, 1 on the [AI vs AI] button, which do not overlap.
    The passes before it brought no [QUIT], and neither did that pass. *)
Theorem start_screen_returns frames game_mode :
  show_start_screen_loop frames = Returned game_mode ->
  exists before fr after,
    frames = before ++ fr :: after
    /\ Forall (fun fr' => start_screen_pass fr' = Waiting
                          /\ existsb is_quit (events fr') = false) before
    /\ existsb is_quit (events fr) = false
    /\ existsb is_left_click (events fr) = true
    /\ ((game_mode = 0 /\ pvp_hover (mouse_pos fr) = true
         /\ aiva_hover (mouse_pos fr) = false)
        \/ (game_mode = 1 /\ aiva_hover (mouse_pos fr) = true
            /\ pvp_hover (mouse_pos fr) = false)).
Proof.
  induction frames as [|fr frames IH]; cbn [show_start_screen_loop]; [discriminate|].
  destruct (start_screen_pass fr) as [m| |] eqn:E.
  - intros [= ->]. exists [], fr, frames. split; [reflexivity|]. split; [constructor|].
    unfold start_screen_pass in E.
    destruct (existsb is_quit (events fr)); [discriminate|]. split; [reflexivity|].
    destruct (existsb is_left_click (events fr)); [|discriminate]. split; [reflexivity|].
    destruct (pvp_hover (mouse_pos fr)) eqn:Hp.
    + injection E as <-. left. split; [reflexivity|]. split; [reflexivity|].
      by apply start_buttons_apart.
    + destruct (aiva_hover (mouse_pos fr)); [|discriminate]. injection E as <-. by right.
  - discriminate.
  - intros (before & fr' & after & -> & Hb & H)%IH.
    exists (fr :: before), fr', after. split; [reflexivity|]. split; [|exact H].
    constructor; [|exact Hb]. split; [exact E|].
    unfold start_screen_pass in E. by destruct (existsb is_quit (events fr)).
Qed.

(** An instance: a click off the buttons, then one on [AI vs AI]. *)
Lemma start_screen_returns_witness :
  let frames := [mkFrame [OTHER_EVENT] (0, 0) false;
                 mkFrame [MOUSEBUTTONDOWN 1] (10, 10) false;
                 mkFrame [KEYDOWN K_w; MOUSEBUTTONDOWN 1] (247, 380) false;
                 mkFrame [QUIT] (0, 0) false] in
  show_start_screen_loop frames = Returned 1
  /\ exists before fr after,
       frames = before ++ fr :: after
       /\ Forall (fun fr' => start_screen_pass fr' = Waiting
                             /\ existsb is_quit (events fr') = false) before
       /\ existsb is_quit (events fr) = false
       /\ existsb is_left_click (events fr) = true
       /\ ((1 = 0 /\ pvp_hover (mouse_pos fr) = true
            /\ aiva_hover (mouse_pos fr) = false)
           \/ (1 = 1 /\ aiva_hover (mouse_pos fr) = true
               /\ pvp_hover (mouse_pos fr) = false)).
Proof.
  cbn zeta. split; [reflexivity|].
  apply (start_screen_returns _ 1). reflexivity.
Defined.

(** A [QUIT] event in a pass of the start screen leaves the program, a left
    click on a button in the same pass notwithstanding; and a pass without a
    left click, or with the mouse off the buttons, goes round again. *)
Theorem start_screen_quit_first frames fr rest :
  Forall (fun fr' => start_screen_pass fr' = Waiting) frames ->
  (existsb is_quit (events fr) = true ->
   show_start_screen_loop (frames ++ fr :: rest) = Exited)
  /\ (existsb is_quit (events fr) = false ->
      existsb is_left_click (events fr) = false
      \/ (pvp_hover (mouse_pos fr) = false /\ aiva_hover (mouse_pos fr) = false) ->
      show_start_screen_loop (frames ++ fr :: rest) = show_start_screen_loop rest).
Proof.
  intros Hwait.
  assert (forall l, show_start_screen_loop (frames ++ l) = show_start_screen_loop l) as Hskip.
  { intros l. induction Hwait as [|fr' frames E _ IH]; [reflexivity|].
    cbn [app show_start_screen_loop]. by rewrite E. }
  rewrite Hskip. cbn [show_start_screen_loop]. unfold start_screen_pass. split.
  - by intros ->.
  - intros -> [-> | [-> ->]]; [reflexivity|].
    by destruct (existsb is_left_click (events fr)).
Qed.

(** An instance: a pass that brings a left click on the [Player vs AI]
    button and then a [QUIT]. *)
Lemma start_screen_quit_first_witness :
  let frames := [mkFrame [MOUSEBUTTONDOWN 1] (10, 10) false] in
  let fr := mkFrame [MOUSEBUTTONDOWN 1; QUIT] (247, 310) false in
  Forall (fun fr' => start_screen_pass fr' = Waiting) frames
  /\ pvp_hover (mouse_pos fr) = true
  /\ show_start_screen_loop (frames ++ [fr]) = Exited.
Proof.
  cbn zeta.
  assert (Forall (fun fr' => start_screen_pass fr' = Waiting)
            [mkFrame [MOUSEBUTTONDOWN 1] (10, 10) false]) as H.
  { constructor; [reflexivity|constructor]. }
  split; [exact H|]. split; [reflexivity|].
  destruct (start_screen_quit_first [mkFrame [MOUSEBUTTONDOWN 1] (10, 10) false]
              (mkFrame [MOUSEBUTTONDOWN 1; QUIT] (247, 310) false) [] H) as [Hquit _].
  apply Hquit. reflexivity.
Defined.
